(** * obsidian-copilot: retrieval, rank fusion and offline index build

    A shallow embedding of the Python sources

    - [src/app.py]                       (hit parsing, rank fusion, context assembly)
    - [src/prep/build_semantic_index.py] (embedding index, embedding array, semantic query)
    - [src/prep/build_vault_dict.py]     (file filter, chunking, vault dictionary)
    - [src/prep/build_opensearch_index.py] (bulk indexing of the vault)

    together with the properties the specification states about them. *)

From Stdlib Require Import ZArith QArith Qcanon String Ascii List Lia Permutation.
From stdpp Require Import base tactics decidable option list numbers strings sorting pretty.

Local Open Scope string_scope.
Local Open Scope list_scope.

(** ** Python values shared by the modules

    A Python [str] is modelled by a string whose characters stand for the code
    points below 256, one character each; a text with a character beyond them
    is not covered. All the literals of the code are ASCII. *)

(** The exceptions the modelled code can raise. [KeyError] carries the missing
    key of a [str]-keyed mapping (or column name), [KeyErrorInt] the missing key
    of an [int]-keyed mapping. *)
Inductive exception : Type :=
  | KeyError (key : string)
  | KeyErrorInt (key : nat)
  | ValueError (msg : string)
  | ZeroDivisionError
  | FileNotFoundError (filename : string)
  | IsADirectoryError (filename : string).

Inductive result (A : Type) : Type :=
  | Ok (a : A)
  | Raise (e : exception).
Arguments Ok {A} a.
Arguments Raise {A} e.

Definition bind {A B} (r : result A) (k : A → result B) : result B :=
  match r with
  | Ok a => k a
  | Raise e => Raise e
  end.

Notation "x ←r e1 ; e2" := (bind e1 (λ x, e2))
  (at level 100, e1 at next level, e2 at level 200, right associativity).

(** [f] applied to the value a computation returns. *)
Definition result_map {A B} (f : A → B) (r : result A) : result B :=
  match r with
  | Ok a => Ok (f a)
  | Raise e => Raise e
  end.

Global Instance exception_eq_dec : EqDecision exception.
Proof. solve_decision. Defined.

(** A Python [dict]: keys are unique and iteration follows insertion order.
    [dict_set] is the assignment [d[k] = v]: it overwrites in place when the key
    is present and appends otherwise. *)
Abbreviation dict K V := (list (K * V)).

Section pydict.
Context {K V : Type} `{EqDecision K}.

Fixpoint dict_get (d : dict K V) (k : K) : option V :=
  match d with
  | [] => None
  | (k', v) :: d' => if decide (k = k') then Some v else dict_get d' k
  end.

Fixpoint dict_set (d : dict K V) (k : K) (v : V) : dict K V :=
  match d with
  | [] => [(k, v)]
  | (k', v') :: d' =>
      if decide (k = k') then (k', v) :: d' else (k', v') :: dict_set d' k v
  end.
End pydict.

(** Sorting as numpy does it on a short array (insertion sort): ascending for
    [R], and stable, i.e. elements that [R] does not separate stay in the order
    they had. *)
Section stable_sort.
Context {A : Type} (R : relation A) `{∀ x y, Decision (R x y)}.

Fixpoint insert_sorted (x : A) (l : list A) : list A :=
  match l with
  | [] => [x]
  | y :: l' => if decide (R x y) then x :: l else y :: insert_sorted x l'
  end.

Definition stable_sort (l : list A) : list A := foldr insert_sorted [] l.
End stable_sort.

(** A record of the vault dictionary (the values of [vault_dict.pickle]). *)
Module Doc.
Record t : Type := mk { title : string; type : string; path : string; chunk : string }.
End Doc.

Global Instance Doc_eq_dec : EqDecision Doc.t.
Proof. solve_decision. Defined.

(** ** [src/app.py] *)

(** A hit [{'id': ..., 'rank': ...}]. *)
Module Hit.
Record t : Type := mk { id : string; rank : Z }.
End Hit.

Global Instance Hit_eq_dec : EqDecision Hit.t.
Proof. solve_decision. Defined.

(** An element [{'title': ..., 'chunk': ...}] of the returned context. *)
Module Entry.
Record t : Type := mk { title : string; chunk : string }.
End Entry.

Global Instance Entry_eq_dec : EqDecision Entry.t.
Proof. solve_decision. Defined.

(** [enumerate(l)]: the elements of [l] with their positions, from 0. *)
Fixpoint enumerate_from {A} (start : Z) (l : list A) : list (Z * A) :=
  match l with
  | [] => []
  | x :: l' => (start, x) :: enumerate_from (start + 1) l'
  end.

Definition enumerate {A} (l : list A) : list (Z * A) := enumerate_from 0 l.

(** [parse_os_response]: the opensearch response is reduced to the list of
    [_id] fields of [response['hits']['hits']], in order. *)
Definition parse_os_response (response_hits : list string) : list Hit.t :=
  (λ p, Hit.mk p.2 p.1) <$> enumerate response_hits.

(** [parse_semantic_response]: [embedding_index[idx]] raises [KeyError] for a
    row index that is not a key of the mapping. *)
Fixpoint parse_semantic_go (embedding_index : dict nat string)
    (rows : list (Z * nat)) (hits : list Hit.t) : result (list Hit.t) :=
  match rows with
  | [] => Ok hits
  | (rank, idx) :: rows' =>
      match dict_get embedding_index idx with
      | None => Raise (KeyErrorInt idx)
      | Some cid => parse_semantic_go embedding_index rows' (hits ++ [Hit.mk cid rank])
      end
  end.

Definition parse_semantic_response (indices : list nat)
    (embedding_index : dict nat string) : result (list Hit.t) :=
  parse_semantic_go embedding_index (enumerate indices) [].

(** *** The pandas steps of [get_chunks_from_hits]

    A frame with the columns [id] and [score] is a list of rows. *)
Abbreviation frame := (list (string * Z)).

(** [df['rank']] on [pd.DataFrame(hits)]: a frame built from an empty list has
    no columns at all, so selecting the column raises [KeyError: 'rank']. *)
Definition column_rank (hits : list Hit.t) : result (list Z) :=
  match hits with
  | [] => Raise (KeyError "rank")
  | _ => Ok (Hit.rank <$> hits)
  end.

(** [.apply(lambda x: 10 - x)] *)
Definition score_of_rank (x : Z) : Z := (10 - x)%Z.

(** The [score] column holds 64-bit integers, the type pandas gives a column
    of integers that all fit in 64 bits, and pandas adds such integers with
    wrap-around: [int64 z] is the 64-bit integer (two's complement) that [z]
    is reduced to. *)
Definition int64_range (z : Z) : Prop := (- 2 ^ 63 ≤ z < 2 ^ 63)%Z.

Definition int64 (z : Z) : Z := ((z + 2 ^ 63) `mod` 2 ^ 64 - 2 ^ 63)%Z.

Definition int64_add (a b : Z) : Z := int64 (a + b).

(** [groupby('id').agg({'score': 'sum'})]: one pass over the rows that adds each
    score to the running sum of its group (groups kept in first-seen order),
    after which the group keys are put in ascending order ([sort=True]). *)
Fixpoint group_add (groups : frame) (k : string) (v : Z) : frame :=
  match groups with
  | [] => [(k, v)]
  | (k', s) :: groups' =>
      if decide (k = k') then (k', int64_add s v) :: groups'
      else (k', s) :: group_add groups' k v
  end.

Definition group_sum (df : frame) : frame :=
  foldl (λ groups row, group_add groups row.1 row.2) [] df.

Definition key_le (r1 r2 : string * Z) : Prop := String.le r1.1 r2.1.
Definition score_le (r1 r2 : string * Z) : Prop := (r1.2 ≤ r2.2)%Z.

Global Instance key_le_dec : RelDecision key_le.
Proof. intros r1 r2. unfold key_le. apply _. Defined.
Global Instance score_le_dec : RelDecision score_le.
Proof. intros r1 r2. unfold score_le. apply _. Defined.
Global Instance score_le_trans : Transitive score_le.
Proof. intros x y z. unfold score_le. lia. Qed.
Global Instance score_le_total : Total score_le.
Proof. intros x y. unfold score_le. lia. Qed.

Definition groupby_sum (df : frame) : frame := stable_sort key_le (group_sum df).

(** [sort_values('score', ascending=False)]: pandas reverses the column, sorts
    it ascending and reverses the outcome. The sort it asks numpy for is not a
    stable one on long columns, so the code does not determine the order of
    rows of equal score; with the stable sort of the model these rows stay in
    the order of the grouped frame, i.e. of their ids. *)
Definition sort_values_desc (df : frame) : frame :=
  reverse (stable_sort score_le (reverse df)).

(** The frame [ranked] (lines 121-124). *)
Definition ranked (hits : list Hit.t) : result frame :=
  ranks ←r column_rank hits;
  let df := zip (Hit.id <$> hits) (score_of_rank <$> ranks) in
  Ok (sort_values_desc (groupby_sum df)).

(** [ranked['id'].tolist()] *)
Definition ranked_ids (hits : list Hit.t) : result (list string) :=
  r ←r ranked hits; Ok (r.*1).

Section get_chunks.
(** [num_tokens_from_string(., model_name)]: the tiktoken encoder of the
    downstream model, of which only the number of tokens is used. *)
Variable num_tokens_from_string : string → nat.
(** The module-level [vault]. *)
Variable vault : dict string Doc.t.

(** The loop of lines 127-141, with its two accumulators. *)
Fixpoint assemble (max_tokens : Z) (ids : list string) (token_count : Z)
    (chunks : list Entry.t) : result (list Entry.t) :=
  match ids with
  | [] => Ok chunks
  | id :: ids' =>
      match dict_get vault id with
      | None => Raise (KeyError id)
      | Some doc =>
          let chunk := Doc.chunk doc in
          let title := Doc.title doc in
          let token_count := (token_count + Z.of_nat (num_tokens_from_string chunk))%Z in
          if decide (token_count > max_tokens)%Z then Ok chunks
          else assemble max_tokens ids' token_count (chunks ++ [Entry.mk title chunk])
      end
  end.

Definition get_chunks_from_hits (hits : list Hit.t) (max_tokens : Z)
    : result (list Entry.t) :=
  ids ←r ranked_ids hits;
  assemble max_tokens ids 0 [].

End get_chunks.

(** ** [src/prep/build_semantic_index.py] *)

(** [str.split()] without arguments cuts at runs of white space and drops empty
    pieces. Of the characters of the model, the code points below 256, Python
    counts these as white space: tab, line feed, vertical tab, form feed,
    carriage return, the four separators 28-31, the blank, next line (133) and
    the no-break space (160). *)
Definition py_isspace (c : ascii) : bool :=
  match c with
  | "009" | "010" | "011" | "012" | "013"
  | "028" | "029" | "030" | "031" | " "
  | "133" | "160" => true
  | _ => false
  end%char.

Fixpoint py_split_go (cur : option string) (s : string) : list string :=
  match s with
  | "" => option_list (String.rev <$> cur)
  | String a s' =>
      if py_isspace a
      then option_list (String.rev <$> cur) ++ py_split_go None s'
      else py_split_go (Some (String a (default "" cur))) s'
  end.

Definition py_split (s : string) : list string := py_split_go None s.

(** ["passage: " + " ".join(doc["chunk"].split())] *)
Definition processed_chunk (doc : Doc.t) : string :=
  "passage: " +:+ String.concat " " (py_split (Doc.chunk doc)).

(** [build_embedding_index]: the loop over [vault.items()] with the mapping
    under construction and the next row number. *)
Fixpoint build_embedding_index_go (items : dict string Doc.t)
    (embedding_index : dict nat string) (embedding_idx : nat) : dict nat string :=
  match items with
  | [] => embedding_index
  | (chunk_id, doc) :: items' =>
      if decide (Doc.type doc = "doc")
      then build_embedding_index_go items' embedding_index embedding_idx
      else build_embedding_index_go items'
             (dict_set embedding_index embedding_idx chunk_id) (S embedding_idx)
  end.

Definition build_embedding_index (vault : dict string Doc.t) : dict nat string :=
  build_embedding_index_go vault [] 0.

(** Python slicing [l[start:]] for an arbitrary integer [start]. *)
Definition py_slice_from {A} (start : Z) (l : list A) : list A :=
  let len := Z.of_nat (length l) in
  let start := if decide (start < 0)%Z then Z.max (start + len) 0 else Z.min start len in
  drop (Z.to_nat start) l.

(** [np.argsort]: the positions of the array in ascending order of their
    values. A similarity is modelled by the rational number the float stands
    for. The default sort of numpy is not a stable one on long arrays, so the
    order of positions of equal value is left open by the code; with the
    stable sort of the model they come in array order. *)
Definition sim_le (p1 p2 : nat * Qc) : Prop := (p1.2 ≤ p2.2)%Qc.

Global Instance sim_le_dec : RelDecision sim_le.
Proof. intros p1 p2. unfold sim_le. apply _. Defined.
Global Instance sim_le_trans : Transitive sim_le.
Proof. intros x y z. unfold sim_le. apply Qcle_trans. Qed.
Global Instance sim_le_total : Total sim_le.
Proof. intros x y. unfold sim_le. apply (total Qcle). Qed.

Definition argsort (a : list Qc) : list nat :=
  (stable_sort sim_le (zip (seq 0 (length a)) a)).*1.

Section semantic_index.
(** A row of the embedding array, i.e. one embedding vector. *)
Variable vec : Type.
(** [get_batch_embeddings(., tokenizer, model)] for the loaded model. *)
Variable get_batch_embeddings : list string → list vec.
(** The product of one row of the array with the query embedding, as
    [np.dot(doc_embeddings_array, query_embedding.T)] computes it. *)
Variable dot : vec → vec → Qc.

(** The loop of [build_embedding_array] (lines 103-128); [docs_embedded] only
    feeds the log and is left out. *)
Fixpoint embed_loop (batch_size : Z) (items : dict string Doc.t)
    (chunk_batch : list string) (chunks_batched : Z)
    (embedding_list : list (list vec))
    : result (list string * Z * list (list vec)) :=
  match items with
  | [] => Ok (chunk_batch, chunks_batched, embedding_list)
  | (chunk_id, doc) :: items' =>
      if decide (Doc.type doc = "doc")
      then embed_loop batch_size items' chunk_batch chunks_batched embedding_list
      else
        let chunk_batch := chunk_batch ++ [processed_chunk doc] in
        let chunks_batched := (chunks_batched + 1)%Z in
        if decide (batch_size = 0)%Z then Raise ZeroDivisionError
        else if decide (chunks_batched `mod` batch_size = 0)%Z
        then
          let chunk_embeddings := get_batch_embeddings chunk_batch in
          embed_loop batch_size items' [] 0 (embedding_list ++ [chunk_embeddings])
        else embed_loop batch_size items' chunk_batch chunks_batched embedding_list
  end.

(** [np.concatenate] refuses an empty list of arrays; on the arrays of equal
    row width that the embedder returns, the final [np.reshape] changes
    nothing. *)
Definition np_concatenate (embedding_list : list (list vec)) : result (list vec) :=
  match embedding_list with
  | [] => Raise (ValueError "need at least one array to concatenate")
  | _ => Ok (concat embedding_list)
  end.

Definition build_embedding_array (vault : dict string Doc.t) (batch_size : Z)
    : result (list vec) :=
  st ←r embed_loop batch_size vault [] 0 [];
  let '(chunk_batch, chunks_batched, embedding_list) := st in
  let embedding_list :=
    if decide (chunks_batched > 0)%Z
    then embedding_list ++ [get_batch_embeddings chunk_batch]
    else embedding_list in
  np_concatenate embedding_list.

(** [query_semantic] from line 157 on: the query embedding is the normalized
    output of the model for the query text. *)
Definition query_semantic (query_embedding : vec) (doc_embeddings_array : list vec)
    (n_results : Z) : list nat :=
  let cos_sims := (λ row, dot row query_embedding) <$> doc_embeddings_array in
  let top_indices := reverse (py_slice_from (- n_results) (argsort cos_sims)) in
  top_indices.
End semantic_index.

(** The batches handed to the embedder, one per call, in call order: the loop
    of [build_embedding_array] run with an embedder that returns its input. *)
Definition embedded_batches (vault : dict string Doc.t) (batch_size : Z)
    : result (list (list string)) :=
  st ←r embed_loop string (λ batch, batch) batch_size vault [] 0 [];
  let '(chunk_batch, chunks_batched, embedding_list) := st in
  Ok (if decide (chunks_batched > 0)%Z
      then embedding_list ++ [chunk_batch] else embedding_list).

(** ** [src/prep/build_vault_dict.py] *)

(** The line feed that ends the lines [readlines] returns. *)
Definition LF : string := String "010"%char "".

(** [s.startswith(p)], [s.endswith(p)] and [sub in s]. *)
Definition startswith (s p : string) : bool := String.prefix p s.

Fixpoint endswith (s p : string) : bool :=
  if decide (s = p) then true
  else match s with
       | "" => false
       | String _ s' => endswith s' p
       end.

Fixpoint str_contains (sub s : string) : bool :=
  String.prefix sub s ||
  match s with
  | "" => false
  | String _ s' => str_contains sub s'
  end.

(** Truth value of a Python object used as a condition. *)
Definition truthy_str (s : string) : bool := negb (bool_decide (s = "")).

(** What a path below [vault_path] names: a file, with the list of lines that
    [readlines] yields, or a directory. *)
Inductive node : Type :=
  | File (lines : list string)
  | Directory.

(** The entries below [vault_path], files and directories, each with its path
    relative to [vault_path], in the order of the directory walk. Every file
    is taken to be readable; [get_file_paths] and [create_vault_dict] decode
    its bytes differently, which leaves the line breaks where they are. *)
Abbreviation filesystem := (dict string node).

(** [open(path)] followed by [readlines()]: a path that names nothing and a
    path that names a directory make [open] fail. The path is looked up as it
    is written. *)
Definition readlines (vault_path : filesystem) (filename : string)
    : result (list string) :=
  match dict_get vault_path filename with
  | None => Raise (FileNotFoundError filename)
  | Some Directory => Raise (IsADirectoryError filename)
  | Some (File lines) => Ok lines
  end.

(** [get_file_paths]: [rglob("*.md")] yields every entry, file or directory,
    whose name ends in [.md]; each of them that is not hidden is opened. *)
Fixpoint get_file_paths_go (files : filesystem) (min_lines : Z)
    (paths : list string) : result (list string) :=
  match files with
  | [] => Ok paths
  | (filename, entry) :: files' =>
      if negb (endswith filename ".md") then get_file_paths_go files' min_lines paths
      else if startswith filename "." then get_file_paths_go files' min_lines paths
      else
        match entry with
        | Directory => Raise (IsADirectoryError filename)
        | File lines =>
            if decide (Z.of_nat (length lines) > min_lines)%Z
            then get_file_paths_go files' min_lines (paths ++ [filename])
            else get_file_paths_go files' min_lines paths
        end
  end.

Definition get_file_paths (vault_path : filesystem) (min_lines : Z)
    : result (list string) :=
  get_file_paths_go vault_path min_lines [].

(** The state of the loop of [chunk_doc_to_dict]. *)
Module Chunker.
Record t : Type := mk {
  chunks : dict nat (list string);
  current_chunk : list string;
  chunk_idx : nat;
  current_header : option string
}.
End Chunker.

(** One turn of the loop (lines 63-85). *)
Definition chunk_step (min_chunk_lines : Z) (st : Chunker.t) (line : string)
    : Chunker.t :=
  let '(Chunker.mk chunks current_chunk chunk_idx current_header) := st in
  if startswith line LF then st
  else if startswith line "- tag" then st
  else if startswith line "- source" then st
  else if str_contains "![](assets" line then st
  else
    let current_header :=
      if startswith line "#" then Some line else current_header in
    if startswith line "- " then
      match current_chunk with
      | [] => Chunker.mk chunks (current_chunk ++ [line]) chunk_idx current_header
      | _ :: _ =>
          let '(chunks, chunk_idx) :=
            if decide (Z.of_nat (length current_chunk) >= min_chunk_lines)%Z
            then (dict_set chunks chunk_idx current_chunk, S chunk_idx)
            else (chunks, chunk_idx) in
          let current_chunk := [] in
          let current_chunk :=
            match current_header with
            | Some h => if truthy_str h then current_chunk ++ [h] else current_chunk
            | None => current_chunk
            end in
          Chunker.mk chunks (current_chunk ++ [line]) chunk_idx current_header
      end
    else Chunker.mk chunks (current_chunk ++ [line]) chunk_idx current_header.

(** The check after the loop (lines 87-90). *)
Definition chunk_last (min_chunk_lines : Z) (st : Chunker.t) : dict nat (list string) :=
  let '(Chunker.mk chunks current_chunk chunk_idx _) := st in
  match current_chunk with
  | [] => chunks
  | _ :: _ =>
      if decide (Z.of_nat (length current_chunk) > min_chunk_lines)%Z
      then dict_set chunks chunk_idx current_chunk
      else chunks
  end.

Definition chunk_doc_to_dict (lines : list string) (min_chunk_lines : Z)
    : dict nat (list string) :=
  chunk_last min_chunk_lines
    (foldl (chunk_step min_chunk_lines) (Chunker.mk [] [] 0 None) lines).

(** [''.join(l)] *)
Definition str_join (l : list string) : string := String.concat "" l.

(** [f'{filename}-{chunk_id}'] *)
Definition chunk_key (filename : string) (chunk_id : nat) : string :=
  filename +:+ "-" +:+ pretty chunk_id.

Definition doc_record (filename : string) (lines : list string) : Doc.t :=
  Doc.mk filename "doc" filename (str_join lines).

Definition chunk_record (filename : string) (chunk : list string) : Doc.t :=
  Doc.mk filename "chunk" filename (str_join chunk).

(** The inner loop of [create_vault_dict] over [chunks.items()]. *)
Fixpoint add_chunks (vault : dict string Doc.t) (filename : string)
    (items : dict nat (list string)) : dict string Doc.t :=
  match items with
  | [] => vault
  | (chunk_id, chunk) :: items' =>
      add_chunks (dict_set vault (chunk_key filename chunk_id)
                    (chunk_record filename chunk)) filename items'
  end.

(** [create_vault_dict]: a path that cannot be opened ends the loop with the
    error of [open]. *)
Fixpoint create_vault_dict_go (vault_path : filesystem) (paths : list string)
    (vault : dict string Doc.t) : result (dict string Doc.t) :=
  match paths with
  | [] => Ok vault
  | filename :: paths' =>
      match readlines vault_path filename with
      | Raise e => Raise e
      | Ok lines =>
          let chunks := chunk_doc_to_dict lines 3 in
          if decide (0 < length chunks)%nat
          then
            let vault := dict_set vault filename (doc_record filename lines) in
            create_vault_dict_go vault_path paths' (add_chunks vault filename chunks)
          else create_vault_dict_go vault_path paths' vault
      end
  end.

Definition create_vault_dict (vault_path : filesystem) (paths : list string)
    : result (dict string Doc.t) :=
  create_vault_dict_go vault_path paths [].

(** ** Notions used to state the properties *)

(** *** Rank fusion *)

(** The sum, over all hits bearing the id, of [10 - rank]. *)
Definition combined_score (hits : list Hit.t) (cid : string) : Z :=
  foldr Z.add 0%Z
    ((λ h, score_of_rank (Hit.rank h)) <$> filter (λ h, Hit.id h = cid) hits).

(** The scores of the rows of a frame that carry the key, in frame order. *)
Definition scores_for (k : string) (df : frame) : list Z :=
  snd <$> filter (λ row, row.1 = k) df.

(** The sum of a list of 64-bit integers, added one after the other with
    wrap-around. *)
Definition int64_sum (l : list Z) : Z :=
  match l with
  | [] => 0%Z
  | v :: l' => foldl int64_add v l'
  end.

(** The score the ranked frame holds for an id: the 64-bit sum, over the hits
    bearing the id, of [10 - rank]. *)
Definition frame_score (hits : list Hit.t) (cid : string) : Z :=
  int64_sum ((λ h, score_of_rank (Hit.rank h)) <$> filter (λ h, Hit.id h = cid) hits).

(** The ranks and the scores of the hits fit in 64 bits. *)
Definition int64_hits (hits : list Hit.t) : Prop :=
  Forall (λ h, int64_range (Hit.rank h) ∧ int64_range (score_of_rank (Hit.rank h)))
    hits.

(** The frame of the hits, [id] and [score] columns. *)
Definition scored (hits : list Hit.t) : frame :=
  (λ h, (Hit.id h, score_of_rank (Hit.rank h))) <$> hits.


(** [x] occurs before [y] in [l]. *)
Definition precedes {A} (x y : A) (l : list A) : Prop :=
  ∃ l1 l2 l3, l = l1 ++ x :: l2 ++ y :: l3.

(** *** Token budget *)

Section budget.
Variable num_tokens_from_string : string → nat.
Variable vault : dict string Doc.t.

(** The context entry of a chunk id that the vault knows. *)
Definition context_entry (cid : string) : option Entry.t :=
  doc ← dict_get vault cid; Some (Entry.mk (Doc.title doc) (Doc.chunk doc)).

(** The number of tokens of the text stored under a chunk id. *)
Definition chunk_tokens (cid : string) : Z :=
  match dict_get vault cid with
  | Some doc => Z.of_nat (num_tokens_from_string (Doc.chunk doc))
  | None => 0%Z
  end.

(** The cumulative token count of a list of chunk ids. *)
Definition cumulative_tokens (ids : list string) : Z :=
  foldr Z.add 0%Z (chunk_tokens <$> ids).

(** Starting from the total [t], the running total stays within the budget
    after each chunk of [l]. *)
Fixpoint run_within (max_tokens : Z) (t : Z) (l : list string) : Prop :=
  match l with
  | [] => True
  | cid :: l' =>
      (t + chunk_tokens cid ≤ max_tokens)%Z ∧
      run_within max_tokens (t + chunk_tokens cid) l'
  end.
End budget.


(** The loop gets as far as the id [x] of the candidates: the ids ranked before
    [x] are all in the vault and their cumulative token count is within the
    budget. *)
Definition reached (num_tokens_from_string : string → nat)
    (vault : dict string Doc.t) (max_tokens : Z) (cands : list string)
    (x : string) : Prop :=
  ∃ l1 l2, cands = l1 ++ x :: l2 ∧
    Forall (λ cid, is_Some (dict_get vault cid)) l1 ∧
    (l1 = [] ∨ (cumulative_tokens num_tokens_from_string vault l1 ≤ max_tokens)%Z).

(** *** Semantic index *)

(** The entries of the vault that get embedded, in the order [vault.items()]
    yields them: all but those of type ["doc"]. *)
Definition embedded_items (vault : dict string Doc.t) : dict string Doc.t :=
  filter (λ item, Doc.type item.2 ≠ "doc") vault.

(** The texts handed to the embedder, in the order of the vault. *)
Definition embedded_texts (vault : dict string Doc.t) : list string :=
  processed_chunk <$> (embedded_items vault).*2.

(** The row indices [res] are ordered best first: a row listed earlier is at
    least as similar to the query as a row listed later. *)
Definition best_first {vec : Type} (dot : vec → vec → Qc) (query_embedding : vec)
    (doc_embeddings_array : list vec) (res : list nat) : Prop :=
  ∀ a b i j : nat, (a < b)%nat → res !! a = Some i → res !! b = Some j →
    ∃ ri rj, doc_embeddings_array !! i = Some ri ∧
             doc_embeddings_array !! j = Some rj ∧
             (dot rj query_embedding ≤ dot ri query_embedding)%Qc.

(** The array [arr] and the mapping built from [vault] are in lockstep, given
    the batches [calls] the embedder was called on: the array is the
    concatenation of the embedder's outputs, it has as many rows as the
    mapping has entries, and row [i] is the row the embedder returned for the
    text of the chunk whose id the mapping stores at key [i] (that text is
    number [o] of some batch, and the row is number [o] of the output for
    that batch). *)
Definition rows_in_lockstep {vec : Type}
    (get_batch_embeddings : list string → list vec) (vault : dict string Doc.t)
    (arr : list vec) (calls : list (list string)) : Prop :=
  length arr = length (build_embedding_index vault) ∧
  arr = concat (get_batch_embeddings <$> calls) ∧
  ∀ i : nat, (i < length arr)%nat →
    ∃ cid doc (j o : nat) batch,
      dict_get (build_embedding_index vault) i = Some cid ∧
      dict_get vault cid = Some doc ∧
      Doc.type doc ≠ "doc" ∧
      calls !! j = Some batch ∧
      batch !! o = Some (processed_chunk doc) ∧
      is_Some (arr !! i) ∧
      arr !! i = get_batch_embeddings batch !! o.

(** *** Vault dictionary *)

(** The lines the loop of [chunk_doc_to_dict] passes over: empty lines, tags,
    sources and images. *)
Definition skipped (line : string) : bool :=
  startswith line LF || startswith line "- tag" || startswith line "- source" ||
  str_contains "![](assets" line.

(** The last character of a string. *)
Fixpoint last_char (s : string) : option ascii :=
  match s with
  | "" => None
  | String c "" => Some c
  | String _ s' => last_char s'
  end.

(** Decimal digits and strings made of them. *)
Definition is_digit (c : ascii) : Prop := ∃ x : N, c = pretty_N_char x.

Fixpoint all_digits (s : string) : Prop :=
  match s with
  | "" => True
  | String c s' => is_digit c ∧ all_digits s'
  end.

(** The assignments [vault[key] = record] that [create_vault_dict] makes for
    one path, in order. *)
Definition records_of (vault_path : filesystem) (filename : string)
    : list (string * Doc.t) :=
  match readlines vault_path filename with
  | Raise _ => []
  | Ok lines =>
      let chunks := chunk_doc_to_dict lines 3 in
      if decide (0 < length chunks)%nat
      then (filename, doc_record filename lines) ::
           ((λ item, (chunk_key filename item.1, chunk_record filename item.2))
              <$> chunks)
      else []
  end.

(** A run of assignments to a dictionary. *)
Definition assign_all (vault : dict string Doc.t) (kvs : list (string * Doc.t))
    : dict string Doc.t :=
  foldl (λ v kv, dict_set v kv.1 kv.2) vault kvs.

(** What [vault] holds for the document [filename] with content [lines].
    When the document has a chunk: exactly one record of type ["doc"] carries
    its path, the whole-document record stored under the path itself, and
    every chunk has its record stored under the path followed by the chunk
    number. When it has none: no record carries its path. In both cases a
    record of that path is the whole-document record or a chunk record. *)
Definition document_records (vault : dict string Doc.t) (filename : string)
    (lines : list string) : Prop :=
  NoDup vault.*1 ∧
  (∀ key d, (key, d) ∈ vault → Doc.path d = filename →
     (key = filename ∧ d = doc_record filename lines ∧
      chunk_doc_to_dict lines 3 ≠ []) ∨
     (∃ k c, (k, c) ∈ chunk_doc_to_dict lines 3 ∧
             key = chunk_key filename k ∧ d = chunk_record filename c)) ∧
  (chunk_doc_to_dict lines 3 ≠ [] →
     filter (λ item, Doc.type item.2 = "doc" ∧ Doc.path item.2 = filename) vault
       = [(filename, doc_record filename lines)] ∧
     dict_get vault filename = Some (doc_record filename lines) ∧
     ∀ k c, dict_get (chunk_doc_to_dict lines 3) k = Some c →
       dict_get vault (chunk_key filename k) = Some (chunk_record filename c)) ∧
  (chunk_doc_to_dict lines 3 = [] →
     filter (λ item, Doc.path item.2 = filename) vault = []).

(** ** Sample data *)

(** A tokenizer that makes one token of every character. *)
Definition char_tokens (s : string) : nat := String.length s.

(** The scenario of the specification, with chunks of 5, 5 and 50 tokens and a
    budget of 10 tokens. *)
Definition scenario_vault : dict string Doc.t :=
  [("A", Doc.mk "a.md" "chunk" "a.md" "aaaaa");
   ("B", Doc.mk "b.md" "chunk" "b.md" "bbbbb");
   ("C", Doc.mk "c.md" "chunk" "c.md"
      "cccccccccccccccccccccccccccccccccccccccccccccccccc")].

Definition scenario_hits : list Hit.t :=
  [Hit.mk "A" 0; Hit.mk "C" 1; Hit.mk "B" 0; Hit.mk "A" 1].

(** Hits one of which names an id the vault does not have. *)
Definition dangling_hits : list Hit.t :=
  [Hit.mk "A" 0; Hit.mk "C" 1; Hit.mk "X" 2].

(** A chunk found at rank 0 by one source and at rank 2 by the other. *)
Definition two_source_hits : list Hit.t :=
  [Hit.mk "X" 0; Hit.mk "Y" 1; Hit.mk "Z" 0; Hit.mk "W" 1; Hit.mk "X" 2].

(** Three hits of rank [2^62] for one id, and a hit of rank 0 for another. *)
Definition far_hits : list Hit.t :=
  [Hit.mk "A" (2 ^ 62); Hit.mk "A" (2 ^ 62); Hit.mk "A" (2 ^ 62); Hit.mk "B" 0].

(** An embedding array with three rows of width one, and a query. *)
Definition sample_array : list Qc := [Qc_of_Z 1; Qc_of_Z 3; Qc_of_Z 2].
Definition sample_query : Qc := Qc_of_Z 1.

(** An embedder for the samples: the row of a text is its length. *)
Definition sample_embedder (batch : list string) : list nat :=
  String.length <$> batch.

(** A vault with one document and its five chunks. *)
Definition sample_vault : dict string Doc.t :=
  [("n.md", Doc.mk "n.md" "doc" "n.md" "one two  three four five six");
   ("n.md-0", Doc.mk "n.md" "chunk" "n.md" "one");
   ("n.md-1", Doc.mk "n.md" "chunk" "n.md" "two  three");
   ("n.md-2", Doc.mk "n.md" "chunk" "n.md" "four");
   ("n.md-3", Doc.mk "n.md" "chunk" "n.md" "five");
   ("n.md-4", Doc.mk "n.md" "chunk" "n.md" "six")].

(** Three plain lines, a document of six bullets and one with two sections. *)
Definition three_lines : list string :=
  ["alpha" +:+ LF; "beta" +:+ LF; "gamma" +:+ LF].

Definition bullets_only : list string :=
  ["- one" +:+ LF; "- two" +:+ LF; "- three" +:+ LF;
   "- four" +:+ LF; "- five" +:+ LF; "- six" +:+ LF].

Definition two_sections : list string :=
  ["# Notes" +:+ LF; "first" +:+ LF; "second" +:+ LF;
   "- item" +:+ LF; "  more" +:+ LF; "  even more" +:+ LF].

Definition sample_files : filesystem :=
  [("bullets.md", File bullets_only); ("notes.md", File two_sections);
   (".trash/old.md", File two_sections); ("todo.txt", File two_sections)].

(** A vault with a directory whose name ends in [.md]. *)
Definition files_with_md_directory : filesystem :=
  [("notes.md", File two_sections); ("archive.md", Directory);
   ("archive.md/old.md", File two_sections)].

(** ** Definitions for the rest of the code *)

(** *** [src/app.py]: the route [get_chunks] *)

Section get_chunks_route.
Variable num_tokens_from_string : string → nat.
Variable vault : dict string Doc.t.
Variable vec : Type.
Variable dot : vec → vec → Qc.

(** The list [os_hits + semantic_hits] of lines 147-157. The answer of
    opensearch is given by the ids of its hits, the query by its embedding;
    [query_semantic] is called with its default of 10 results. *)
Definition fusion_input (os_response_hits : list string) (query_embedding : vec)
    (doc_embeddings_array : list vec) (embedding_index : dict nat string)
    : result (list Hit.t) :=
  let os_hits := parse_os_response os_response_hits in
  let semantic_response :=
    query_semantic vec dot query_embedding doc_embeddings_array 10 in
  semantic_hits ←r parse_semantic_response semantic_response embedding_index;
  Ok (os_hits ++ semantic_hits).

(** [get_chunks]: the context for the fused hits, with the default budget of
    3200 tokens. *)
Definition get_chunks (os_response_hits : list string) (query_embedding : vec)
    (doc_embeddings_array : list vec) (embedding_index : dict nat string)
    : result (list Entry.t) :=
  hits ←r fusion_input os_response_hits query_embedding doc_embeddings_array
            embedding_index;
  get_chunks_from_hits num_tokens_from_string vault hits 3200.
End get_chunks_route.

(** *** [src/prep/build_opensearch_index.py]: [index_vault] *)

(** A document handed to [bulk]. *)
Module OsDoc.
Record t : Type := mk {
  _index : string;
  _id : string;
  title : string;
  type : string;
  path : string;
  chunk_header : string;
  chunk : string
}.
End OsDoc.

(** [chunk[0]]: the first character (code point) of a text, as a string; an
    empty text has none ([IndexError]). *)
Definition first_char (s : string) : option string :=
  match s with
  | "" => None
  | String c _ => Some (String c "")
  end.

(** How a call of [index_vault] ends. *)
Inductive completion : Type :=
  | Returned
  | IndexError (chunk_id : string).

(** The loop of [index_vault] (lines 105-132): [docs] is the list under
    construction, [sent] the arguments of the calls of [bulk] made so far;
    [docs_indexed] only feeds the log and is left out. *)
Fixpoint index_vault_go (index_name : string) (items : dict string Doc.t)
    (chunks_indexed : Z) (docs : list OsDoc.t) (sent : list (list OsDoc.t))
    : Z * list OsDoc.t * list (list OsDoc.t) * completion :=
  match items with
  | [] => (chunks_indexed, docs, sent, Returned)
  | (chunk_id, doc) :: items' =>
      let path := Doc.path doc in
      let title := Doc.title doc in
      let doc_type := Doc.type doc in
      let chunk := Doc.chunk doc in
      match first_char chunk with
      | None => (chunks_indexed, docs, sent, IndexError chunk_id)
      | Some chunk_header =>
          let docs :=
            docs ++ [OsDoc.mk index_name chunk_id title doc_type path
                       chunk_header chunk] in
          let chunks_indexed := (chunks_indexed + 1)%Z in
          if decide (chunks_indexed `mod` 2000 = 0)%Z
          then index_vault_go index_name items' chunks_indexed [] (sent ++ [docs])
          else index_vault_go index_name items' chunks_indexed docs sent
      end
  end.

(** [index_vault]: the calls of [bulk] it makes, in order, and how it ends. *)
Definition index_vault (vault : dict string Doc.t) (index_name : string)
    : list (list OsDoc.t) * completion :=
  let '(chunks_indexed, docs, sent, outcome) :=
    index_vault_go index_name vault 0 [] [] in
  match outcome with
  | IndexError chunk_id => (sent, IndexError chunk_id)
  | Returned =>
      if decide (chunks_indexed `mod` 200 > 0)%Z
      then (sent ++ [docs], Returned)
      else (sent, Returned)
  end.

(** The document [index_vault] makes of a vault entry. *)
Definition os_doc (index_name : string) (item : string * Doc.t) : option OsDoc.t :=
  chunk_header ← first_char (Doc.chunk item.2);
  Some (OsDoc.mk index_name item.1 (Doc.title item.2) (Doc.type item.2)
          (Doc.path item.2) chunk_header (Doc.chunk item.2)).

(** *** Notions for the further properties *)

(** The number of tokens of the texts of a context. *)
Definition output_tokens (num_tokens_from_string : string → nat)
    (out : list Entry.t) : Z :=
  foldr Z.add 0%Z ((λ e, Z.of_nat (num_tokens_from_string (Entry.chunk e))) <$> out).

(** The number of top-level bullets among some lines. *)
Definition bullets (chunk : list string) : nat :=
  length (filter (λ line, startswith line "- " = true) chunk).

(** The entries [get_file_paths] opens, those whose name ends in [.md] and
    whose path does not start with a dot; the ones it lists, the files among
    them with more than [min_lines] lines; and the ones it fails on, the
    directories among them. *)
Definition opened (file : string * node) : bool :=
  endswith file.1 ".md" && negb (startswith file.1 ".").

Definition listed (min_lines : Z) (file : string * node) : bool :=
  opened file &&
  match file.2 with
  | File lines => bool_decide (Z.of_nat (length lines) > min_lines)%Z
  | Directory => false
  end.

Definition opened_directory (file : string * node) : bool :=
  opened file &&
  match file.2 with
  | File _ => false
  | Directory => true
  end.

(** The lines a chunk starts with when a top-level bullet opens it: the
    current section header, if there is one. *)
Definition restart (current_header : option string) : list string :=
  match current_header with
  | Some h => if truthy_str h then [h] else []
  | None => []
  end.

(** The section header after a line has been read. *)
Definition header_after (current_header : option string) (line : string)
    : option string :=
  if startswith line "#" then Some line else current_header.

(** What the chunking loop maintains: the stored chunks are numbered from 0
    up to the running index, each has the property [Q], and the chunk being
    accumulated and the header have the property [C]. *)
Definition chunker_inv (C : list string → option string → Prop)
    (Q : list string → Prop) (st : Chunker.t) : Prop :=
  (Chunker.chunks st).*1 = seq 0 (Chunker.chunk_idx st) ∧
  Forall Q (Chunker.chunks st).*2 ∧
  C (Chunker.current_chunk st) (Chunker.current_header st).

(** *** Further sample data *)

(** Opensearch hits for the samples. *)
Definition sample_os_hits : list string := ["n.md-1"; "n.md-3"].

(** An embedding array with one row of width one per chunk of [sample_vault]. *)
Definition sample_rows : list Qc :=
  [Qc_of_Z 2; Qc_of_Z 5; Qc_of_Z 1; Qc_of_Z 4; Qc_of_Z 3].

(** An embedder of single texts for the samples. *)
Definition sample_embed (text : string) : nat := String.length text.

(** A vault of 200 chunk entries, and a vault with an entry without text. *)
Definition two_hundred_entries : dict string Doc.t :=
  (λ i, (chunk_key "n.md" i, Doc.mk "n.md" "chunk" "n.md" "text")) <$> seq 0 200.

Definition vault_with_empty_text : dict string Doc.t :=
  [("n.md-0", Doc.mk "n.md" "chunk" "n.md" "one");
   ("n.md-1", Doc.mk "n.md" "chunk" "n.md" "");
   ("n.md-2", Doc.mk "n.md" "chunk" "n.md" "three")].

(** * Properties *)

(** ** Python dictionaries *)

Section pydict_facts.
Context {K V : Type} `{EqDecision K}.
Implicit Types (d : dict K V) (k : K) (v : V).

Lemma dict_get_Some_elem_of d k v : dict_get d k = Some v → (k, v) ∈ d.
Proof.
  induction d as [|[k' v'] d IH]; simpl; [done|].
  case_decide; intros; simplify_eq; [left|right; auto].
Qed.

Lemma dict_get_None d k : dict_get d k = None ↔ k ∉ d.*1.
Proof.
  induction d as [|[k' v'] d IH]; simpl.
  - split; [intros _; apply not_elem_of_nil|done].
  - rewrite not_elem_of_cons. case_decide; [|by rewrite IH; intuition].
    split; [done|]. intros [? _]. done.
Qed.

Lemma dict_get_is_Some d k : is_Some (dict_get d k) ↔ k ∈ d.*1.
Proof.
  rewrite <-not_eq_None_Some, dict_get_None.
  destruct (decide (k ∈ d.*1)); naive_solver.
Qed.

Lemma elem_of_dict_get d k v : NoDup d.*1 → (k, v) ∈ d → dict_get d k = Some v.
Proof.
  induction d as [|[k' v'] d IH]; simpl; [by intros _ ?%elem_of_nil|].
  intros [Hk' Hd]%NoDup_cons [?|Hin]%elem_of_cons; simplify_eq.
  - by rewrite decide_True.
  - rewrite decide_False; [auto|]. intros ->. apply Hk'.
    by apply (list_elem_of_fmap_2 fst) in Hin.
Qed.

Lemma dict_set_keys d k v :
  (dict_set d k v).*1 = if decide (k ∈ d.*1) then d.*1 else d.*1 ++ [k].
Proof.
  induction d as [|[k' v'] d IH].
  - destruct (decide (k ∈ ([] : dict K V).*1)) as [Hin|_]; [|done].
    by apply elem_of_nil in Hin.
  - cbn [dict_set]. destruct (decide (k = k')) as [->|Hne].
    + destruct (decide (k' ∈ ((k', v') :: d).*1)) as [_|Hnin]; [done|].
      destruct Hnin. left.
    + rewrite !fmap_cons, IH. cbn [fst].
      destruct (decide (k ∈ d.*1)) as [Hin|Hnin];
        destruct (decide (k ∈ k' :: d.*1)) as [Hin'|Hnin']; try done.
      * destruct Hnin'. by right.
      * apply elem_of_cons in Hin' as [?|?]; done.
Qed.

Lemma dict_get_set d k v k' :
  dict_get (dict_set d k v) k' = if decide (k' = k) then Some v else dict_get d k'.
Proof.
  induction d as [|[k0 v0] d IH]; simpl.
  - done.
  - destruct (decide (k = k0)) as [->|Hne]; simpl.
    + repeat case_decide; by simplify_eq.
    + rewrite IH. repeat case_decide; by simplify_eq.
Qed.

Lemma dict_set_NoDup d k v : NoDup d.*1 → NoDup (dict_set d k v).*1.
Proof.
  intros Hd. rewrite dict_set_keys. case_decide; [done|].
  apply NoDup_app. split_and!; [done| |apply NoDup_singleton].
  intros x Hx ->%list_elem_of_singleton. done.
Qed.

Lemma dict_set_fresh d k v :
  k ∉ d.*1 → dict_set d k v = d ++ [(k, v)].
Proof.
  induction d as [|[k0 v0] d IH]; simpl; [done|].
  rewrite not_elem_of_cons. intros [Hne Hd].
  rewrite decide_False by done. by rewrite IH.
Qed.
End pydict_facts.

(** ** Rank fusion: grouping and ordering *)

(** *** 64-bit sums *)

Lemma int64_in_range z : int64_range (int64 z).
Proof.
  unfold int64_range, int64.
  pose proof (Z.mod_pos_bound (z + 2 ^ 63) (2 ^ 64)). lia.
Qed.

Lemma int64_small z : int64_range z → int64 z = z.
Proof.
  unfold int64_range, int64. intros Hz. rewrite Z.mod_small; lia.
Qed.

Lemma int64_add_idem a b : int64 (int64 a + b) = int64 (a + b).
Proof.
  unfold int64.
  replace ((a + 2 ^ 63) `mod` 2 ^ 64 - 2 ^ 63 + b + 2 ^ 63)%Z
    with ((a + 2 ^ 63) `mod` 2 ^ 64 + b)%Z by lia.
  rewrite Zplus_mod_idemp_l. do 2 f_equal. lia.
Qed.

Lemma foldl_int64_add s l :
  l ≠ [] → foldl int64_add s l = int64 (s + foldr Z.add 0%Z l).
Proof.
  revert s. induction l as [|v l IH]; intros s Hne; [done|]. simpl.
  destruct l as [|w l].
  - simpl. unfold int64_add. f_equal. lia.
  - rewrite IH by done. unfold int64_add. rewrite int64_add_idem. f_equal.
    simpl. lia.
Qed.

(** The 64-bit sum of a single number is that number; of several numbers it
    is their sum reduced to 64 bits. *)
Lemma int64_sum_several l :
  length l ≠ 1%nat → int64_sum l = int64 (foldr Z.add 0%Z l).
Proof.
  destruct l as [|v [|w l]]; intros Hlen; [done|done|].
  unfold int64_sum. by rewrite foldl_int64_add.
Qed.

Lemma int64_sum_wrap l :
  Forall int64_range l → int64_sum l = int64 (foldr Z.add 0%Z l).
Proof.
  intros Hl. destruct (decide (length l = 1%nat)) as [Hlen|Hlen];
    [|by apply int64_sum_several].
  destruct l as [|v [|w l]]; try done. simpl.
  apply Forall_cons in Hl as [Hv _]. rewrite Z.add_0_r. by rewrite int64_small.
Qed.

Lemma foldr_add_Permutation (l1 l2 : list Z) :
  l1 ≡ₚ l2 → foldr Z.add 0%Z l1 = foldr Z.add 0%Z l2.
Proof. induction 1; simpl; lia. Qed.

Lemma int64_sum_Permutation l1 l2 : l1 ≡ₚ l2 → int64_sum l1 = int64_sum l2.
Proof.
  intros Hperm. destruct (decide (length l1 = 1%nat)) as [Hlen|Hlen].
  - destruct l1 as [|v [|w l1]]; try done.
    by apply Permutation_singleton_l in Hperm as ->.
  - rewrite !int64_sum_several by (by rewrite <-?Hperm).
    by rewrite (foldr_add_Permutation _ _ Hperm).
Qed.

Lemma scores_for_cons k row df :
  scores_for k (row :: df) =
    if decide (row.1 = k) then row.2 :: scores_for k df else scores_for k df.
Proof. unfold scores_for. rewrite filter_cons. by destruct (decide (row.1 = k)). Qed.

Lemma scores_for_nil k df : scores_for k df = [] ↔ k ∉ df.*1.
Proof.
  induction df as [|[k0 v0] df IH]; [by split; [intros _ ?%elem_of_nil|]|].
  rewrite scores_for_cons, fmap_cons, not_elem_of_cons. cbn [fst snd].
  destruct (decide (k0 = k)) as [->|Hne]; [by split; [|intros []]|].
  rewrite IH. split; [by split|by intros []].
Qed.

Lemma group_add_keys groups k v :
  (group_add groups k v).*1 =
    if decide (k ∈ groups.*1) then groups.*1 else groups.*1 ++ [k].
Proof.
  induction groups as [|[k' s] groups IH].
  - destruct (decide (k ∈ ([] : frame).*1)) as [Hin|_]; [|done].
    by apply elem_of_nil in Hin.
  - cbn [group_add]. destruct (decide (k = k')) as [->|Hne].
    + destruct (decide (k' ∈ ((k', s) :: groups).*1)) as [_|Hnin]; [done|].
      destruct Hnin. left.
    + rewrite !fmap_cons, IH. cbn [fst].
      destruct (decide (k ∈ groups.*1)) as [Hin|Hnin];
        destruct (decide (k ∈ k' :: groups.*1)) as [Hin'|Hnin']; try done.
      * destruct Hnin'. by right.
      * apply elem_of_cons in Hin' as [?|?]; done.
Qed.

Lemma group_add_NoDup groups k v :
  NoDup groups.*1 → NoDup (group_add groups k v).*1.
Proof.
  intros Hd. rewrite group_add_keys. case_decide; [done|].
  apply NoDup_app. split_and!; [done| |apply NoDup_singleton].
  intros x Hx ->%list_elem_of_singleton. done.
Qed.

Lemma dict_get_group_add groups k v k' :
  dict_get (group_add groups k v) k' =
    if decide (k' = k)
    then Some (match dict_get groups k with
               | Some s => int64_add s v
               | None => v
               end)
    else dict_get groups k'.
Proof.
  induction groups as [|[k0 s0] groups IH]; simpl.
  - done.
  - destruct (decide (k = k0)) as [->|Hne]; simpl.
    + repeat case_decide; by simplify_eq.
    + rewrite IH. repeat case_decide; by simplify_eq.
Qed.

Lemma group_fold_NoDup df groups :
  NoDup groups.*1 →
  NoDup (foldl (λ groups row, group_add groups row.1 row.2) groups df).*1.
Proof.
  revert groups. induction df as [|row df IH]; intros groups Hg; simpl; [done|].
  by apply IH, group_add_NoDup.
Qed.

Lemma dict_get_group_fold df groups k :
  dict_get (foldl (λ groups row, group_add groups row.1 row.2) groups df) k =
    match dict_get groups k with
    | Some s => Some (foldl int64_add s (scores_for k df))
    | None => match scores_for k df with
              | [] => None
              | v :: l => Some (foldl int64_add v l)
              end
    end.
Proof.
  revert groups. induction df as [|[k0 v0] df IH]; intros groups.
  - cbn [foldl]. by destruct (dict_get groups k).
  - cbn [foldl]. rewrite IH, dict_get_group_add, scores_for_cons. cbn [fst snd].
    destruct (decide (k = k0)) as [->|Hne].
    + rewrite decide_True by done. by destruct (dict_get groups k0).
    + by rewrite !(decide_False (P := k0 = k)) by done.
Qed.

Lemma group_sum_NoDup df : NoDup (group_sum df).*1.
Proof. apply group_fold_NoDup. constructor. Qed.

Lemma dict_get_group_sum df k :
  dict_get (group_sum df) k =
    if decide (k ∈ df.*1) then Some (int64_sum (scores_for k df)) else None.
Proof.
  unfold group_sum. rewrite dict_get_group_fold. simpl.
  destruct (scores_for k df) as [|v l] eqn:Hscores.
  - apply scores_for_nil in Hscores. by rewrite decide_False.
  - rewrite decide_True; [done|].
    destruct (decide (k ∈ df.*1)) as [|Hnin]; [done|].
    apply scores_for_nil in Hnin. congruence.
Qed.

Lemma elem_of_group_sum df k s :
  (k, s) ∈ group_sum df ↔ k ∈ df.*1 ∧ s = int64_sum (scores_for k df).
Proof.
  split.
  - intros Hin. apply elem_of_dict_get in Hin; [|apply group_sum_NoDup].
    rewrite dict_get_group_sum in Hin. case_decide; by simplify_eq.
  - intros [Hk ->]. apply dict_get_Some_elem_of.
    rewrite dict_get_group_sum. by rewrite decide_True.
Qed.

Lemma zip_scored hits :
  zip (Hit.id <$> hits) (score_of_rank <$> (Hit.rank <$> hits)) = scored hits.
Proof. induction hits as [|h hits IH]; [done|]. simpl. f_equal. apply IH. Qed.

Lemma scored_keys hits : (scored hits).*1 = Hit.id <$> hits.
Proof. unfold scored. rewrite <-list_fmap_compose. done. Qed.

Lemma scores_for_scored hits cid :
  scores_for cid (scored hits) =
    (λ h, score_of_rank (Hit.rank h)) <$> filter (λ h, Hit.id h = cid) hits.
Proof.
  unfold scores_for. induction hits as [|h hits IH]; [done|].
  cbn [scored fmap list_fmap]. rewrite !filter_cons. cbn [fst].
  destruct (decide (Hit.id h = cid)); simpl; [f_equal|]; apply IH.
Qed.

(** The score of the frame and the sum of the scores: they agree for an id
    borne by a single hit, and whenever the scores and their sum fit in 64
    bits; in general the score of the frame is the sum reduced to 64 bits. *)
Lemma frame_score_single hits cid h :
  filter (λ h, Hit.id h = cid) hits = [h] →
  frame_score hits cid = combined_score hits cid.
Proof.
  intros Hh. unfold frame_score, combined_score. rewrite Hh. simpl. lia.
Qed.

Lemma frame_score_wrap hits cid :
  int64_hits hits → frame_score hits cid = int64 (combined_score hits cid).
Proof.
  intros Hhits. unfold frame_score, combined_score. apply int64_sum_wrap.
  apply Forall_fmap, Forall_forall. intros h [_ Hh]%list_elem_of_filter. simpl.
  by apply (proj1 (Forall_forall _ _) Hhits).
Qed.

Lemma frame_score_exact hits cid :
  int64_hits hits → int64_range (combined_score hits cid) →
  frame_score hits cid = combined_score hits cid.
Proof. intros Hhits Hsum. by rewrite frame_score_wrap, int64_small. Qed.

Lemma ranked_nonempty hits :
  hits ≠ [] → ranked hits = Ok (sort_values_desc (groupby_sum (scored hits))).
Proof.
  intros Hne. unfold ranked, column_rank.
  destruct hits as [|h hits]; [done|]. simpl bind. by rewrite zip_scored.
Qed.

Lemma ranked_Ok hits r :
  ranked hits = Ok r → hits ≠ [] ∧ r = sort_values_desc (groupby_sum (scored hits)).
Proof.
  destruct hits as [|h hits]; [done|]. intros Hr. split; [done|].
  rewrite ranked_nonempty in Hr by done. by simplify_eq.
Qed.

Section stable_sort_facts.
Context {A : Type} (R : relation A) `{∀ x y, Decision (R x y)}.

Lemma insert_sorted_Permutation x l : insert_sorted R x l ≡ₚ x :: l.
Proof.
  induction l as [|y l IH]; simpl; [done|].
  case_decide; [done|]. rewrite IH. apply perm_swap.
Qed.

Lemma stable_sort_Permutation l : stable_sort R l ≡ₚ l.
Proof.
  induction l as [|x l IH]; simpl; [done|].
  by rewrite insert_sorted_Permutation, IH.
Qed.

Lemma insert_sorted_StronglySorted `{!Transitive R, !Total R} x l :
  StronglySorted R l → StronglySorted R (insert_sorted R x l).
Proof.
  induction 1 as [|y l Hl IH Hy]; simpl; [by repeat constructor|].
  case_decide as Hxy.
  - constructor; [by constructor|]. constructor; [done|].
    eapply Forall_impl; [done|]. intros z Hyz. by etrans.
  - constructor; [done|]. rewrite insert_sorted_Permutation.
    constructor; [|done]. by destruct (total R x y).
Qed.

Lemma StronglySorted_stable_sort `{!Transitive R, !Total R} l :
  StronglySorted R (stable_sort R l).
Proof.
  induction l as [|x l IH]; simpl; [constructor|].
  by apply insert_sorted_StronglySorted.
Qed.
End stable_sort_facts.

Lemma StronglySorted_lookup {A} (R : relation A) l (a b : nat) x y :
  StronglySorted R l → (a < b)%nat → l !! a = Some x → l !! b = Some y → R x y.
Proof.
  intros Hl. revert a b. induction Hl as [|z l Hl IH Hz]; intros a b Hab Ha Hb.
  - done.
  - destruct b as [|b]; [lia|]. destruct a as [|a]; simpl in *.
    + simplify_eq. apply (proj1 (Forall_forall _ _) Hz).
      by eapply list_elem_of_lookup_2.
    + apply (IH a b); [lia|done..].
Qed.

Lemma sort_values_desc_Permutation df : sort_values_desc df ≡ₚ df.
Proof.
  unfold sort_values_desc.
  by rewrite reverse_Permutation, stable_sort_Permutation, reverse_Permutation.
Qed.

Lemma ranked_Permutation hits :
  sort_values_desc (groupby_sum (scored hits)) ≡ₚ group_sum (scored hits).
Proof.
  rewrite sort_values_desc_Permutation. apply stable_sort_Permutation.
Qed.

Lemma StronglySorted_reverse {A} (R : relation A) `{!Transitive R} l :
  StronglySorted R l → StronglySorted (flip R) (reverse l).
Proof.
  intros Hl. apply Sorted_StronglySorted; [by intros x y z ??; etrans|].
  by apply Sorted_reverse, StronglySorted_Sorted.
Qed.

Lemma sort_values_desc_sorted df :
  StronglySorted (flip score_le) (sort_values_desc df).
Proof.
  apply StronglySorted_reverse; [apply _|].
  apply StronglySorted_stable_sort; apply _.
Qed.

Lemma ranked_elem_of hits cid s :
  (cid, s) ∈ sort_values_desc (groupby_sum (scored hits)) ↔
    cid ∈ Hit.id <$> hits ∧ s = frame_score hits cid.
Proof.
  rewrite ranked_Permutation, elem_of_group_sum, scored_keys, scores_for_scored. done.
Qed.

Lemma ranked_keys_NoDup hits :
  NoDup (sort_values_desc (groupby_sum (scored hits))).*1.
Proof.
  rewrite ranked_Permutation. apply group_sum_NoDup.
Qed.

(** ** Context assembly under the token budget *)

Section assemble_facts.
Variable num_tokens_from_string : string → nat.
Variable vault : dict string Doc.t.

Local Abbreviation tokens := (chunk_tokens num_tokens_from_string vault).
Local Abbreviation cumul := (cumulative_tokens num_tokens_from_string vault).
Local Abbreviation entry := (context_entry vault).
Local Abbreviation known := (λ cid, is_Some (dict_get vault cid)).
Local Abbreviation loop := (assemble num_tokens_from_string vault).
Local Abbreviation run_within := (run_within num_tokens_from_string vault).

Lemma tokens_nonneg cid : (0 ≤ tokens cid)%Z.
Proof. unfold chunk_tokens. destruct (dict_get vault cid); lia. Qed.

Lemma cumul_nil : cumul [] = 0%Z.
Proof. done. Qed.

Lemma cumul_cons cid l : cumul (cid :: l) = (tokens cid + cumul l)%Z.
Proof. done. Qed.


Lemma cumul_nonneg l : (0 ≤ cumul l)%Z.
Proof.
  induction l as [|cid l IH]; [by rewrite cumul_nil|].
  rewrite cumul_cons. pose proof (tokens_nonneg cid). lia.
Qed.


Lemma run_within_iff max_tokens t l :
  run_within max_tokens t l ↔ l = [] ∨ (t + cumul l ≤ max_tokens)%Z.
Proof.
  revert t. induction l as [|cid l IH]; intros t; simpl.
  - split; auto.
  - rewrite IH, cumul_cons.
    pose proof (tokens_nonneg cid). pose proof (cumul_nonneg l).
    split.
    + intros [? [->|?]]; right; [rewrite cumul_nil|]; lia.
    + intros [?|?]; [done|]. split; [lia|]. right. lia.
Qed.

Lemma entry_known cid doc :
  dict_get vault cid = Some doc →
  entry cid = Some (Entry.mk (Doc.title doc) (Doc.chunk doc)).
Proof. intros Hdoc. unfold context_entry. by rewrite Hdoc. Qed.

Lemma entries_known l :
  Forall known l → Forall2 (λ cid e, entry cid = Some e) l (omap entry l).
Proof.
  induction 1 as [|cid l [doc Hdoc] _ IH]; simpl; [constructor|].
  rewrite (entry_known _ _ Hdoc). constructor; [|done].
  by apply entry_known.
Qed.

(** Chunks that are known and fit are appended, and the loop goes on with the
    rest of the ids. *)
Lemma assemble_app max_tokens l1 l2 t chunks :
  Forall known l1 → run_within max_tokens t l1 →
  loop max_tokens (l1 ++ l2) t chunks =
    loop max_tokens l2 (t + cumul l1) (chunks ++ omap entry l1).
Proof.
  intros Hknown. revert t chunks.
  induction Hknown as [|cid l1 [doc Hdoc] _ IH]; intros t chunks Hrun; simpl.
  - rewrite cumul_nil, Z.add_0_r, app_nil_r. done.
  - destruct Hrun as [Hfit Hrun]. rewrite Hdoc.
    assert (tokens cid = Z.of_nat (num_tokens_from_string (Doc.chunk doc))) as Htok.
    { unfold chunk_tokens. by rewrite Hdoc. }
    rewrite <-Htok. rewrite decide_False by lia.
    rewrite IH by done. rewrite cumul_cons, (entry_known _ _ Hdoc).
    rewrite <-app_assoc. simpl. f_equal. lia.
Qed.


(** Whenever the loop returns, it returns the entries of a prefix of the ids. *)
Lemma assemble_Ok max_tokens ids t chunks out :
  loop max_tokens ids t chunks = Ok out →
  ∃ k : nat, (k ≤ length ids)%nat ∧ Forall known (take k ids) ∧
    out = chunks ++ omap entry (take k ids).
Proof.
  revert t chunks. induction ids as [|cid ids IH]; intros t chunks; simpl.
  - intros [= <-]. exists 0. by rewrite app_nil_r.
  - destruct (dict_get vault cid) as [doc|] eqn:Hdoc; [|done].
    case_decide.
    + intros [= <-]. exists 0. simpl. rewrite app_nil_r. split_and!; [lia|done..].
    + intros (k & Hk & Hknown & ->)%IH. exists (S k). simpl.
      split_and!; [lia|constructor; eauto|].
      rewrite (entry_known _ _ Hdoc). by rewrite <-app_assoc.
Qed.

(** The loop raises exactly when it reaches an unknown id: the ids before it
    are known and keep the running total within the budget. *)
Lemma assemble_Raise max_tokens ids t chunks e :
  loop max_tokens ids t chunks = Raise e ↔
    ∃ l1 x l2, ids = l1 ++ x :: l2 ∧ e = KeyError x ∧ dict_get vault x = None ∧
      Forall known l1 ∧ run_within max_tokens t l1.
Proof.
  split.
  - revert t chunks. induction ids as [|cid ids IH]; intros t chunks; simpl; [done|].
    destruct (dict_get vault cid) as [doc|] eqn:Hdoc.
    + case_decide as Hover; [done|].
      intros (l1 & x & l2 & -> & -> & Hx & Hknown & Hrun)%IH.
      exists (cid :: l1), x, l2. split_and!; [done..|constructor; eauto|].
      simpl. unfold chunk_tokens at 1 2. rewrite Hdoc. split; [lia|done].
    + intros [= <-]. exists [], cid, ids. by split_and!.
  - intros (l1 & x & l2 & -> & -> & Hx & Hknown & Hrun).
    rewrite assemble_app by done. simpl. by rewrite Hx.
Qed.
End assemble_facts.

(** ** The properties of [get_chunks_from_hits] *)

Lemma ranked_ids_nonempty hits :
  hits ≠ [] →
  ranked_ids hits = Ok (sort_values_desc (groupby_sum (scored hits))).*1.
Proof. intros Hne. unfold ranked_ids. by rewrite ranked_nonempty. Qed.

Lemma ranked_ids_elem_of hits cid :
  cid ∈ (sort_values_desc (groupby_sum (scored hits))).*1 ↔ cid ∈ Hit.id <$> hits.
Proof.
  rewrite list_elem_of_fmap. split.
  - intros ([cid' s] & -> & Hin). by apply ranked_elem_of in Hin as [? _].
  - intros Hin. exists (cid, frame_score hits cid). split; [done|].
    by apply ranked_elem_of.
Qed.




Lemma filter_key_absent (l : frame) x :
  x ∉ l.*1 → filter (λ row, row.1 = x) l = [].
Proof.
  induction l as [|[k0 s0] l IH]; [done|].
  rewrite fmap_cons, not_elem_of_cons. simpl. intros [Hk0 Hl].
  rewrite filter_cons. simpl. rewrite decide_False by congruence. auto.
Qed.

(** The scenario of the specification: the scores are A = 19, B = 10 and
    C = 9; A and B fill the budget exactly and C, which overflows it, is left
    out. *)
Example scenario_walk :
  ranked scenario_hits = Ok [("A", 19%Z); ("B", 10%Z); ("C", 9%Z)] ∧
  get_chunks_from_hits char_tokens scenario_vault scenario_hits 10
    = Ok [Entry.mk "a.md" "aaaaa"; Entry.mk "b.md" "bbbbb"].
Proof. split; reflexivity. Qed.

(** C2, as the code has it: for hits whose ranks and scores fit in 64 bits, the
    score of a chunk id in the ranked frame is the sum, over the hits bearing
    that id, of [10 - rank], reduced to 64 bits, and so is that sum whenever
    the sum fits in 64 bits; each id has at most one row in the ranked frame
    and so at most one entry in the output; an id found at rank 0 by one source
    and at rank 2 by another gets the score 18 and a single row. *)
Theorem ranked_sums_scores_once (hits : list Hit.t) (r : frame) :
  ranked hits = Ok r →
  int64_hits hits →
  NoDup r.*1 ∧
  (∀ cid s, (cid, s) ∈ r ↔
     cid ∈ Hit.id <$> hits ∧ s = int64 (combined_score hits cid)) ∧
  (∀ cid s, int64_range (combined_score hits cid) →
     ((cid, s) ∈ r ↔ cid ∈ Hit.id <$> hits ∧ s = combined_score hits cid)) ∧
  (∀ num_tokens_from_string vault max_tokens out,
     get_chunks_from_hits num_tokens_from_string vault hits max_tokens = Ok out →
     ∃ ids, ids `prefix_of` r.*1 ∧ NoDup ids ∧
       Forall2 (λ cid e, context_entry vault cid = Some e) ids out) ∧
  (∀ x h1 h2,
     filter (λ h, Hit.id h = x) hits = [h1; h2] →
     Hit.rank h1 = 0%Z → Hit.rank h2 = 2%Z →
     (x, 18%Z) ∈ r ∧ length (filter (λ row, row.1 = x) r) = 1%nat).
Proof.
  intros [Hne ->]%ranked_Ok Hfit.
  pose proof (ranked_keys_NoDup hits) as Hnodup.
  split_and!.
  - done.
  - intros cid s. by rewrite ranked_elem_of, frame_score_wrap.
  - intros cid s Hsum. by rewrite ranked_elem_of, frame_score_exact.
  - intros tok vault max_tokens out Hout. unfold get_chunks_from_hits in Hout.
    rewrite ranked_ids_nonempty in Hout by done. simpl in Hout.
    apply assemble_Ok in Hout as (k & Hk & Hknown & ->).
    eexists (take k _). split_and!.
    + apply prefix_take.
    + eapply sublist_NoDup; [done|apply sublist_take].
    + by apply entries_known.
  - intros x h1 h2 Hx Hr1 Hr2.
    assert ((x, 18%Z) ∈ sort_values_desc (groupby_sum (scored hits))) as Hin.
    { apply ranked_elem_of. split.
      - apply list_elem_of_fmap. exists h1.
        assert (h1 ∈ filter (λ h, Hit.id h = x) hits) as Hh1 by (rewrite Hx; left).
        apply list_elem_of_filter in Hh1 as [<- ?]. done.
      - unfold frame_score. rewrite Hx. simpl. rewrite Hr1, Hr2. done. }
    split; [done|].
    apply list_elem_of_split in Hin as (l1 & l2 & Hsplit).
    rewrite Hsplit in Hnodup |- *. rewrite fmap_app, fmap_cons in Hnodup.
    apply NoDup_app in Hnodup as (_ & Hl1 & [Hl2 _]%NoDup_cons). simpl in *.
    rewrite filter_app, filter_cons, decide_True by done.
    rewrite (filter_key_absent l2) by done. rewrite (filter_key_absent l1); [done|].
    intros Hx1. apply (Hl1 x Hx1). left.
Qed.

Lemma ranked_sums_scores_once_witness :
  int64_hits two_source_hits ∧
  NoDup [("X", 18%Z); ("Z", 10%Z); ("W", 9%Z); ("Y", 9%Z)].*1 ∧
  (∀ cid s, (cid, s) ∈ [("X", 18%Z); ("Z", 10%Z); ("W", 9%Z); ("Y", 9%Z)] ↔
     cid ∈ Hit.id <$> two_source_hits ∧
     s = int64 (combined_score two_source_hits cid)) ∧
  (∀ cid s, int64_range (combined_score two_source_hits cid) →
     ((cid, s) ∈ [("X", 18%Z); ("Z", 10%Z); ("W", 9%Z); ("Y", 9%Z)] ↔
      cid ∈ Hit.id <$> two_source_hits ∧ s = combined_score two_source_hits cid)) ∧
  (∀ num_tokens_from_string vault max_tokens out,
     get_chunks_from_hits num_tokens_from_string vault two_source_hits max_tokens
       = Ok out →
     ∃ ids, ids `prefix_of` [("X", 18%Z); ("Z", 10%Z); ("W", 9%Z); ("Y", 9%Z)].*1 ∧
       NoDup ids ∧ Forall2 (λ cid e, context_entry vault cid = Some e) ids out) ∧
  (∀ x h1 h2,
     filter (λ h, Hit.id h = x) two_source_hits = [h1; h2] →
     Hit.rank h1 = 0%Z → Hit.rank h2 = 2%Z →
     (x, 18%Z) ∈ [("X", 18%Z); ("Z", 10%Z); ("W", 9%Z); ("Y", 9%Z)] ∧
     length (filter (λ row, row.1 = x)
               [("X", 18%Z); ("Z", 10%Z); ("W", 9%Z); ("Y", 9%Z)]) = 1%nat).
Proof.
  assert (int64_hits two_source_hits) as Hfit.
  { repeat constructor; unfold score_of_rank; simpl; lia. }
  split; [done|].
  apply (ranked_sums_scores_once two_source_hits); [reflexivity|done].
Defined.

(** C2 as stated fails: the three hits of ["A"] have the rank [2^62] each, a
    rank and a score that fit in 64 bits; the sum of their scores is
    [30 - 3 * 2^62], below every 64-bit integer, and the frame holds the score
    [2^62 + 30] for ["A"], which puts it in front of ["B"] with its score
    [10]. *)
Lemma wrapped_score_is_not_the_sum :
  int64_hits far_hits ∧
  combined_score far_hits "A" = (30 - 3 * 2 ^ 62)%Z ∧
  ranked far_hits = Ok [("A", (2 ^ 62 + 30)%Z); ("B", 10%Z)] ∧
  ("A", combined_score far_hits "A") ∉ [("A", (2 ^ 62 + 30)%Z); ("B", 10%Z)].
Proof.
  split_and!; [|reflexivity..|].
  - repeat constructor; unfold score_of_rank; simpl; lia.
  - intros [Heq|[Heq|Hin%elem_of_nil]%elem_of_cons]%elem_of_cons; [| |done];
      discriminate Heq.
Qed.

(** C5: of two distinct chunks that each appear in exactly one hit, the one
    with the strictly smaller rank has the strictly greater combined score and
    comes first in the ranked candidates. *)
Theorem lower_rank_scores_higher_and_precedes (hits : list Hit.t) (x y : string)
    (rx ry : Z) :
  x ≠ y →
  filter (λ h, Hit.id h = x) hits = [Hit.mk x rx] →
  filter (λ h, Hit.id h = y) hits = [Hit.mk y ry] →
  (rx < ry)%Z →
  ∃ r, ranked hits = Ok r ∧
    (x, combined_score hits x) ∈ r ∧ (y, combined_score hits y) ∈ r ∧
    (combined_score hits x > combined_score hits y)%Z ∧
    precedes x y r.*1.
Proof.
  intros Hxy Hx Hy Hlt.
  assert (Hit.mk x rx ∈ hits) as Hxin.
  { eapply (proj1 (list_elem_of_filter _ _ _)). rewrite Hx. left. }
  assert (Hit.mk y ry ∈ hits) as Hyin.
  { eapply (proj1 (list_elem_of_filter _ _ _)). rewrite Hy. left. }
  assert (hits ≠ []) as Hne by (intros ->; by apply elem_of_nil in Hxin).
  assert (combined_score hits x = 10 - rx)%Z as Hsx.
  { unfold combined_score. rewrite Hx. simpl. unfold score_of_rank. lia. }
  assert (combined_score hits y = 10 - ry)%Z as Hsy.
  { unfold combined_score. rewrite Hy. simpl. unfold score_of_rank. lia. }
  set (r := sort_values_desc (groupby_sum (scored hits))).
  assert ((x, combined_score hits x) ∈ r) as Hxr.
  { apply ranked_elem_of. split; [|symmetry; by eapply frame_score_single].
    by apply (list_elem_of_fmap_2 Hit.id) in Hxin. }
  assert ((y, combined_score hits y) ∈ r) as Hyr.
  { apply ranked_elem_of. split; [|symmetry; by eapply frame_score_single].
    by apply (list_elem_of_fmap_2 Hit.id) in Hyin. }
  exists r. split; [by apply ranked_nonempty|].
  split_and!; [done|done|lia|].
  pose proof (sort_values_desc_sorted (groupby_sum (scored hits))) as Hsorted.
  fold r in Hsorted.
  destruct (list_elem_of_split _ _ Hxr) as (l1 & l2 & Hr).
  rewrite Hr in Hyr, Hsorted.
  apply elem_of_app in Hyr as [Hy1|Hy2].
  - apply StronglySorted_app in Hsorted as (Hcross & _ & _).
    specialize (Hcross _ (x, combined_score hits x) Hy1 (list_elem_of_here _ _)).
    unfold flip, score_le in Hcross. simpl in Hcross. lia.
  - apply elem_of_cons in Hy2 as [[=]|Hy2]; [done|].
    destruct (list_elem_of_split _ _ Hy2) as (l2a & l2b & ->).
    exists l1.*1, l2a.*1, l2b.*1. rewrite Hr.
    by rewrite fmap_app, fmap_cons, fmap_app, fmap_cons.
Qed.

Lemma lower_rank_scores_higher_and_precedes_witness :
  ∃ r, ranked two_source_hits = Ok r ∧
    ("Z", combined_score two_source_hits "Z") ∈ r ∧
    ("Y", combined_score two_source_hits "Y") ∈ r ∧
    (combined_score two_source_hits "Z" > combined_score two_source_hits "Y")%Z ∧
    precedes "Z" "Y" r.*1.
Proof.
  apply (lower_rank_scores_higher_and_precedes two_source_hits "Z" "Y" 0 1).
  - discriminate.
  - reflexivity.
  - reflexivity.
  - lia.
Defined.

(** C3, as the code has it: the lookup error for an id [x] is raised, and no
    list returned, exactly when [x] is absent from the vault and the loop gets
    as far as [x], i.e. the ids ranked before it are in the vault and within
    the budget; the function raises nothing else on a ranked list. *)
Theorem missing_id_raises_iff_reached (num_tokens_from_string : string → nat)
    (vault : dict string Doc.t) (hits : list Hit.t) (max_tokens : Z)
    (cands : list string) (x : string) :
  ranked_ids hits = Ok cands →
  (get_chunks_from_hits num_tokens_from_string vault hits max_tokens
     = Raise (KeyError x) ↔
   dict_get vault x = None ∧
   reached num_tokens_from_string vault max_tokens cands x) ∧
  (∀ e, get_chunks_from_hits num_tokens_from_string vault hits max_tokens = Raise e →
        ∃ x', e = KeyError x' ∧ x' ∈ cands ∧ dict_get vault x' = None).
Proof.
  intros Hcands. unfold get_chunks_from_hits. rewrite Hcands. simpl. split.
  - rewrite assemble_Raise. split.
    + intros (l1 & x' & l2 & -> & [= <-] & Hx & Hknown & Hrun).
      split; [done|]. exists l1, l2. split_and!; [done..|].
      apply run_within_iff in Hrun. by rewrite Z.add_0_l in Hrun.
    + intros (Hx & l1 & l2 & -> & Hknown & Hrun).
      exists l1, x, l2. split_and!; [done..|].
      apply run_within_iff. by rewrite Z.add_0_l.
  - intros e (l1 & x' & l2 & -> & -> & Hx & _)%assemble_Raise.
    exists x'. split_and!; [done| |done].
    apply elem_of_app. right. left.
Qed.

Lemma missing_id_raises_iff_reached_witness :
  (get_chunks_from_hits char_tokens scenario_vault dangling_hits 100
     = Raise (KeyError "X") ↔
   dict_get scenario_vault "X" = None ∧
   reached char_tokens scenario_vault 100 ["A"; "C"; "X"] "X") ∧
  (∀ e, get_chunks_from_hits char_tokens scenario_vault dangling_hits 100 = Raise e →
        ∃ x', e = KeyError x' ∧ x' ∈ ["A"; "C"; "X"] ∧
              dict_get scenario_vault x' = None).
Proof.
  apply (missing_id_raises_iff_reached char_tokens scenario_vault dangling_hits 100).
  reflexivity.
Defined.

(** C3 as stated fails: one of the hits names the id ["X"], which the vault
    does not have, yet the call returns a list, because the chunk ranked before
    ["X"] already overflows the budget and ends the loop. *)
Lemma missing_id_behind_overflow_not_raised :
  Hit.mk "X" 2 ∈ dangling_hits ∧
  dict_get scenario_vault "X" = None ∧
  get_chunks_from_hits char_tokens scenario_vault dangling_hits 10
    = Ok [Entry.mk "a.md" "aaaaa"].
Proof. split_and!; [|reflexivity..]. do 2 right. left. Qed.

(** C4 on the code: an empty list of hits makes the column selection
    [df['rank']] raise, so no list comes back. *)
Theorem get_chunks_empty_hits_raises (num_tokens_from_string : string → nat)
    (vault : dict string Doc.t) (max_tokens : Z) :
  get_chunks_from_hits num_tokens_from_string vault [] max_tokens
    = Raise (KeyError "rank").
Proof. reflexivity. Qed.

(** ** The semantic query *)

Lemma elem_of_drop {A} (x : A) (m : nat) l : x ∈ drop m l → x ∈ l.
Proof. intros Hx. eapply elem_of_sublist; [done|apply sublist_drop]. Qed.

Lemma StronglySorted_drop {A} (R : relation A) l (m : nat) :
  StronglySorted R l → StronglySorted R (drop m l).
Proof.
  intros Hl. rewrite <-(take_drop m l) in Hl.
  by apply StronglySorted_app_1_r in Hl.
Qed.

(** [l[start:]] drops a number of leading elements. *)
Lemma py_slice_from_drop {A} (start : Z) (l : list A) :
  ∃ m : nat, py_slice_from start l = drop m l.
Proof. unfold py_slice_from. eauto. Qed.

(** [l[-n:]] keeps the last [n] elements when [n] is positive. *)
Lemma py_slice_from_last {A} (n : Z) (l : list A) :
  (1 ≤ n)%Z →
  length (py_slice_from (- n) l) = Nat.min (Z.to_nat n) (length l).
Proof.
  intros Hn. unfold py_slice_from. rewrite decide_True by lia.
  rewrite length_drop. lia.
Qed.

(** [l[-0:]] is [l[0:]], the whole list. *)
Lemma py_slice_from_zero {A} (l : list A) : py_slice_from (- 0) l = l.
Proof.
  unfold py_slice_from. destruct (decide (- 0 < 0)%Z) as [?|_]; [lia|].
  by rewrite Z.min_l by lia.
Qed.

Lemma argsort_pairs_Permutation (a : list Qc) :
  (stable_sort sim_le (zip (seq 0 (length a)) a)).*1 ≡ₚ seq 0 (length a).
Proof.
  rewrite stable_sort_Permutation. rewrite fst_zip; [done|].
  by rewrite length_seq.
Qed.

Lemma argsort_length (a : list Qc) : length (argsort a) = length a.
Proof.
  unfold argsort. rewrite argsort_pairs_Permutation. apply length_seq.
Qed.

Lemma argsort_NoDup (a : list Qc) : NoDup (argsort a).
Proof.
  unfold argsort. rewrite argsort_pairs_Permutation. apply NoDup_seq.
Qed.

Lemma argsort_bound (a : list Qc) i : i ∈ argsort a → (i < length a)%nat.
Proof.
  unfold argsort. rewrite argsort_pairs_Permutation, elem_of_seq. lia.
Qed.

Lemma argsort_pairs_lookup (a : list Qc) i v :
  (i, v) ∈ stable_sort sim_le (zip (seq 0 (length a)) a) → a !! i = Some v.
Proof.
  rewrite stable_sort_Permutation. intros Hin.
  apply list_elem_of_lookup in Hin as [p Hp].
  apply lookup_zip_with_Some in Hp as (i' & v' & [= <- <-] & Hi & Hv).
  apply lookup_seq in Hi as [-> _]. done.
Qed.

Section query_facts.
Context {vec : Type} (dot : vec → vec → Qc).
Implicit Types (q : vec) (arr : list vec).

Lemma query_semantic_NoDup q arr n_results :
  NoDup (query_semantic vec dot q arr n_results).
Proof.
  unfold query_semantic. rewrite reverse_Permutation.
  destruct (py_slice_from_drop (- n_results)
              (argsort ((λ row, dot row q) <$> arr))) as [m ->].
  eapply sublist_NoDup; [apply argsort_NoDup|apply sublist_drop].
Qed.

Lemma query_semantic_bound q arr n_results i :
  i ∈ query_semantic vec dot q arr n_results → (i < length arr)%nat.
Proof.
  unfold query_semantic. rewrite elem_of_reverse.
  destruct (py_slice_from_drop (- n_results)
              (argsort ((λ row, dot row q) <$> arr))) as [m ->].
  intros Hi%elem_of_drop%argsort_bound. by rewrite length_fmap in Hi.
Qed.

Lemma query_semantic_length q arr n_results :
  (1 ≤ n_results)%Z →
  length (query_semantic vec dot q arr n_results)
    = Nat.min (Z.to_nat n_results) (length arr).
Proof.
  intros Hn. unfold query_semantic.
  by rewrite length_reverse, py_slice_from_last, argsort_length, length_fmap.
Qed.

(** With [n_results = 0] every row comes back. *)
Lemma query_semantic_zero_length q arr :
  length (query_semantic vec dot q arr 0) = length arr.
Proof.
  unfold query_semantic.
  by rewrite length_reverse, py_slice_from_zero, argsort_length, length_fmap.
Qed.

Lemma query_semantic_best_first q arr n_results :
  best_first dot q arr (query_semantic vec dot q arr n_results).
Proof.
  unfold query_semantic, argsort.
  set (cos_sims := (λ row, dot row q) <$> arr).
  set (sorted := stable_sort sim_le (zip (seq 0 (length cos_sims)) cos_sims)).
  destruct (py_slice_from_drop (- n_results) sorted.*1) as [m ->].
  rewrite <-fmap_drop, <-fmap_reverse.
  assert (StronglySorted (flip sim_le) (reverse (drop m sorted))) as Hsorted.
  { apply StronglySorted_reverse; [apply _|]. apply StronglySorted_drop.
    apply StronglySorted_stable_sort; apply _. }
  intros a b i j Hab Ha Hb.
  rewrite list_lookup_fmap in Ha, Hb.
  destruct (reverse (drop m sorted) !! a) as [[i' vi]|] eqn:Ha'; [|done].
  destruct (reverse (drop m sorted) !! b) as [[j' vj]|] eqn:Hb'; [|done].
  simpl in Ha, Hb. simplify_eq.
  pose proof (StronglySorted_lookup _ _ _ _ _ _ Hsorted Hab Ha' Hb') as Hle.
  assert (∀ (k : nat) p, reverse (drop m sorted) !! k = Some p → p ∈ sorted) as Hin.
  { intros k p Hk. apply list_elem_of_lookup_2 in Hk.
    rewrite elem_of_reverse in Hk. by apply elem_of_drop in Hk. }
  apply Hin, argsort_pairs_lookup in Ha'. apply Hin, argsort_pairs_lookup in Hb'.
  unfold cos_sims in Ha', Hb'. rewrite list_lookup_fmap in Ha', Hb'.
  destruct (arr !! i) as [ri|]; [|done]. destruct (arr !! j) as [rj|]; [|done].
  simpl in Ha', Hb'. simplify_eq. exists ri, rj. by split_and!.
Qed.
End query_facts.

(** ** The embedding index *)

Lemma embedded_items_cons cid doc vault :
  embedded_items ((cid, doc) :: vault) =
    if decide (Doc.type doc = "doc") then embedded_items vault
    else (cid, doc) :: embedded_items vault.
Proof.
  unfold embedded_items. rewrite filter_cons. simpl.
  destruct (decide (Doc.type doc = "doc")) as [Heq|Hne].
  - by rewrite decide_False by (intros Hn; by apply Hn).
  - by rewrite decide_True by done.
Qed.

Lemma build_embedding_index_go_eq items acc idx :
  acc.*1 = seq 0 idx →
  build_embedding_index_go items acc idx =
    acc ++ zip (seq idx (length (embedded_items items))) (embedded_items items).*1.
Proof.
  revert acc idx. induction items as [|[cid doc] items IH]; intros acc idx Hacc.
  - simpl. by rewrite app_nil_r.
  - cbn [build_embedding_index_go]. rewrite embedded_items_cons.
    destruct (decide (Doc.type doc = "doc")) as [Heq|Hne]; [by apply IH|].
    rewrite dict_set_fresh.
    + rewrite IH.
      * rewrite <-app_assoc. done.
      * by rewrite fmap_app, Hacc, seq_S.
    + rewrite Hacc, elem_of_seq. lia.
Qed.

Lemma build_embedding_index_eq vault :
  build_embedding_index vault =
    zip (seq 0 (length (embedded_items vault))) (embedded_items vault).*1.
Proof. unfold build_embedding_index. by rewrite build_embedding_index_go_eq. Qed.

Lemma build_embedding_index_length vault :
  length (build_embedding_index vault) = length (embedded_items vault).
Proof.
  rewrite build_embedding_index_eq, length_zip_with, length_seq, length_fmap. lia.
Qed.

Lemma dict_get_zip_seq {A} (l : list A) (j i : nat) :
  dict_get (zip (seq j (length l)) l) (j + i) = l !! i.
Proof.
  revert j i. induction l as [|x l IH]; intros j i; [done|].
  simpl. destruct i as [|i].
  - by rewrite decide_True by lia.
  - rewrite decide_False by lia. replace (j + S i) with (S j + i) by lia.
    apply IH.
Qed.

(** The mapping read at a row number gives the chunk id embedded at that
    position. *)
Lemma dict_get_build_embedding_index vault (i : nat) :
  dict_get (build_embedding_index vault) i = (embedded_items vault).*1 !! i.
Proof.
  rewrite build_embedding_index_eq, <-(length_fmap fst (embedded_items vault)).
  apply (dict_get_zip_seq _ 0 i).
Qed.

Lemma embedded_items_NoDup vault : NoDup vault.*1 → NoDup (embedded_items vault).*1.
Proof.
  intros Hv. eapply sublist_NoDup; [done|].
  apply fmap_sublist, sublist_filter.
Qed.

Lemma build_embedding_index_inj vault (i j : nat) cid :
  NoDup vault.*1 →
  dict_get (build_embedding_index vault) i = Some cid →
  dict_get (build_embedding_index vault) j = Some cid → i = j.
Proof.
  intros Hv. rewrite !dict_get_build_embedding_index.
  by apply NoDup_lookup, embedded_items_NoDup.
Qed.

(** ** Parsing the semantic response *)

Lemma enumerate_from_snd {A} (start : Z) (l : list A) :
  (enumerate_from start l).*2 = l.
Proof.
  revert start. induction l as [|x l IH]; intros start; [done|].
  simpl. by rewrite IH.
Qed.

Lemma parse_semantic_go_Ok index rows hits out :
  parse_semantic_go index rows hits = Ok out →
  ∃ new, out = hits ++ new ∧
    Forall2 (λ row h, dict_get index row.2 = Some (Hit.id h) ∧ Hit.rank h = row.1)
      rows new.
Proof.
  revert hits. induction rows as [|[rank idx] rows IH]; intros hits; simpl.
  - intros [= <-]. exists []. by rewrite app_nil_r.
  - destruct (dict_get index idx) as [cid|] eqn:Hcid; [|done].
    intros (new & -> & Hnew)%IH. exists (Hit.mk cid rank :: new).
    rewrite <-app_assoc. split; [done|]. by constructor.
Qed.

Lemma parse_semantic_go_known index rows hits :
  Forall (λ row, is_Some (dict_get index row.2)) rows →
  ∃ out, parse_semantic_go index rows hits = Ok out.
Proof.
  intros Hrows. revert hits.
  induction Hrows as [|[rank idx] rows [cid Hcid] _ IH]; intros hits; simpl.
  - eauto.
  - simpl in Hcid. rewrite Hcid. apply IH.
Qed.

Lemma parsed_ids_NoDup index rows new :
  (∀ (i j : nat) cid, dict_get index i = Some cid → dict_get index j = Some cid → i = j) →
  NoDup rows.*2 →
  Forall2 (λ (row : Z * nat) h,
             dict_get index row.2 = Some (Hit.id h) ∧ Hit.rank h = row.1) rows new →
  NoDup (Hit.id <$> new).
Proof.
  intros Hinj Hrows Hnew. induction Hnew as [|[rank idx] h rows new [Hh _] Hnew IH].
  - constructor.
  - rewrite fmap_cons in Hrows. apply NoDup_cons in Hrows as [Hidx Hrows].
    rewrite fmap_cons. constructor; [|by apply IH].
    intros (h' & Hid & Hh')%list_elem_of_fmap. apply Hidx.
    apply list_elem_of_lookup in Hh' as [k Hk].
    destruct (Forall2_lookup_r _ _ _ _ _ Hnew Hk) as ([rank' idx'] & Hrow & Hidx' & _).
    simpl in *. rewrite <-Hid in Hidx'. rewrite (Hinj _ _ _ Hh Hidx').
    apply list_elem_of_fmap. exists (rank', idx'). split; [done|].
    by eapply list_elem_of_lookup_2.
Qed.

(** C6, as the code has it: for a positive [n_results] the result has
    [min(n_results, rows)] row indices, all within the array, ordered best
    first by similarity to the query. *)
Theorem query_semantic_top_results {vec : Type} (dot : vec → vec → Qc)
    (query_embedding : vec) (doc_embeddings_array : list vec) (n_results : Z) :
  (1 ≤ n_results)%Z →
  length (query_semantic vec dot query_embedding doc_embeddings_array n_results)
    = Nat.min (Z.to_nat n_results) (length doc_embeddings_array) ∧
  Forall (λ i, (i < length doc_embeddings_array)%nat)
    (query_semantic vec dot query_embedding doc_embeddings_array n_results) ∧
  best_first dot query_embedding doc_embeddings_array
    (query_semantic vec dot query_embedding doc_embeddings_array n_results).
Proof.
  intros Hn. split_and!.
  - by apply query_semantic_length.
  - apply Forall_forall. intros i. apply query_semantic_bound.
  - apply query_semantic_best_first.
Qed.

Lemma query_semantic_top_results_witness :
  length (query_semantic Qc Qcmult sample_query sample_array 2)
    = Nat.min (Z.to_nat 2) (length sample_array) ∧
  Forall (λ i, (i < length sample_array)%nat)
    (query_semantic Qc Qcmult sample_query sample_array 2) ∧
  best_first Qcmult sample_query sample_array
    (query_semantic Qc Qcmult sample_query sample_array 2).
Proof.
  apply (query_semantic_top_results Qcmult sample_query sample_array 2). lia.
Defined.

(** C6 as stated fails for [n_results = 0]: the slice [[-0:]] is the whole
    array of sorted positions, so all three rows come back instead of none. *)
Lemma query_semantic_zero_results_returns_all :
  query_semantic Qc Qcmult sample_query sample_array 0 = [1; 2; 0]%nat ∧
  Z.of_nat (length (query_semantic Qc Qcmult sample_query sample_array 0))
    ≠ Z.min 0 (Z.of_nat (length sample_array)).
Proof. split; [reflexivity|]. vm_compute. discriminate. Qed.

(** C10: whatever [n_results] is, the row indices [query_semantic] returns are
    pairwise distinct; [build_embedding_index] maps distinct row numbers to
    distinct chunk ids; hence the hits parsed from a semantic response carry
    pairwise distinct chunk ids (and the parse succeeds when the array has as
    many rows as the mapping has entries). *)
Theorem semantic_hits_distinct {vec : Type} (dot : vec → vec → Qc)
    (query_embedding : vec) (doc_embeddings_array : list vec) (n_results : Z)
    (vault : dict string Doc.t) :
  NoDup vault.*1 →
  NoDup (query_semantic vec dot query_embedding doc_embeddings_array n_results) ∧
  (∀ (i j : nat) cid,
     dict_get (build_embedding_index vault) i = Some cid →
     dict_get (build_embedding_index vault) j = Some cid → i = j) ∧
  (∀ hits,
     parse_semantic_response
       (query_semantic vec dot query_embedding doc_embeddings_array n_results)
       (build_embedding_index vault) = Ok hits →
     NoDup (Hit.id <$> hits)) ∧
  (length doc_embeddings_array = length (build_embedding_index vault) →
   ∃ hits,
     parse_semantic_response
       (query_semantic vec dot query_embedding doc_embeddings_array n_results)
       (build_embedding_index vault) = Ok hits).
Proof.
  intros Hvault.
  pose proof (query_semantic_NoDup dot query_embedding doc_embeddings_array n_results)
    as Hindices.
  split_and!.
  - done.
  - intros i j cid. by apply build_embedding_index_inj.
  - intros hits Hhits. unfold parse_semantic_response in Hhits.
    apply parse_semantic_go_Ok in Hhits as (new & -> & Hnew). simpl.
    eapply parsed_ids_NoDup; [|by rewrite enumerate_from_snd|done].
    intros i j cid. by apply build_embedding_index_inj.
  - intros Hlen. apply parse_semantic_go_known, Forall_forall.
    intros [rank idx] Hrow. simpl.
    apply (list_elem_of_fmap_2 snd) in Hrow. unfold enumerate in Hrow.
    rewrite enumerate_from_snd in Hrow.
    apply query_semantic_bound in Hrow. simpl in Hrow.
    rewrite dict_get_build_embedding_index. apply lookup_lt_is_Some.
    rewrite length_fmap, <-build_embedding_index_length. lia.
Qed.

Lemma semantic_hits_distinct_witness :
  NoDup (query_semantic Qc Qcmult sample_query sample_array 2) ∧
  (∀ (i j : nat) cid,
     dict_get (build_embedding_index scenario_vault) i = Some cid →
     dict_get (build_embedding_index scenario_vault) j = Some cid → i = j) ∧
  (∀ hits,
     parse_semantic_response
       (query_semantic Qc Qcmult sample_query sample_array 2)
       (build_embedding_index scenario_vault) = Ok hits →
     NoDup (Hit.id <$> hits)) ∧
  (length sample_array = length (build_embedding_index scenario_vault) →
   ∃ hits,
     parse_semantic_response
       (query_semantic Qc Qcmult sample_query sample_array 2)
       (build_embedding_index scenario_vault) = Ok hits).
Proof.
  apply (semantic_hits_distinct Qcmult sample_query sample_array 2 scenario_vault).
  apply (bool_decide_unpack _). vm_compute. exact I.
Defined.

(** ** The embedding array *)

Section embed_facts.
Context {vec : Type} (get_batch_embeddings : list string → list vec).
Local Abbreviation E := get_batch_embeddings.

(** The loop with the embedder [E] runs as the loop that records its
    batches, and collects the image of each recorded batch. *)
Lemma embed_loop_batches batch_size items chunk_batch chunks_batched calls :
  embed_loop vec E batch_size items chunk_batch chunks_batched (E <$> calls) =
    result_map (λ st, (st.1.1, st.1.2, E <$> st.2))
      (embed_loop string (λ batch, batch) batch_size items
         chunk_batch chunks_batched calls).
Proof.
  revert chunk_batch chunks_batched calls.
  induction items as [|[cid doc] items IH]; intros chunk_batch chunks_batched calls.
  - done.
  - cbn [embed_loop]. destruct (decide (Doc.type doc = "doc")); [apply IH|].
    destruct (decide (batch_size = 0)%Z); [done|].
    destruct (decide ((chunks_batched + 1) `mod` batch_size = 0)%Z); [|apply IH].
    rewrite <-IH. by rewrite fmap_app.
Qed.

Lemma concat_fmap_length (calls : list (list string)) :
  (∀ batch, length (E batch) = length batch) →
  length (concat (E <$> calls)) = length (concat calls).
Proof.
  intros Hlen. induction calls as [|batch calls IH]; [done|].
  rewrite fmap_cons, !concat_cons, !length_app, Hlen, IH. done.
Qed.

(** A position of the concatenated batches lies in one batch, and the same
    position of the concatenated outputs lies in the output for it. *)
Lemma concat_lookup_batch (calls : list (list string)) (i : nat) text :
  (∀ batch, length (E batch) = length batch) →
  concat calls !! i = Some text →
  ∃ (j o : nat) batch,
    calls !! j = Some batch ∧ batch !! o = Some text ∧
    concat (E <$> calls) !! i = E batch !! o.
Proof.
  intros Hlen. revert i. induction calls as [|batch calls IH]; intros i; [done|].
  simpl. destruct (decide (i < length batch)%nat) as [Hlt|Hge].
  - rewrite lookup_app_l by done. intros Hi.
    exists 0, i, batch. split_and!; [done..|].
    by rewrite lookup_app_l by (by rewrite Hlen).
  - rewrite lookup_app_r by lia. intros (j & o & b & Hj & Ho & Hrow)%IH.
    exists (S j), o, b. split_and!; [done..|].
    rewrite lookup_app_r by (rewrite Hlen; lia). by rewrite Hlen.
Qed.
End embed_facts.

(** The recording loop: every text of the vault ends up, in order, in a
    recorded batch or in the batch still open, and the counter is the length
    of the open batch. *)
Lemma embed_loop_record batch_size items chunk_batch chunks_batched calls :
  batch_size ≠ 0%Z →
  ∃ chunk_batch' chunks_batched' calls',
    embed_loop string (λ batch, batch) batch_size items chunk_batch chunks_batched calls
      = Ok (chunk_batch', chunks_batched', calls') ∧
    (chunks_batched = Z.of_nat (length chunk_batch) →
     chunks_batched' = Z.of_nat (length chunk_batch')) ∧
    concat calls' ++ chunk_batch' =
      concat calls ++ chunk_batch ++ embedded_texts items.
Proof.
  intros Hbs. revert chunk_batch chunks_batched calls.
  induction items as [|[cid doc] items IH]; intros chunk_batch chunks_batched calls.
  - exists chunk_batch, chunks_batched, calls. split_and!; [done..|].
    unfold embedded_texts. simpl. by rewrite app_nil_r.
  - cbn [embed_loop]. unfold embedded_texts. rewrite embedded_items_cons.
    destruct (decide (Doc.type doc = "doc")); [apply IH|].
    rewrite decide_False by done. rewrite !fmap_cons. cbn [snd].
    destruct (decide ((chunks_batched + 1) `mod` batch_size = 0)%Z).
    + destruct (IH [] 0%Z (calls ++ [chunk_batch ++ [processed_chunk doc]]))
        as (b' & n' & cs' & Hloop & Hn & Hcat).
      exists b', n', cs'. split_and!; [done|auto|].
      rewrite Hcat, concat_app. simpl. by rewrite !app_nil_r, <-!app_assoc.
    + destruct (IH (chunk_batch ++ [processed_chunk doc]) (chunks_batched + 1)%Z calls)
        as (b' & n' & cs' & Hloop & Hn & Hcat).
      exists b', n', cs'. split_and!; [done| |].
      * intros ->. apply Hn. rewrite length_app. simpl. lia.
      * rewrite Hcat. by rewrite <-!app_assoc.
Qed.

(** The recorded batches, concatenated, are the texts of the vault. *)
Lemma embedded_batches_concat vault batch_size :
  batch_size ≠ 0%Z →
  ∃ calls, embedded_batches vault batch_size = Ok calls ∧
    concat calls = embedded_texts vault.
Proof.
  intros Hbs. unfold embedded_batches.
  destruct (embed_loop_record batch_size vault [] 0%Z [] Hbs)
    as (b' & n' & cs' & -> & Hn & Hcat).
  simpl in Hcat. specialize (Hn eq_refl). simpl.
  eexists. split; [done|]. case_decide.
  - rewrite concat_app. simpl. by rewrite app_nil_r.
  - destruct b'; [|simpl in Hn; lia]. by rewrite <-Hcat, app_nil_r.
Qed.

Lemma build_embedding_array_batches {vec : Type}
    (get_batch_embeddings : list string → list vec) vault batch_size calls :
  embedded_batches vault batch_size = Ok calls →
  build_embedding_array vec get_batch_embeddings vault batch_size =
    np_concatenate vec (get_batch_embeddings <$> calls).
Proof.
  unfold embedded_batches, build_embedding_array.
  pose proof (embed_loop_batches get_batch_embeddings batch_size vault [] 0%Z []) as Hsim.
  simpl in Hsim. rewrite Hsim.
  destruct (embed_loop string _ batch_size vault [] 0%Z []) as [[[b' n'] cs']|e]; [|done].
  simpl. intros [= <-]. case_decide; [|done]. by rewrite fmap_app.
Qed.

(** C7: for a vault with at least one entry of type ["chunk"] and an embedder
    that returns one row per text, [build_embedding_array] returns an array
    with as many rows as [build_embedding_index] has entries, and for every row
    position [i] the id stored at key [i] is that of the chunk whose text was
    embedded into row [i]. *)
Theorem embedding_array_index_lockstep {vec : Type}
    (get_batch_embeddings : list string → list vec) (vault : dict string Doc.t)
    (batch_size : Z) :
  (∀ batch, length (get_batch_embeddings batch) = length batch) →
  NoDup vault.*1 →
  (∃ cid doc, (cid, doc) ∈ vault ∧ Doc.type doc = "chunk") →
  batch_size ≠ 0%Z →
  ∃ arr calls,
    build_embedding_array vec get_batch_embeddings vault batch_size = Ok arr ∧
    embedded_batches vault batch_size = Ok calls ∧
    rows_in_lockstep get_batch_embeddings vault arr calls.
Proof.
  intros Hlen Hvault (cid0 & doc0 & Hin0 & Htype0) Hbs.
  destruct (embedded_batches_concat vault batch_size Hbs) as (calls & Hcalls & Hcat).
  assert (length (embedded_texts vault) = length (embedded_items vault)) as Htexts.
  { unfold embedded_texts. by rewrite !length_fmap. }
  assert ((cid0, doc0) ∈ embedded_items vault) as Hemb0.
  { apply list_elem_of_filter. split; [|done]. simpl. by rewrite Htype0. }
  assert (calls ≠ []) as Hne.
  { intros ->. simpl in Hcat. unfold embedded_texts in Hcat.
    destruct (embedded_items vault); [by apply elem_of_nil in Hemb0|done]. }
  exists (concat (get_batch_embeddings <$> calls)), calls.
  split_and!; [|done|].
  { rewrite (build_embedding_array_batches _ _ _ _ Hcalls).
    unfold np_concatenate. destruct calls; done. }
  assert (length (concat (get_batch_embeddings <$> calls))
          = length (embedded_items vault)) as Hrows.
  { by rewrite concat_fmap_length, Hcat. }
  split_and!; [by rewrite build_embedding_index_length|done|].
  intros i Hi. rewrite Hrows in Hi.
  destruct (lookup_lt_is_Some_2 _ _ Hi) as [[cid doc] Hitem].
  assert ((cid, doc) ∈ embedded_items vault) as Hemb
    by (by eapply list_elem_of_lookup_2).
  apply list_elem_of_filter in Hemb as [Htype Hin]. simpl in Htype.
  assert (concat calls !! i = Some (processed_chunk doc)) as Htext.
  { rewrite Hcat. unfold embedded_texts.
    by rewrite !list_lookup_fmap, Hitem. }
  destruct (concat_lookup_batch get_batch_embeddings calls i _ Hlen Htext)
    as (j & o & batch & Hj & Ho & Hrow).
  exists cid, doc, j, o, batch. split_and!; try done.
  - rewrite dict_get_build_embedding_index, list_lookup_fmap, Hitem. done.
  - by apply elem_of_dict_get.
  - apply lookup_lt_is_Some. lia.
Qed.

Lemma embedding_array_index_lockstep_witness :
  ∃ arr calls,
    build_embedding_array nat sample_embedder sample_vault 4 = Ok arr ∧
    embedded_batches sample_vault 4 = Ok calls ∧
    rows_in_lockstep sample_embedder sample_vault arr calls.
Proof.
  apply (embedding_array_index_lockstep sample_embedder sample_vault 4).
  - intros batch. apply length_fmap.
  - apply (bool_decide_unpack _). vm_compute. exact I.
  - exists "n.md-0", (Doc.mk "n.md" "chunk" "n.md" "one").
    split; [right; left|reflexivity].
  - discriminate.
Defined.

(** ** Strings: suffixes, digits and chunk keys *)

Lemma append_nil (t : string) : "" +:+ t = t.
Proof. reflexivity. Qed.

Lemma append_cons c (s t : string) : String c s +:+ t = String c (s +:+ t).
Proof. reflexivity. Qed.

Lemma append_eq_nil (s t : string) : s +:+ t = "" → t = "".
Proof. destruct s; [by rewrite append_nil|by rewrite append_cons]. Qed.

Lemma endswith_append (s p : string) :
  endswith s p = true → ∃ pre, s = pre +:+ p.
Proof.
  induction s as [|c s IH]; simpl.
  - case_decide; [|done]. intros _. exists "". by rewrite append_nil.
  - case_decide as Heq.
    + intros _. exists "". by rewrite append_nil.
    + intros [pre ->]%IH. exists (String c pre). by rewrite append_cons.
Qed.

Lemma last_char_append (a b : string) : b ≠ "" → last_char (a +:+ b) = last_char b.
Proof.
  intros Hb. induction a as [|c a IH]; [by rewrite append_nil|].
  rewrite append_cons. simpl. rewrite IH.
  destruct (a +:+ b) eqn:Hab; [|done]. by apply append_eq_nil in Hab.
Qed.

Lemma is_digit_not_d : ¬ is_digit "d".
Proof.
  intros [x Hx]. unfold pretty_N_char in Hx. repeat case_match; discriminate.
Qed.

Lemma is_digit_not_dash : ¬ is_digit "-".
Proof.
  intros [x Hx]. unfold pretty_N_char in Hx. repeat case_match; discriminate.
Qed.

Lemma all_digits_last (d : string) :
  all_digits d → d ≠ "" → ∃ c, last_char d = Some c ∧ is_digit c.
Proof.
  induction d as [|c d IH]; [done|]. intros [Hc Hd] _. simpl.
  destruct d as [|c' d']; [eauto|]. by apply IH.
Qed.

Lemma all_digits_no_dash (a b : string) : ¬ all_digits (a +:+ String "-" b).
Proof.
  induction a as [|c a IH].
  - rewrite append_nil. intros [Hdash _]. by apply is_digit_not_dash.
  - rewrite append_cons. intros [_ Ha]. by apply IH.
Qed.

Lemma pretty_N_go_digits (x : N) (s : string) :
  all_digits s → all_digits (pretty_N_go x s).
Proof.
  revert s. induction (N.lt_wf_0 x) as [x _ IH]; intros s Hs.
  destruct (decide (0 < x)%N) as [Hpos|Hzero].
  - rewrite pretty_N_go_step by done. apply IH.
    + by apply N.div_lt.
    + split; [by eexists|done].
  - replace x with 0%N by lia. by rewrite pretty_N_go_0.
Qed.

Lemma pretty_N_go_nonempty (x : N) (s : string) : s ≠ "" → pretty_N_go x s ≠ "".
Proof.
  revert s. induction (N.lt_wf_0 x) as [x _ IH]; intros s Hs.
  destruct (decide (0 < x)%N) as [Hpos|Hzero].
  - rewrite pretty_N_go_step by done. apply IH; [by apply N.div_lt|done].
  - replace x with 0%N by lia. by rewrite pretty_N_go_0.
Qed.

Lemma pretty_nat_digits (n : nat) : all_digits (pretty n) ∧ pretty n ≠ "".
Proof.
  unfold pretty, pretty_nat, pretty, pretty_N. case_decide as Hn.
  - split; [|done]. split; [by exists 0%N|done].
  - split; [by apply pretty_N_go_digits|].
    rewrite pretty_N_go_step by lia. by apply pretty_N_go_nonempty.
Qed.

(** A chunk key never ends in [.md]. *)
Lemma chunk_key_not_md (filename path : string) (k : nat) :
  endswith path ".md" = true → path ≠ chunk_key filename k.
Proof.
  intros [pre ->]%endswith_append Heq.
  apply (f_equal last_char) in Heq. unfold chunk_key in Heq.
  destruct (pretty_nat_digits k) as [Hdigits Hne].
  change ("-" +:+ pretty k) with (String "-" (pretty k)) in Heq.
  rewrite !last_char_append in Heq by done.
  destruct (all_digits_last _ Hdigits Hne) as (c & Hc & Hdigit).
  simpl in Heq. destruct (pretty k) as [|c0 d0] eqn:Hp; [done|].
  rewrite Hc in Heq. injection Heq as <-. by apply is_digit_not_d.
Qed.

Lemma dash_split (f g d1 d2 : string) :
  all_digits d1 → all_digits d2 →
  f +:+ String "-" d1 = g +:+ String "-" d2 → f = g ∧ d1 = d2.
Proof.
  intros Hd1 Hd2. revert g. induction f as [|c f IH]; intros [|c' g].
  - rewrite !append_nil. by intros [= ->].
  - rewrite append_nil, !append_cons. intros [= <- ->].
    by apply all_digits_no_dash in Hd1.
  - rewrite append_nil, !append_cons. intros [= -> <-].
    by apply all_digits_no_dash in Hd2.
  - rewrite !append_cons. intros [= -> Heq]. by destruct (IH _ Heq) as [-> ->].
Qed.

(** Chunk keys determine the path and the chunk number. *)
Lemma chunk_key_inj (f g : string) (k j : nat) :
  chunk_key f k = chunk_key g j → f = g ∧ k = j.
Proof.
  unfold chunk_key. intros Heq.
  destruct (pretty_nat_digits k) as [Hk _], (pretty_nat_digits j) as [Hj _].
  destruct (dash_split f g (pretty k) (pretty j) Hk Hj Heq) as [-> Hp].
  split; [done|]. by apply (inj pretty).
Qed.

(** ** Chunking *)

Lemma chunk_step_NoDup min_chunk_lines st line :
  NoDup (Chunker.chunks st).*1 →
  NoDup (Chunker.chunks (chunk_step min_chunk_lines st line)).*1.
Proof.
  destruct st as [chunks cur idx header]. unfold chunk_step. simpl. intros Hnd.
  repeat (case_match; simpl; try done); simplify_eq;
    first [done|by apply dict_set_NoDup].
Qed.

Lemma chunk_doc_to_dict_NoDup lines min_chunk_lines :
  NoDup (chunk_doc_to_dict lines min_chunk_lines).*1.
Proof.
  unfold chunk_doc_to_dict.
  assert (∀ st, NoDup (Chunker.chunks st).*1 →
            NoDup (Chunker.chunks (foldl (chunk_step min_chunk_lines) st lines)).*1)
    as Hfold.
  { induction lines as [|line lines IH]; intros st Hst; [done|].
    simpl. by apply IH, chunk_step_NoDup. }
  specialize (Hfold (Chunker.mk [] [] 0 None) NoDup_nil_2).
  destruct (foldl _ _ lines) as [chunks cur idx header]. simpl in *.
  repeat (case_match; try done); first [done|by apply dict_set_NoDup].
Qed.

(** The two thresholds: a chunk closed by a top-level bullet is kept when it has
    at least [min_chunk_lines] lines, the chunk left at the end of the document
    only when it has more. *)
Lemma bullet_chunk_threshold min_chunk_lines chunks cur idx header line :
  skipped line = false → startswith line "- " = true → cur ≠ [] →
  Chunker.chunks (chunk_step min_chunk_lines (Chunker.mk chunks cur idx header) line) =
    if decide (Z.of_nat (length cur) >= min_chunk_lines)%Z
    then dict_set chunks idx cur else chunks.
Proof.
  unfold skipped. rewrite !orb_false_iff. intros [[[Hlf Htag] Hsrc] Himg] Hbullet Hcur.
  unfold chunk_step. rewrite Hlf, Htag, Hsrc, Himg, Hbullet.
  destruct cur as [|l0 cur]; [done|]. by case_decide.
Qed.

Lemma last_chunk_threshold min_chunk_lines chunks cur idx header :
  cur ≠ [] →
  chunk_last min_chunk_lines (Chunker.mk chunks cur idx header) =
    if decide (Z.of_nat (length cur) > min_chunk_lines)%Z
    then dict_set chunks idx cur else chunks.
Proof. intros Hcur. unfold chunk_last. by destruct cur. Qed.

(** C8 on the code: the last chunk of a document is kept only when it has more
    lines than the minimum, whereas a chunk closed by a following bullet is
    kept when it has at least the minimum; three lines are dropped at the end
    of a document and kept before a bullet. *)
Theorem final_chunk_of_minimum_size_dropped :
  chunk_doc_to_dict three_lines 3 = [] ∧
  chunk_doc_to_dict (three_lines ++ ["- next" +:+ LF]) 3 = [(0%nat, three_lines)].
Proof. split; reflexivity. Qed.

(** ** The vault dictionary *)

Lemma readlines_Ok vault_path filename lines :
  readlines vault_path filename = Ok lines ↔
    dict_get vault_path filename = Some (File lines).
Proof.
  unfold readlines. destruct (dict_get vault_path filename) as [[ls|]|]; [|done..].
  split; by intros [= ->].
Qed.

(** The two ways the walk ends: no entry that is opened is a directory, and
    the files with more than [min_lines] lines among the opened entries are
    listed in order; or the first opened entry that is a directory makes
    [open] fail. *)
Lemma get_file_paths_go_outcome files min_lines paths :
  (Forall (λ file, opened_directory file = false) files ∧
   get_file_paths_go files min_lines paths
     = Ok (paths ++ (filter (λ file, listed min_lines file = true) files).*1)) ∨
  (∃ files1 filename files2, files = files1 ++ (filename, Directory) :: files2 ∧
     Forall (λ file, opened_directory file = false) files1 ∧
     opened (filename, Directory) = true ∧
     get_file_paths_go files min_lines paths = Raise (IsADirectoryError filename)).
Proof.
  revert paths. induction files as [|[filename entry] files IH]; intros paths.
  { left. split; [done|]. simpl. by rewrite app_nil_r. }
  cbn [get_file_paths_go]. rewrite filter_cons.
  destruct (endswith filename ".md") eqn:Hmd; cbn [negb];
    [destruct (startswith filename ".") eqn:Hdot;
       [|destruct entry as [lines|];
           [destruct (decide (Z.of_nat (length lines) > min_lines)%Z) as [Hlen|Hlen]|]]|].
  - (* hidden *)
    assert (listed min_lines (filename, entry) = false) as Hlisted
      by (unfold listed, opened; simpl; by rewrite Hmd, Hdot).
    assert (opened_directory (filename, entry) = false) as Hdir
      by (unfold opened_directory, opened; simpl; by rewrite Hmd, Hdot).
    rewrite decide_False by (by rewrite Hlisted).
    destruct (IH paths) as [[Hall Hgo]|(f1 & q & f2 & -> & Hall & Hq & Hgo)].
    + left. split; [by constructor|done].
    + right. exists ((filename, entry) :: f1), q, f2.
      split_and!; [done|by constructor|done..].
  - (* a file that is listed *)
    assert (listed min_lines (filename, File lines) = true) as Hlisted
      by (unfold listed, opened; simpl; by rewrite Hmd, Hdot, bool_decide_eq_true_2).
    assert (opened_directory (filename, File lines) = false) as Hdir
      by (unfold opened_directory, opened; simpl; by rewrite Hmd, Hdot).
    rewrite decide_True by done.
    destruct (IH (paths ++ [filename]))
      as [[Hall Hgo]|(f1 & q & f2 & -> & Hall & Hq & Hgo)].
    + left. split; [by constructor|]. rewrite Hgo, <-app_assoc. done.
    + right. exists ((filename, File lines) :: f1), q, f2.
      split_and!; [done|by constructor|done..].
  - (* a file with too few lines *)
    assert (listed min_lines (filename, File lines) = false) as Hlisted
      by (unfold listed, opened; simpl; by rewrite Hmd, Hdot, bool_decide_eq_false_2).
    assert (opened_directory (filename, File lines) = false) as Hdir
      by (unfold opened_directory, opened; simpl; by rewrite Hmd, Hdot).
    rewrite decide_False by (by rewrite Hlisted).
    destruct (IH paths) as [[Hall Hgo]|(f1 & q & f2 & -> & Hall & Hq & Hgo)].
    + left. split; [by constructor|done].
    + right. exists ((filename, File lines) :: f1), q, f2.
      split_and!; [done|by constructor|done..].
  - (* a directory *)
    right. exists [], filename, files. split_and!; [done..| |done].
    unfold opened. simpl. by rewrite Hmd, Hdot.
  - (* another name *)
    assert (listed min_lines (filename, entry) = false) as Hlisted
      by (unfold listed, opened; simpl; by rewrite Hmd).
    assert (opened_directory (filename, entry) = false) as Hdir
      by (unfold opened_directory, opened; simpl; by rewrite Hmd).
    rewrite decide_False by (by rewrite Hlisted).
    destruct (IH paths) as [[Hall Hgo]|(f1 & q & f2 & -> & Hall & Hq & Hgo)].
    + left. split; [by constructor|done].
    + right. exists ((filename, entry) :: f1), q, f2.
      split_and!; [done|by constructor|done..].
Qed.

Lemma get_file_paths_Ok vault_path min_lines paths :
  get_file_paths vault_path min_lines = Ok paths →
  Forall (λ file, opened_directory file = false) vault_path ∧
  paths = (filter (λ file, listed min_lines file = true) vault_path).*1.
Proof.
  unfold get_file_paths.
  destruct (get_file_paths_go_outcome vault_path min_lines [])
    as [[Hall Hgo]|(f1 & q & f2 & _ & _ & _ & Hgo)]; rewrite Hgo; [|done].
  intros [= <-]. done.
Qed.

Lemma elem_of_get_file_paths vault_path min_lines paths filename :
  get_file_paths vault_path min_lines = Ok paths →
  filename ∈ paths →
  endswith filename ".md" = true ∧ startswith filename "." = false ∧
  ∃ lines, (filename, File lines) ∈ vault_path ∧
           (Z.of_nat (length lines) > min_lines)%Z.
Proof.
  intros [_ ->]%get_file_paths_Ok ([f entry] & -> & Hin)%list_elem_of_fmap.
  apply list_elem_of_filter in Hin as [Hlisted Hin].
  unfold listed, opened in Hlisted. simpl in *.
  apply andb_true_iff in Hlisted as [[Hmd Hdot]%andb_true_iff Hlen].
  apply negb_true_iff in Hdot. destruct entry as [lines|]; [|done].
  apply bool_decide_eq_true in Hlen. split_and!; [done..|]. by exists lines.
Qed.

(** A path that [get_file_paths] lists can be opened. *)
Lemma listed_path_readable vault_path min_lines paths filename :
  get_file_paths vault_path min_lines = Ok paths →
  filename ∈ paths →
  ∃ lines, readlines vault_path filename = Ok lines.
Proof.
  intros Hpaths Hin.
  destruct (elem_of_get_file_paths _ _ _ _ Hpaths Hin) as (Hmd & Hdot & ls & Hls & _).
  apply get_file_paths_Ok in Hpaths as [Hall _].
  destruct (dict_get vault_path filename) as [entry|] eqn:Hentry.
  - pose proof (dict_get_Some_elem_of _ _ _ Hentry) as Hfile.
    apply (proj1 (Forall_forall _ _) Hall) in Hfile.
    unfold opened_directory, opened in Hfile. simpl in Hfile.
    rewrite Hmd, Hdot in Hfile. destruct entry as [lines|]; [|done].
    exists lines. by apply readlines_Ok.
  - apply dict_get_None in Hentry. destruct Hentry.
    by apply (list_elem_of_fmap_2 fst) in Hls.
Qed.

Lemma add_chunks_assign vault filename items :
  add_chunks vault filename items =
    assign_all vault
      ((λ item, (chunk_key filename item.1, chunk_record filename item.2)) <$> items).
Proof.
  revert vault. induction items as [|[k c] items IH]; intros vault; [done|].
  simpl. by rewrite IH.
Qed.

Lemma assign_all_app vault kvs1 kvs2 :
  assign_all vault (kvs1 ++ kvs2) = assign_all (assign_all vault kvs1) kvs2.
Proof. apply foldl_app. Qed.

Lemma create_vault_dict_go_assign vault_path paths vault :
  Forall (λ p, ∃ lines, readlines vault_path p = Ok lines) paths →
  create_vault_dict_go vault_path paths vault =
    Ok (assign_all vault (concat (records_of vault_path <$> paths))).
Proof.
  intros Hpaths. revert vault.
  induction Hpaths as [|filename paths [lines Hlines] _ IH]; intros vault; [done|].
  cbn [create_vault_dict_go]. rewrite Hlines, fmap_cons, concat_cons, assign_all_app.
  unfold records_of at 1. rewrite Hlines. cbn zeta.
  destruct (decide (0 < length (chunk_doc_to_dict lines 3))%nat).
  - rewrite IH, add_chunks_assign. done.
  - by rewrite IH.
Qed.

Lemma assign_all_NoDup vault kvs : NoDup vault.*1 → NoDup (assign_all vault kvs).*1.
Proof.
  revert vault. induction kvs as [|[k d] kvs IH]; intros vault Hv; [done|].
  simpl. by apply IH, dict_set_NoDup.
Qed.

Lemma dict_get_assign_all_fresh vault kvs key :
  key ∉ kvs.*1 → dict_get (assign_all vault kvs) key = dict_get vault key.
Proof.
  revert vault. induction kvs as [|[k d] kvs IH]; intros vault; [done|].
  rewrite fmap_cons, not_elem_of_cons. simpl. intros [Hne Hkey].
  rewrite IH by done. rewrite dict_get_set. by rewrite decide_False.
Qed.

(** A key to which every assignment of the run gives the same record ends up
    with that record. *)
Lemma dict_get_assign_all_agree vault kvs key d :
  (key, d) ∈ kvs → (∀ d', (key, d') ∈ kvs → d' = d) →
  dict_get (assign_all vault kvs) key = Some d.
Proof.
  revert vault. induction kvs as [|[k0 d0] kvs IH]; intros vault Hin Hagree.
  - by apply elem_of_nil in Hin.
  - simpl. destruct (decide (key ∈ kvs.*1)) as [Hlater|Hlast].
    + apply list_elem_of_fmap in Hlater as ([k' d'] & -> & Hin').
      simpl in *. rewrite (Hagree d') in Hin' by (by right).
      apply IH; [done|]. intros d'' Hd''. apply Hagree. by right.
    + rewrite dict_get_assign_all_fresh by done. rewrite dict_get_set.
      apply elem_of_cons in Hin as [[= -> ->]|Hin].
      * by rewrite decide_True.
      * destruct Hlast. by apply (list_elem_of_fmap_2 fst) in Hin.
Qed.

Lemma elem_of_dict_set {K V} `{EqDecision K} (d : dict K V) k v k' v' :
  (k', v') ∈ dict_set d k v → (k', v') ∈ d ∨ (k', v') = (k, v).
Proof.
  induction d as [|[k0 v0] d IH]; simpl.
  - intros ->%list_elem_of_singleton. by right.
  - case_decide as Hk; subst.
    + intros [-> |Hin]%elem_of_cons; [by right|]. left. by right.
    + intros [-> |Hin]%elem_of_cons; [left; left|].
      destruct (IH Hin) as [?|?]; [left; by right|by right].
Qed.

Lemma elem_of_assign_all vault kvs key d :
  (key, d) ∈ assign_all vault kvs → (key, d) ∈ vault ∨ (key, d) ∈ kvs.
Proof.
  revert vault. induction kvs as [|[k0 d0] kvs IH]; intros vault; simpl; [auto|].
  intros [Hin|Hin]%IH; [|right; by right].
  apply elem_of_dict_set in Hin as [?| ->]; [by left|right; left].
Qed.

(** The records assigned for a path all carry that path, and are the
    whole-document record or one of the chunk records. *)
Lemma elem_of_records_of vault_path g key d :
  (key, d) ∈ records_of vault_path g →
  ∃ lines, readlines vault_path g = Ok lines ∧ Doc.path d = g ∧
    chunk_doc_to_dict lines 3 ≠ [] ∧
    ((key = g ∧ d = doc_record g lines) ∨
     (∃ k c, (k, c) ∈ chunk_doc_to_dict lines 3 ∧
             key = chunk_key g k ∧ d = chunk_record g c)).
Proof.
  unfold records_of. destruct (readlines vault_path g) as [lines|e]; cbn zeta.
  - case_decide as Hlen; [|by intros ?%elem_of_nil].
    intros Hin. exists lines. split; [done|].
    assert (chunk_doc_to_dict lines 3 ≠ []) as Hne.
    { intros Heq. rewrite Heq in Hlen. simpl in Hlen. lia. }
    apply elem_of_cons in Hin as [[= -> ->]|Hin].
    + split_and!; [done..|]. by left.
    + apply list_elem_of_fmap in Hin as ([k c] & [= -> ->] & Hin).
      split_and!; [done..|]. right. by exists k, c.
  - by intros ?%elem_of_nil.
Qed.

Lemma filter_none {A} (P : A → Prop) `{∀ x, Decision (P x)} (l : list A) :
  (∀ y, y ∈ l → ¬ P y) → filter P l = [].
Proof.
  induction l as [|a l IH]; intros Hl; [done|].
  rewrite filter_cons, decide_False by (apply Hl; left).
  apply IH. intros y Hy. apply Hl. by right.
Qed.

Lemma filter_unique {A} (P : A → Prop) `{∀ x, Decision (P x)} (l : list A) x :
  NoDup l → x ∈ l → P x → (∀ y, y ∈ l → P y → y = x) → filter P l = [x].
Proof.
  induction l as [|a l IH]; intros Hnd Hx HP Huniq.
  - by apply elem_of_nil in Hx.
  - apply NoDup_cons in Hnd as [Ha Hnd]. rewrite filter_cons.
    destruct (decide (P a)) as [HPa|HPa].
    + assert (a = x) as -> by (apply Huniq; [left|done]).
      f_equal. apply filter_none. intros y Hy HPy.
      assert (y = x) as -> by (apply Huniq; [by right|done]). done.
    + apply elem_of_cons in Hx as [-> |Hx]; [done|].
      apply IH; [done..|]. intros y Hy. apply Huniq. by right.
Qed.

Lemma elem_of_all_records vault_path paths key d :
  (key, d) ∈ concat (records_of vault_path <$> paths) ↔
    ∃ g, g ∈ paths ∧ (key, d) ∈ records_of vault_path g.
Proof.
  induction paths as [|p paths IH].
  - simpl. split; [by intros ?%elem_of_nil|]. by intros (g & ?%elem_of_nil & _).
  - rewrite fmap_cons, concat_cons, elem_of_app, IH. split.
    + intros [Hp|(g & Hg & Hin)]; [exists p; split; [left|done]|].
      exists g. split; [by right|done].
    + intros (g & [-> |Hg]%elem_of_cons & Hin); [by left|]. right. by exists g.
Qed.

Lemma records_of_nonempty vault_path filename lines :
  readlines vault_path filename = Ok lines →
  chunk_doc_to_dict lines 3 ≠ [] →
  records_of vault_path filename =
    (filename, doc_record filename lines) ::
    ((λ item, (chunk_key filename item.1, chunk_record filename item.2))
       <$> chunk_doc_to_dict lines 3).
Proof.
  intros Hlines Hne. unfold records_of. rewrite Hlines. cbn zeta.
  rewrite decide_True; [done|].
  destruct (chunk_doc_to_dict lines 3); [done|simpl; lia].
Qed.

(** C9, as the code has it: a document that passes the minimum-line filter and
    yields at least one chunk gets exactly one whole-document record (type
    ["doc"], stored under its path) next to one record per chunk (type
    ["chunk"], stored under path, dash, chunk number); a document that yields
    no chunk gets no record at all. *)
Theorem create_vault_dict_document_records (vault_path : filesystem)
    (min_lines : Z) (paths : list string) (filename : string)
    (lines : list string) :
  get_file_paths vault_path min_lines = Ok paths →
  filename ∈ paths →
  dict_get vault_path filename = Some (File lines) →
  ∃ vault,
    create_vault_dict vault_path paths = Ok vault ∧
    document_records vault filename lines.
Proof.
  intros Hpaths Hfile Hlines%readlines_Ok.
  set (kvs := concat (records_of vault_path <$> paths)).
  assert (∀ g, g ∈ paths → endswith g ".md" = true) as Hmd.
  { intros g Hg. by apply (elem_of_get_file_paths _ _ _ _ Hpaths) in Hg as (? & _). }
  assert (create_vault_dict vault_path paths = Ok (assign_all [] kvs)) as Hrun.
  { apply create_vault_dict_go_assign, Forall_forall. intros g Hg.
    by eapply listed_path_readable. }
  exists (assign_all [] kvs). split; [done|].
  pose proof (chunk_doc_to_dict_NoDup lines 3) as Hchunks.
  assert (NoDup (assign_all [] kvs).*1) as Hkeys
    by (apply assign_all_NoDup; constructor).
  assert (∀ key d, (key, d) ∈ assign_all [] kvs → Doc.path d = filename →
            (key = filename ∧ d = doc_record filename lines ∧
             chunk_doc_to_dict lines 3 ≠ []) ∨
            (∃ k c, (k, c) ∈ chunk_doc_to_dict lines 3 ∧
                    key = chunk_key filename k ∧ d = chunk_record filename c))
    as Hclass.
  { intros key d Hin Hpath.
    apply elem_of_assign_all in Hin as [Hin|Hin]; [by apply elem_of_nil in Hin|].
    apply elem_of_all_records in Hin as (g & Hg & Hin).
    apply elem_of_records_of in Hin as (ls & Hls & Hpath' & Hne & Hcase).
    rewrite Hpath in Hpath'. subst g. rewrite Hlines in Hls. injection Hls as <-.
    destruct Hcase as [[-> ->]|(k & c & Hkc & -> & ->)]; [by left|].
    right. by exists k, c. }
  split_and!; [done|done| |].
  - intros Hne. pose proof (records_of_nonempty _ _ _ Hlines Hne) as Hrec.
    assert (dict_get (assign_all [] kvs) filename
            = Some (doc_record filename lines)) as Hdoc.
    { apply dict_get_assign_all_agree.
      * apply elem_of_all_records. exists filename. split; [done|].
        rewrite Hrec. left.
      * intros d' (g & Hg & Hin)%elem_of_all_records.
        apply elem_of_records_of in Hin as (ls & Hls & _ & _ & Hcase).
        destruct Hcase as [[-> ->]|(k & c & _ & Hkey & _)].
        -- rewrite Hlines in Hls. by injection Hls as <-.
        -- by apply chunk_key_not_md in Hkey; [|apply Hmd]. }
    split_and!; [|done|].
    + apply filter_unique.
      * by apply NoDup_fmap_1 in Hkeys.
      * by apply dict_get_Some_elem_of.
      * done.
      * intros [key d] Hin [Htype Hpath]. simpl in *.
        destruct (Hclass key d Hin Hpath) as [(-> & -> & _)|(k & c & _ & _ & ->)];
          done.
    + intros k c Hkc. apply dict_get_assign_all_agree.
      * apply elem_of_all_records. exists filename. split; [done|].
        rewrite Hrec. right.
        apply list_elem_of_fmap. exists (k, c). split; [done|].
        by apply dict_get_Some_elem_of.
      * intros d' (g & Hg & Hin)%elem_of_all_records.
        apply elem_of_records_of in Hin as (ls & Hls & _ & _ & Hcase).
        destruct Hcase as [[Hkey ->]|(j & c' & Hjc & Hkey & ->)].
        -- symmetry in Hkey. by apply chunk_key_not_md in Hkey; [|apply Hmd].
        -- apply chunk_key_inj in Hkey as [-> ->].
           rewrite Hlines in Hls. injection Hls as <-.
           apply elem_of_dict_get in Hjc; [|done]. congruence.
  - intros Hempty. apply filter_none. intros [key d] Hin Hpath. simpl in *.
    destruct (Hclass key d Hin Hpath) as [(_ & _ & Hne)|(k & c & Hkc & _)]; [done|].
    rewrite Hempty in Hkc. by apply elem_of_nil in Hkc.
Qed.

Lemma create_vault_dict_document_records_witness :
  ∃ vault,
    create_vault_dict sample_files ["bullets.md"; "notes.md"] = Ok vault ∧
    document_records vault "notes.md" two_sections.
Proof.
  apply (create_vault_dict_document_records sample_files 5
           ["bullets.md"; "notes.md"] "notes.md" two_sections).
  - reflexivity.
  - right. left.
  - reflexivity.
Defined.

(** C9 as stated fails: the six bullets of [bullets.md] pass the minimum-line
    filter, but none of its chunks reaches three lines, and the vault gets no
    record for it, the whole-document record included. *)
Lemma document_without_chunks_left_out :
  get_file_paths sample_files 5 = Ok ["bullets.md"; "notes.md"] ∧
  result_map (fmap fst)
    (paths ←r get_file_paths sample_files 5; create_vault_dict sample_files paths)
    = Ok ["notes.md"; "notes.md-0"; "notes.md-1"].
Proof. split; reflexivity. Qed.

(** * Further properties of the code *)

(** ** [src/app.py]: parsing the responses *)

Lemma enumerate_from_lookup {A} (start : Z) (l : list A) (i : nat) :
  enumerate_from start l !! i = (λ x, ((start + Z.of_nat i)%Z, x)) <$> l !! i.
Proof.
  revert start i. induction l as [|x l IH]; intros start i; [done|].
  destruct i as [|i]; simpl.
  - by rewrite Z.add_0_r.
  - rewrite IH. destruct (l !! i); simpl; [|done]. do 2 f_equal. lia.
Qed.

Lemma enumerate_from_length {A} (start : Z) (l : list A) :
  length (enumerate_from start l) = length l.
Proof. by rewrite <-(enumerate_from_snd start l) at 2; rewrite length_fmap. Qed.

(** [parse_os_response] keeps the ids in the order of the response and gives
    each hit its position as rank, counted from 0. *)
Theorem parse_os_response_positions (response_hits : list string) (i : nat) :
  parse_os_response response_hits !! i =
    (λ cid, Hit.mk cid (Z.of_nat i)) <$> response_hits !! i.
Proof.
  unfold parse_os_response, enumerate.
  rewrite list_lookup_fmap, enumerate_from_lookup.
  by destruct (response_hits !! i).
Qed.

Lemma parse_semantic_go_Raise index rows hits e :
  parse_semantic_go index rows hits = Raise e ↔
    ∃ l1 row l2, rows = l1 ++ row :: l2 ∧
      Forall (λ r, is_Some (dict_get index r.2)) l1 ∧
      dict_get index row.2 = None ∧ e = KeyErrorInt row.2.
Proof.
  split.
  - revert hits. induction rows as [|[rank idx] rows IH]; intros hits; simpl; [done|].
    destruct (dict_get index idx) as [cid|] eqn:Hidx.
    + intros (l1 & row & l2 & -> & Hl1 & Hrow & ->)%IH.
      exists ((rank, idx) :: l1), row, l2. split_and!; [done| |done..].
      constructor; [simpl; by rewrite Hidx|done].
    + intros [= <-]. by exists [], (rank, idx), rows.
  - intros (l1 & [rank idx] & l2 & -> & Hl1 & Hrow & ->). revert hits.
    induction Hl1 as [|[rank' idx'] l1 [cid Hcid] _ IH]; intros hits; simpl in *.
    + by rewrite Hrow.
    + rewrite Hcid. apply IH.
Qed.

Lemma enumerate_from_app {A} (start : Z) (l1 l2 : list A) :
  enumerate_from start (l1 ++ l2) =
    enumerate_from start l1 ++ enumerate_from (start + Z.of_nat (length l1)) l2.
Proof.
  revert start. induction l1 as [|x l1 IH]; intros start; simpl.
  - by rewrite Z.add_0_r.
  - rewrite IH. do 3 f_equal. lia.
Qed.

Lemma enumerate_from_split {A} (start : Z) (l : list A) rows1 row rows2 :
  enumerate_from start l = rows1 ++ row :: rows2 →
  l = rows1.*2 ++ row.2 :: rows2.*2.
Proof.
  intros Heq. rewrite <-(enumerate_from_snd start l), Heq.
  by rewrite fmap_app, fmap_cons.
Qed.

(** [parse_semantic_response] returns exactly when every row index is a key of
    the mapping, with one hit per index, in order, ranked by position; it
    raises the lookup error of the first row index that is not a key. *)
Theorem parse_semantic_response_outcome (indices : list nat)
    (embedding_index : dict nat string) :
  (∀ hits, parse_semantic_response indices embedding_index = Ok hits ↔
     length hits = length indices ∧
     ∀ (i : nat) idx, indices !! i = Some idx →
       ∃ cid, dict_get embedding_index idx = Some cid ∧
              hits !! i = Some (Hit.mk cid (Z.of_nat i))) ∧
  (∀ e, parse_semantic_response indices embedding_index = Raise e ↔
     ∃ l1 idx l2, indices = l1 ++ idx :: l2 ∧
       Forall (λ i, is_Some (dict_get embedding_index i)) l1 ∧
       dict_get embedding_index idx = None ∧ e = KeyErrorInt idx).
Proof.
  assert (∀ hits, parse_semantic_response indices embedding_index = Ok hits →
            length hits = length indices ∧
            ∀ (i : nat) idx, indices !! i = Some idx →
              ∃ cid, dict_get embedding_index idx = Some cid ∧
                     hits !! i = Some (Hit.mk cid (Z.of_nat i))) as Hfwd.
  { intros hits (new & -> & Hnew)%parse_semantic_go_Ok. simpl. split.
    - rewrite <-(Forall2_length _ _ _ Hnew). apply enumerate_from_length.
    - intros i idx Hi.
      assert (enumerate indices !! i = Some (Z.of_nat i, idx)) as Hrow.
      { unfold enumerate. by rewrite enumerate_from_lookup, Hi. }
      destruct (Forall2_lookup_l _ _ _ _ _ Hnew Hrow) as ([cid rank] & Hh & Hcid & Hrank).
      simpl in *. subst rank. by exists cid. }
  split.
  - intros hits. split; [apply Hfwd|]. intros [Hlen Hhits].
    assert (Forall (λ row : Z * nat, is_Some (dict_get embedding_index row.2))
              (enumerate indices)) as Hknown.
    { apply Forall_forall. intros [rank idx] Hin.
      apply (list_elem_of_fmap_2 snd) in Hin. unfold enumerate in Hin.
      rewrite enumerate_from_snd in Hin. simpl in Hin.
      apply list_elem_of_lookup in Hin as [i Hi].
      destruct (Hhits i idx Hi) as (cid & Hcid & _). simpl. by rewrite Hcid. }
    destruct (parse_semantic_go_known embedding_index _ [] Hknown) as [hits' Hrun].
    unfold parse_semantic_response. rewrite Hrun. f_equal.
    destruct (Hfwd hits' Hrun) as [Hlen' Hhits'].
    apply list_eq_same_length with (length indices); [done..|].
    intros i h h' Hi Hh' Hh.
    destruct (lookup_lt_is_Some_2 indices i Hi) as [idx Hidx].
    destruct (Hhits i idx Hidx) as (cid & Hcid & Hhi).
    destruct (Hhits' i idx Hidx) as (cid' & Hcid' & Hhi'). congruence.
  - intros e. unfold parse_semantic_response. rewrite parse_semantic_go_Raise. split.
    + intros (rows1 & [rank idx] & rows2 & Hsplit & Hl1 & Hrow & ->).
      exists rows1.*2, idx, rows2.*2. split_and!; [|by apply Forall_fmap|done..].
      by apply enumerate_from_split in Hsplit.
    + intros (l1 & idx & l2 & -> & Hl1 & Hidx & ->). unfold enumerate.
      rewrite enumerate_from_app. simpl.
      eexists _, (_, idx), _. split_and!; [done| |done..].
      apply Forall_forall. intros [rank i] Hin.
      apply (list_elem_of_fmap_2 snd) in Hin. rewrite enumerate_from_snd in Hin.
      by apply (proj1 (Forall_forall _ _) Hl1).
Qed.

(** ** [src/app.py]: the budget and the order of the hits *)

Section budget_facts.
Variable num_tokens_from_string : string → nat.
Variable vault : dict string Doc.t.

Local Abbreviation tokens := (chunk_tokens num_tokens_from_string vault).
Local Abbreviation cumul := (cumulative_tokens num_tokens_from_string vault).
Local Abbreviation entry := (context_entry vault).
Local Abbreviation known := (λ cid, is_Some (dict_get vault cid)).
Local Abbreviation loop := (assemble num_tokens_from_string vault).
Local Abbreviation run_within := (run_within num_tokens_from_string vault).

(** A returned list holds the entries of ids taken while the running total
    stayed within the budget. *)
Lemma assemble_Ok_within max_tokens ids t chunks out :
  loop max_tokens ids t chunks = Ok out →
  ∃ k : nat, Forall known (take k ids) ∧ run_within max_tokens t (take k ids) ∧
    out = chunks ++ omap entry (take k ids).
Proof.
  revert t chunks out. induction ids as [|cid ids IH]; intros t chunks out; simpl.
  - intros [= <-]. exists 0. by rewrite app_nil_r.
  - destruct (dict_get vault cid) as [doc|] eqn:Hdoc; [|done].
    case_decide as Hover.
    + intros [= <-]. exists 0. simpl. by rewrite app_nil_r.
    + intros (k & Hknown & Hrun & ->)%IH. exists (S k).
      split; [|split].
      * simpl. constructor; eauto.
      * simpl. unfold chunk_tokens at 1 2. rewrite Hdoc. split; [lia|done].
      * simpl. rewrite (entry_known _ _ _ Hdoc). by rewrite <-app_assoc.
Qed.

Lemma output_tokens_entries l :
  Forall known l →
  output_tokens num_tokens_from_string (omap entry l) = cumul l.
Proof.
  induction 1 as [|cid l [doc Hdoc] _ IH]; [done|].
  change (omap entry (cid :: l))
    with (match entry cid with Some y => y :: omap entry l | None => omap entry l end).
  rewrite (entry_known _ _ _ Hdoc).
  change (output_tokens num_tokens_from_string (?e :: ?es))
    with (Z.of_nat (num_tokens_from_string (Entry.chunk e))
          + output_tokens num_tokens_from_string es)%Z.
  rewrite IH, cumul_cons. f_equal. unfold chunk_tokens. by rewrite Hdoc.
Qed.

Lemma assemble_extends max_tokens ids t chunks out :
  loop max_tokens ids t chunks = Ok out → chunks `prefix_of` out.
Proof. intros (k & _ & _ & ->)%assemble_Ok. by apply prefix_app_r. Qed.

(** With a smaller budget the loop returns a prefix of what it returns with a
    larger one. *)
Lemma assemble_budget_mono max1 max2 ids t chunks out2 :
  (max1 ≤ max2)%Z →
  loop max2 ids t chunks = Ok out2 →
  ∃ out1, loop max1 ids t chunks = Ok out1 ∧ out1 `prefix_of` out2.
Proof.
  intros Hmax. revert t chunks. induction ids as [|cid ids IH]; intros t chunks; simpl.
  - intros [= <-]. by exists chunks.
  - destruct (dict_get vault cid) as [doc|] eqn:Hdoc; [|done].
    destruct (decide (t + Z.of_nat (num_tokens_from_string (Doc.chunk doc)) > max2)%Z).
    + intros [= <-]. rewrite decide_True by lia. by exists chunks.
    + intros Hout2.
      destruct (decide (t + Z.of_nat (num_tokens_from_string (Doc.chunk doc)) > max1)%Z).
      * exists chunks. split; [done|].
        apply assemble_extends in Hout2.
        etrans; [|done]. by apply prefix_app_r.
      * by apply IH.
Qed.
End budget_facts.

(** Whatever the hits and the vault, a returned context is empty or its texts
    have at most [max_tokens] tokens in total. *)
Theorem get_chunks_within_budget (num_tokens_from_string : string → nat)
    (vault : dict string Doc.t) (hits : list Hit.t) (max_tokens : Z)
    (out : list Entry.t) :
  get_chunks_from_hits num_tokens_from_string vault hits max_tokens = Ok out →
  out = [] ∨ (output_tokens num_tokens_from_string out ≤ max_tokens)%Z.
Proof.
  unfold get_chunks_from_hits. destruct (ranked_ids hits) as [ids|e]; [|done]. simpl.
  intros (k & Hknown & Hrun & ->)%assemble_Ok_within. simpl.
  rewrite output_tokens_entries by done.
  apply run_within_iff in Hrun as [->|Hfit]; [by left|]. right. lia.
Qed.

Lemma get_chunks_within_budget_witness :
  [Entry.mk "a.md" "aaaaa"; Entry.mk "b.md" "bbbbb"] = [] ∨
  (output_tokens char_tokens [Entry.mk "a.md" "aaaaa"; Entry.mk "b.md" "bbbbb"]
   ≤ 10)%Z.
Proof.
  apply (get_chunks_within_budget char_tokens scenario_vault scenario_hits 10).
  reflexivity.
Defined.

(** Lowering the budget only shortens the context: if the call returns with
    the budget [max2], it returns with any smaller budget [max1] too, and then
    returns a prefix of the former context. *)
Theorem get_chunks_budget_monotone (num_tokens_from_string : string → nat)
    (vault : dict string Doc.t) (hits : list Hit.t) (max1 max2 : Z)
    (out2 : list Entry.t) :
  (max1 ≤ max2)%Z →
  get_chunks_from_hits num_tokens_from_string vault hits max2 = Ok out2 →
  ∃ out1,
    get_chunks_from_hits num_tokens_from_string vault hits max1 = Ok out1 ∧
    out1 `prefix_of` out2.
Proof.
  intros Hmax. unfold get_chunks_from_hits.
  destruct (ranked_ids hits) as [ids|e]; [|done]. simpl.
  by apply assemble_budget_mono.
Qed.

Lemma get_chunks_budget_monotone_witness :
  ∃ out1,
    get_chunks_from_hits char_tokens scenario_vault scenario_hits 7 = Ok out1 ∧
    out1 `prefix_of` [Entry.mk "a.md" "aaaaa"; Entry.mk "b.md" "bbbbb"].
Proof.
  apply (get_chunks_budget_monotone char_tokens scenario_vault scenario_hits 7 10).
  - lia.
  - reflexivity.
Defined.

Lemma key_le_trans : Transitive key_le.
Proof. intros x y z. unfold key_le. apply (transitivity (R := String.le)). Qed.

Lemma key_le_total : Total key_le.
Proof. intros x y. unfold key_le. apply (total String.le). Qed.

Lemma group_sum_Permutation (df1 df2 : frame) :
  df1 ≡ₚ df2 → group_sum df1 ≡ₚ group_sum df2.
Proof.
  intros Hperm. apply NoDup_Permutation.
  - eapply NoDup_fmap_1, group_sum_NoDup.
  - eapply NoDup_fmap_1, group_sum_NoDup.
  - intros [k s]. rewrite !elem_of_group_sum.
    assert (scores_for k df1 ≡ₚ scores_for k df2) as Hscores.
    { unfold scores_for. by rewrite Hperm. }
    by rewrite (int64_sum_Permutation _ _ Hscores), Hperm.
Qed.

(** Grouping does not depend on the order of the rows. *)
Lemma groupby_sum_Permutation (df1 df2 : frame) :
  df1 ≡ₚ df2 → groupby_sum df1 = groupby_sum df2.
Proof.
  intros Hperm. unfold groupby_sum.
  apply (StronglySorted_unique_strong key_le).
  - intros [k1 s1] [k2 s2] Hin1 Hin2 Hle1 Hle2. unfold key_le in *. simpl in *.
    assert (k1 = k2) as -> by (by apply (anti_symm String.le)).
    rewrite stable_sort_Permutation in Hin1, Hin2.
    rewrite (group_sum_Permutation _ _ Hperm) in Hin1.
    apply elem_of_group_sum in Hin1 as [_ ->].
    by apply elem_of_group_sum in Hin2 as [_ ->].
  - apply (@StronglySorted_stable_sort _ key_le _ key_le_trans key_le_total).
  - apply (@StronglySorted_stable_sort _ key_le _ key_le_trans key_le_total).
  - rewrite !stable_sort_Permutation. by apply group_sum_Permutation.
Qed.

Lemma ranked_Permutation_eq (hits1 hits2 : list Hit.t) :
  hits1 ≡ₚ hits2 → ranked hits1 = ranked hits2.
Proof.
  intros Hperm. destruct hits1 as [|h1 hits1].
  - by apply Permutation_nil in Hperm as ->.
  - destruct hits2 as [|h2 hits2]; [by apply Permutation_nil_r in Hperm|].
    rewrite !ranked_nonempty by done. do 2 f_equal.
    apply groupby_sum_Permutation. unfold scored. by rewrite Hperm.
Qed.

(** The context depends on the hits as a collection only: listing the hits in
    another order, for instance the semantic ones before those of opensearch,
    gives the same ranking and the same context. *)
Theorem get_chunks_hits_order_irrelevant (num_tokens_from_string : string → nat)
    (vault : dict string Doc.t) (hits1 hits2 : list Hit.t) (max_tokens : Z) :
  hits1 ≡ₚ hits2 →
  ranked hits1 = ranked hits2 ∧
  get_chunks_from_hits num_tokens_from_string vault hits1 max_tokens =
    get_chunks_from_hits num_tokens_from_string vault hits2 max_tokens.
Proof.
  intros Hperm. pose proof (ranked_Permutation_eq _ _ Hperm) as Hranked.
  split; [done|]. unfold get_chunks_from_hits, ranked_ids. by rewrite Hranked.
Qed.

Lemma get_chunks_hits_order_irrelevant_witness :
  ranked ([Hit.mk "A" 0; Hit.mk "C" 1] ++ [Hit.mk "B" 0; Hit.mk "A" 1]) =
    ranked ([Hit.mk "B" 0; Hit.mk "A" 1] ++ [Hit.mk "A" 0; Hit.mk "C" 1]) ∧
  get_chunks_from_hits char_tokens scenario_vault
    ([Hit.mk "A" 0; Hit.mk "C" 1] ++ [Hit.mk "B" 0; Hit.mk "A" 1]) 10 =
  get_chunks_from_hits char_tokens scenario_vault
    ([Hit.mk "B" 0; Hit.mk "A" 1] ++ [Hit.mk "A" 0; Hit.mk "C" 1]) 10.
Proof.
  apply (get_chunks_hits_order_irrelevant char_tokens scenario_vault).
  apply Permutation_app_comm.
Defined.

(** ** [src/app.py]: the route [get_chunks] *)

Lemma parse_os_response_ids (response_hits : list string) :
  Hit.id <$> parse_os_response response_hits = response_hits.
Proof.
  unfold parse_os_response, enumerate. rewrite <-list_fmap_compose.
  rewrite <-(enumerate_from_snd 0 response_hits) at 2. done.
Qed.

Lemma enumerate_from_ranks {A} (start : Z) (l : list A) :
  Forall (λ row, (start ≤ row.1 < start + Z.of_nat (length l))%Z)
    (enumerate_from start l).
Proof.
  revert start. induction l as [|x l IH]; intros start; simpl; constructor.
  - simpl. lia.
  - eapply Forall_impl; [apply IH|]. simpl. intros row ?. lia.
Qed.

Lemma parse_os_response_ranks (response_hits : list string) :
  Forall (λ h, (0 ≤ Hit.rank h < Z.of_nat (length response_hits))%Z)
    (parse_os_response response_hits).
Proof.
  unfold parse_os_response, enumerate. apply Forall_fmap.
  eapply Forall_impl; [apply (enumerate_from_ranks 0)|]. simpl. intros row ?. lia.
Qed.

Lemma parsed_ranks index (indices : list nat) new :
  Forall2 (λ (row : Z * nat) h,
             dict_get index row.2 = Some (Hit.id h) ∧ Hit.rank h = row.1)
    (enumerate indices) new →
  Forall (λ h, (0 ≤ Hit.rank h < Z.of_nat (length indices))%Z) new.
Proof.
  intros Hnew. apply Forall_forall. intros h Hh.
  apply list_elem_of_lookup in Hh as [k Hk].
  destruct (Forall2_lookup_r _ _ _ _ _ Hnew Hk) as (row & Hrow & _ & ->).
  apply list_elem_of_lookup_2 in Hrow.
  pose proof (proj1 (Forall_forall _ _) (enumerate_from_ranks 0 indices) row Hrow)
    as Hbound.
  simpl in Hbound. lia.
Qed.

Lemma combined_score_cons h hits cid :
  combined_score (h :: hits) cid =
    ((if decide (Hit.id h = cid) then 10 - Hit.rank h else 0)
     + combined_score hits cid)%Z.
Proof.
  unfold combined_score. rewrite filter_cons.
  by destruct (decide (Hit.id h = cid)).
Qed.

Lemma combined_score_app hits1 hits2 cid :
  combined_score (hits1 ++ hits2) cid =
    (combined_score hits1 cid + combined_score hits2 cid)%Z.
Proof.
  induction hits1 as [|h hits1 IH]; [done|].
  rewrite <-app_comm_cons, !combined_score_cons, IH. lia.
Qed.

Lemma combined_score_absent hits cid :
  cid ∉ Hit.id <$> hits → combined_score hits cid = 0%Z.
Proof.
  induction hits as [|h hits IH]; [done|].
  rewrite fmap_cons, not_elem_of_cons, combined_score_cons. intros [Hne Hcid].
  rewrite decide_False by done. by rewrite IH.
Qed.

(** What one source adds to the score of an id when it lists no id twice and
    at most ten ids: nothing, or between 1 and 10. *)
Lemma single_source_score hits cid :
  NoDup (Hit.id <$> hits) →
  Forall (λ h, (0 ≤ Hit.rank h < 10)%Z) hits →
  ((cid ∉ (Hit.id <$> hits)) ∧ combined_score hits cid = 0%Z) ∨
  (cid ∈ (Hit.id <$> hits) ∧ (1 ≤ combined_score hits cid ≤ 10)%Z).
Proof.
  induction hits as [|h hits IH]; intros Hnd Hranks.
  - left. split; [apply not_elem_of_nil|done].
  - rewrite fmap_cons in Hnd. apply NoDup_cons in Hnd as [Hh Hnd].
    apply Forall_cons in Hranks as [Hrank Hranks].
    rewrite combined_score_cons, fmap_cons.
    destruct (decide (Hit.id h = cid)) as [<-|Hne].
    + right. split; [left|]. rewrite combined_score_absent by done. lia.
    + destruct (IH Hnd Hranks) as [[Hout Hzero]|[Hin Hscore]].
      * left. split; [|lia]. rewrite not_elem_of_cons. done.
      * right. split; [by right|lia].
Qed.

Section route_facts.
Variable num_tokens_from_string : string → nat.
Variable vault : dict string Doc.t.
Context {vec : Type} (dot : vec → vec → Qc).

(** When the embedding array has a row and every row number is a key of the
    mapping, the semantic source contributes [min(10, rows)] hits, so the list
    of fused hits is not empty; the route can then fail in one way only, on a
    chunk id of one of the two sources that the vault does not have. *)
Theorem get_chunks_route_failure (os_response_hits : list string)
    (query_embedding : vec) (doc_embeddings_array : list vec)
    (embedding_index : dict nat string) :
  doc_embeddings_array ≠ [] →
  (∀ i : nat, (i < length doc_embeddings_array)%nat →
     is_Some (dict_get embedding_index i)) →
  ∃ semantic_hits,
    fusion_input vec dot os_response_hits query_embedding doc_embeddings_array
      embedding_index = Ok (parse_os_response os_response_hits ++ semantic_hits) ∧
    length semantic_hits = Nat.min 10 (length doc_embeddings_array) ∧
    semantic_hits ≠ [] ∧
    ∀ e,
      get_chunks num_tokens_from_string vault vec dot os_response_hits
        query_embedding doc_embeddings_array embedding_index = Raise e →
      ∃ x, e = KeyError x ∧ dict_get vault x = None ∧
        x ∈ Hit.id <$> (parse_os_response os_response_hits ++ semantic_hits).
Proof.
  intros Harr Hkeys.
  set (indices := query_semantic vec dot query_embedding doc_embeddings_array 10).
  assert (length indices = Nat.min 10 (length doc_embeddings_array)) as Hlen.
  { unfold indices. by rewrite query_semantic_length by lia. }
  assert (Forall (λ row : Z * nat, is_Some (dict_get embedding_index row.2))
            (enumerate indices)) as Hknown.
  { apply Forall_forall. intros [rank idx] Hrow. simpl.
    apply (list_elem_of_fmap_2 snd) in Hrow. unfold enumerate in Hrow.
    rewrite enumerate_from_snd in Hrow. simpl in Hrow.
    by apply Hkeys, (query_semantic_bound dot query_embedding _ 10). }
  destruct (parse_semantic_go_known embedding_index _ [] Hknown) as [hits Hhits].
  pose proof Hhits as (new & Hnew & Hrows)%parse_semantic_go_Ok.
  simpl in Hnew. subst new.
  assert (length hits = Nat.min 10 (length doc_embeddings_array)) as Hcount.
  { rewrite <-(Forall2_length _ _ _ Hrows). unfold enumerate.
    by rewrite enumerate_from_length. }
  assert (hits ≠ []) as Hne.
  { intros ->. destruct doc_embeddings_array; [done|]. simpl in Hcount. lia. }
  assert (fusion_input vec dot os_response_hits query_embedding
            doc_embeddings_array embedding_index
          = Ok (parse_os_response os_response_hits ++ hits)) as Hinput.
  { unfold fusion_input, parse_semantic_response. fold indices. by rewrite Hhits. }
  exists hits. split_and!; [done..|].
  intros e. unfold get_chunks. rewrite Hinput. simpl.
  unfold get_chunks_from_hits. rewrite ranked_ids_nonempty.
  - simpl. intros (l1 & x & l2 & Hsplit & -> & Hx & _)%assemble_Raise.
    exists x. split_and!; [done..|]. apply ranked_ids_elem_of.
    rewrite Hsplit. apply elem_of_app. right. left.
  - intros Heq. apply app_eq_nil in Heq as [_ ?]. done.
Qed.

(** With at most ten distinct ids from opensearch, a vault with unique keys
    and an array in lockstep with the mapping built from that vault, every
    combined score in the ranking lies between 1 and 20: no chunk enters the
    ranking with a score of zero or less. *)
Theorem get_chunks_route_scores (os_response_hits : list string)
    (query_embedding : vec) (doc_embeddings_array : list vec)
    (hits : list Hit.t) (r : frame) (cid : string) (s : Z) :
  NoDup os_response_hits →
  (length os_response_hits ≤ 10)%nat →
  NoDup vault.*1 →
  fusion_input vec dot os_response_hits query_embedding doc_embeddings_array
    (build_embedding_index vault) = Ok hits →
  ranked hits = Ok r →
  (cid, s) ∈ r →
  (1 ≤ s ≤ 20)%Z.
Proof.
  intros Hos Hten Hvault Hinput [Hne ->]%ranked_Ok Hin.
  apply ranked_elem_of in Hin as [Hcid ->].
  unfold fusion_input, parse_semantic_response in Hinput.
  set (indices := query_semantic vec dot query_embedding doc_embeddings_array 10)
    in Hinput.
  destruct (parse_semantic_go _ _ _) as [sem|e] eqn:Hsem; [|done].
  simpl in Hinput. injection Hinput as <-.
  apply parse_semantic_go_Ok in Hsem as (new & Hnew & Hrows).
  simpl in Hnew. subst new.
  assert (length indices ≤ 10)%nat as Hcount.
  { unfold indices. rewrite query_semantic_length by lia. lia. }
  assert (NoDup (Hit.id <$> sem)) as Hsemids.
  { eapply parsed_ids_NoDup; [| |done].
    - intros i j c. by apply build_embedding_index_inj.
    - unfold enumerate. rewrite enumerate_from_snd.
      apply (query_semantic_NoDup dot). }
  pose proof (parsed_ranks _ _ _ Hrows) as Hsemranks.
  pose proof (parse_os_response_ranks os_response_hits) as Hosranks.
  assert (Forall (λ h, (0 ≤ Hit.rank h < 10)%Z)
            (parse_os_response os_response_hits)) as Hos10.
  { eapply Forall_impl; [done|]. simpl. intros h ?. lia. }
  assert (Forall (λ h, (0 ≤ Hit.rank h < 10)%Z) sem) as Hsem10.
  { eapply Forall_impl; [done|]. simpl. intros h ?. lia. }
  assert (1 ≤ combined_score (parse_os_response os_response_hits ++ sem) cid ≤ 20)%Z
    as Hbound.
  { rewrite combined_score_app.
    destruct (single_source_score (parse_os_response os_response_hits) cid)
      as [[Hout1 ->]|[Hin1 Hs1]]; [by rewrite parse_os_response_ids|done| |].
    - destruct (single_source_score sem cid) as [[Hout2 _]|[_ Hs2]]; [done..| |lia].
      rewrite fmap_app, elem_of_app in Hcid. by destruct Hcid.
    - destruct (single_source_score sem cid) as [[_ ->]|[_ Hs2]]; [done..|lia|lia]. }
  rewrite frame_score_exact; [done| |].
  - apply Forall_app. split; (eapply Forall_impl; [done|]); intros h Hh;
      simpl in Hh; unfold int64_range, score_of_rank; lia.
  - unfold int64_range. lia.
Qed.
End route_facts.

Lemma get_chunks_route_failure_witness :
  ∃ semantic_hits,
    fusion_input Qc Qcmult sample_os_hits sample_query sample_rows
      (build_embedding_index sample_vault)
      = Ok (parse_os_response sample_os_hits ++ semantic_hits) ∧
    length semantic_hits = Nat.min 10 (length sample_rows) ∧
    semantic_hits ≠ [] ∧
    ∀ e,
      get_chunks char_tokens sample_vault Qc Qcmult sample_os_hits sample_query
        sample_rows (build_embedding_index sample_vault) = Raise e →
      ∃ x, e = KeyError x ∧ dict_get sample_vault x = None ∧
        x ∈ Hit.id <$> (parse_os_response sample_os_hits ++ semantic_hits).
Proof.
  apply (get_chunks_route_failure char_tokens sample_vault Qcmult sample_os_hits
           sample_query sample_rows (build_embedding_index sample_vault)).
  - discriminate.
  - intros i Hi. simpl in Hi.
    do 5 (destruct i as [|i]; [by eexists|]). lia.
Defined.

Lemma get_chunks_route_scores_witness :
  ("n.md-1", 20%Z) ∈
    [("n.md-1", 20%Z); ("n.md-3", 18%Z); ("n.md-4", 8%Z);
     ("n.md-0", 7%Z); ("n.md-2", 6%Z)] ∧
  (1 ≤ 20 ≤ 20)%Z.
Proof.
  split; [left|].
  apply (get_chunks_route_scores sample_vault Qcmult sample_os_hits sample_query
           sample_rows
           [Hit.mk "n.md-1" 0; Hit.mk "n.md-3" 1; Hit.mk "n.md-1" 0;
            Hit.mk "n.md-3" 1; Hit.mk "n.md-4" 2; Hit.mk "n.md-0" 3;
            Hit.mk "n.md-2" 4]
           [("n.md-1", 20%Z); ("n.md-3", 18%Z); ("n.md-4", 8%Z);
            ("n.md-0", 7%Z); ("n.md-2", 6%Z)]
           "n.md-1" 20).
  - apply (bool_decide_unpack _). vm_compute. exact I.
  - simpl. lia.
  - apply (bool_decide_unpack _). vm_compute. exact I.
  - reflexivity.
  - reflexivity.
  - left.
Defined.

(** ** [src/prep/build_semantic_index.py]: index, array and query *)

(** The mapping has the keys 0, 1, ... in order, and its values are the ids of
    the vault entries whose type is not ["doc"], in the order of the vault:
    whole documents are never given a row, every other entry gets one. *)
Theorem build_embedding_index_rows (vault : dict string Doc.t) :
  (build_embedding_index vault).*1 = seq 0 (length (build_embedding_index vault)) ∧
  (build_embedding_index vault).*2 =
    (filter (λ item, Doc.type item.2 ≠ "doc") vault).*1.
Proof.
  rewrite build_embedding_index_length, build_embedding_index_eq.
  fold (embedded_items vault). split.
  - apply fst_zip. by rewrite length_seq, length_fmap.
  - apply snd_zip. by rewrite length_seq, length_fmap.
Qed.

Section array_facts.
Context {vec : Type} (get_batch_embeddings : list string → list vec).

Lemma embed_loop_nothing batch_size items chunk_batch chunks_batched embedding_list :
  embedded_items items = [] →
  embed_loop vec get_batch_embeddings batch_size items chunk_batch chunks_batched
    embedding_list = Ok (chunk_batch, chunks_batched, embedding_list).
Proof.
  induction items as [|[cid doc] items IH]; [done|].
  rewrite embedded_items_cons. cbn [embed_loop].
  destruct (decide (Doc.type doc = "doc")); [done|done].
Qed.

Lemma embed_loop_zero items chunk_batch chunks_batched embedding_list :
  embedded_items items ≠ [] →
  embed_loop vec get_batch_embeddings 0 items chunk_batch chunks_batched
    embedding_list = Raise ZeroDivisionError.
Proof.
  induction items as [|[cid doc] items IH]; [done|].
  rewrite embedded_items_cons. cbn [embed_loop].
  destruct (decide (Doc.type doc = "doc")); [done|]. by rewrite decide_True.
Qed.

(** The two failures of [build_embedding_array]: on a vault without any entry
    to embed, [np.concatenate] gets an empty list and raises, whatever the
    batch size; with an entry to embed and a batch size of 0, the modulo
    raises. *)
Theorem build_embedding_array_failures (vault : dict string Doc.t) (batch_size : Z) :
  (filter (λ item, Doc.type item.2 ≠ "doc") vault = [] →
   build_embedding_array vec get_batch_embeddings vault batch_size
     = Raise (ValueError "need at least one array to concatenate")) ∧
  (filter (λ item, Doc.type item.2 ≠ "doc") vault ≠ [] →
   build_embedding_array vec get_batch_embeddings vault 0 = Raise ZeroDivisionError).
Proof.
  fold (embedded_items vault). split; intros Hitems; unfold build_embedding_array.
  - by rewrite embed_loop_nothing.
  - by rewrite embed_loop_zero.
Qed.
End array_facts.

(** The recording loop with a positive batch size: the open batch stays
    shorter than the batch size, and every recorded batch is full. *)
Lemma embed_loop_batch_sizes batch_size items chunk_batch chunks_batched calls
    chunk_batch' chunks_batched' calls' :
  (0 < batch_size)%Z →
  chunks_batched = Z.of_nat (length chunk_batch) →
  (chunks_batched < batch_size)%Z →
  Forall (λ batch, Z.of_nat (length batch) = batch_size) calls →
  embed_loop string (λ batch, batch) batch_size items chunk_batch chunks_batched calls
    = Ok (chunk_batch', chunks_batched', calls') →
  chunks_batched' = Z.of_nat (length chunk_batch') ∧
  (chunks_batched' < batch_size)%Z ∧
  Forall (λ batch, Z.of_nat (length batch) = batch_size) calls'.
Proof.
  intros Hbs. revert chunk_batch chunks_batched calls.
  induction items as [|[cid doc] items IH]; intros chunk_batch chunks_batched calls
    Hn Hlt Hcalls.
  - intros [= <- <- <-]. done.
  - cbn [embed_loop]. destruct (decide (Doc.type doc = "doc")); [by apply IH|].
    rewrite decide_False by lia.
    assert (Z.of_nat (length (chunk_batch ++ [processed_chunk doc]))
            = chunks_batched + 1)%Z as Hlen.
    { rewrite length_app. simpl. lia. }
    destruct (decide ((chunks_batched + 1) `mod` batch_size = 0)%Z) as [Hfull|Hopen].
    + apply IH; [done|lia|]. apply Forall_app. split; [done|].
      constructor; [|done]. rewrite Hlen.
      destruct (decide (chunks_batched + 1 = batch_size)%Z) as [|Hne]; [done|].
      rewrite Z.mod_small in Hfull by lia. lia.
    + apply IH; [by rewrite Hlen| |done].
      destruct (decide (chunks_batched + 1 = batch_size)%Z) as [Heq|Hne]; [|lia].
      rewrite Heq, Z_mod_same_full in Hopen. done.
Qed.

(** With a positive batch size the embedder is never called on an empty batch
    nor on more than [batch_size] texts, and every call but the last is on
    exactly [batch_size] texts. *)
Theorem embedded_batches_sizes (vault : dict string Doc.t) (batch_size : Z)
    (calls : list (list string)) :
  (0 < batch_size)%Z →
  embedded_batches vault batch_size = Ok calls →
  Forall (λ batch, (1 ≤ Z.of_nat (length batch) ≤ batch_size)%Z) calls ∧
  ∀ (j : nat) batch, (S j < length calls)%nat → calls !! j = Some batch →
    Z.of_nat (length batch) = batch_size.
Proof.
  intros Hbs. unfold embedded_batches.
  destruct (embed_loop string _ batch_size vault [] 0%Z [])
    as [[[b' n'] cs']|e] eqn:Hloop; [|done].
  apply embed_loop_batch_sizes in Hloop as (Hn & Hlt & Hfull); [|done..|constructor].
  simpl. intros [= <-]. case_decide as Hopen.
  - split.
    + apply Forall_app. split.
      * eapply Forall_impl; [done|]. simpl. intros batch ?. lia.
      * constructor; [lia|done].
    + intros j batch Hj Hbatch. rewrite length_app in Hj. simpl in Hj.
      rewrite lookup_app_l in Hbatch by lia.
      apply list_elem_of_lookup_2 in Hbatch.
      by apply (proj1 (Forall_forall _ _) Hfull).
  - split.
    + eapply Forall_impl; [done|]. simpl. intros batch ?. lia.
    + intros j batch _ Hbatch. apply list_elem_of_lookup_2 in Hbatch.
      by apply (proj1 (Forall_forall _ _) Hfull).
Qed.

Lemma embedded_batches_sizes_witness :
  Forall (λ batch, (1 ≤ Z.of_nat (length batch) ≤ 4)%Z)
    [["passage: one"; "passage: two three"; "passage: four"; "passage: five"];
     ["passage: six"]] ∧
  ∀ (j : nat) batch,
    (S j < length
             [["passage: one"; "passage: two three"; "passage: four";
               "passage: five"]; ["passage: six"]])%nat →
    [["passage: one"; "passage: two three"; "passage: four"; "passage: five"];
     ["passage: six"]] !! j = Some batch →
    Z.of_nat (length batch) = 4%Z.
Proof.
  apply (embedded_batches_sizes sample_vault 4).
  - lia.
  - reflexivity.
Defined.

Lemma concat_fmap_fmap {A B} (f : A → B) (ls : list (list A)) :
  concat (fmap (M := list) f <$> ls) = f <$> concat ls.
Proof.
  induction ls as [|l ls IH]; [done|].
  rewrite fmap_cons, !concat_cons, fmap_app, IH. done.
Qed.

(** Batching does not show in the result: with an embedder that treats each
    text by itself, the array is the list of the embeddings of the processed
    texts of the vault, the same for every batch size other than 0. *)
Theorem build_embedding_array_any_batch_size {vec : Type} (embed : string → vec)
    (vault : dict string Doc.t) (batch_size : Z) :
  batch_size ≠ 0%Z →
  filter (λ item, Doc.type item.2 ≠ "doc") vault ≠ [] →
  build_embedding_array vec (fmap embed) vault batch_size =
    Ok (embed <$> (processed_chunk <$>
          (filter (λ item, Doc.type item.2 ≠ "doc") vault).*2)).
Proof.
  intros Hbs Hitems. fold (embedded_items vault) in *.
  fold (embedded_texts vault).
  destruct (embedded_batches_concat vault batch_size Hbs) as (calls & Hcalls & Hcat).
  rewrite (build_embedding_array_batches _ _ _ _ Hcalls).
  assert (calls ≠ []) as Hne.
  { intros ->. simpl in Hcat. unfold embedded_texts in Hcat.
    by destruct (embedded_items vault). }
  unfold np_concatenate. destruct calls as [|batch calls]; [done|].
  by rewrite concat_fmap_fmap, Hcat.
Qed.

Lemma build_embedding_array_any_batch_size_witness :
  build_embedding_array nat (fmap sample_embed) sample_vault 2 =
    Ok (sample_embed <$> (processed_chunk <$>
          (filter (λ item, Doc.type item.2 ≠ "doc") sample_vault).*2)).
Proof.
  apply (build_embedding_array_any_batch_size sample_embed sample_vault 2).
  - discriminate.
  - discriminate.
Defined.

Section top_facts.
Context {vec : Type} (dot : vec → vec → Qc).

(** The rows [query_semantic] returns are the best ones: a row it returns is at
    least as similar to the query as any row of the array it leaves out. *)
Theorem query_semantic_returns_the_best (query_embedding : vec)
    (doc_embeddings_array : list vec) (n_results : Z) (i j : nat) :
  i ∈ query_semantic vec dot query_embedding doc_embeddings_array n_results →
  (j < length doc_embeddings_array)%nat →
  j ∉ query_semantic vec dot query_embedding doc_embeddings_array n_results →
  ∃ ri rj,
    doc_embeddings_array !! i = Some ri ∧ doc_embeddings_array !! j = Some rj ∧
    (dot rj query_embedding ≤ dot ri query_embedding)%Qc.
Proof.
  unfold query_semantic, argsort.
  set (cos_sims := (λ row, dot row query_embedding) <$> doc_embeddings_array).
  set (sorted := stable_sort sim_le (zip (seq 0 (length cos_sims)) cos_sims)).
  destruct (py_slice_from_drop (- n_results) sorted.*1) as [m ->].
  rewrite !elem_of_reverse, <-fmap_drop. intros Hi Hj Hout.
  assert (StronglySorted sim_le (take m sorted ++ drop m sorted)) as Hsorted.
  { rewrite take_drop. apply StronglySorted_stable_sort; apply _. }
  apply StronglySorted_app in Hsorted as (Hcross & _ & _).
  assert (j ∈ sorted.*1) as Hjs.
  { unfold sorted. rewrite argsort_pairs_Permutation, elem_of_seq.
    unfold cos_sims. rewrite length_fmap. lia. }
  rewrite <-(take_drop m sorted), fmap_app, elem_of_app in Hjs.
  destruct Hjs as [Hjs|Hjs]; [|done].
  apply list_elem_of_fmap in Hjs as ([j' vj] & -> & Hjs).
  apply list_elem_of_fmap in Hi as ([i' vi] & -> & His).
  pose proof (Hcross _ _ Hjs His) as Hle. unfold sim_le in Hle. simpl in *.
  assert (∀ p, p ∈ take m sorted ∨ p ∈ drop m sorted → p ∈ sorted) as Hin.
  { intros p Hp. rewrite <-(take_drop m sorted). by apply elem_of_app. }
  assert ((j', vj) ∈ sorted) as Hjv by (apply Hin; by left).
  assert ((i', vi) ∈ sorted) as Hiv by (apply Hin; by right).
  apply argsort_pairs_lookup in Hjv, Hiv.
  unfold cos_sims in Hjv, Hiv. rewrite list_lookup_fmap in Hjv, Hiv.
  destruct (doc_embeddings_array !! i') as [ri|]; [|done].
  destruct (doc_embeddings_array !! j') as [rj|]; [|done].
  simpl in Hjv, Hiv. simplify_eq. by exists ri, rj.
Qed.

(** How many rows come back when [n_results] is not positive: the slice
    [[-n_results:]] then starts at [-n_results] from the front, so [0] gives
    all the rows and [-k] all but the [k] least similar ones. *)
Theorem query_semantic_length_nonpositive (query_embedding : vec)
    (doc_embeddings_array : list vec) (n_results : Z) :
  (n_results ≤ 0)%Z →
  length (query_semantic vec dot query_embedding doc_embeddings_array n_results)
    = (length doc_embeddings_array - Z.to_nat (- n_results))%nat.
Proof.
  intros Hn. unfold query_semantic, py_slice_from.
  rewrite length_reverse, decide_False by lia.
  rewrite length_drop, argsort_length, length_fmap. lia.
Qed.

(** When at least as many results are asked for as there are rows, and also
    when none is asked for, every row comes back exactly once. *)
Theorem query_semantic_all_rows (query_embedding : vec)
    (doc_embeddings_array : list vec) (n_results : Z) :
  (n_results = 0 ∨ Z.of_nat (length doc_embeddings_array) ≤ n_results)%Z →
  query_semantic vec dot query_embedding doc_embeddings_array n_results
    ≡ₚ seq 0 (length doc_embeddings_array).
Proof.
  intros Hn. unfold query_semantic. rewrite reverse_Permutation.
  set (cos_sims := (λ row, dot row query_embedding) <$> doc_embeddings_array).
  assert (py_slice_from (- n_results) (argsort cos_sims) = argsort cos_sims) as ->.
  { unfold py_slice_from. pose proof (argsort_length cos_sims) as Hlen.
    unfold cos_sims in Hlen at 2. rewrite length_fmap in Hlen.
    case_decide.
    - by replace (Z.to_nat _) with 0%nat by lia.
    - by replace (Z.to_nat _) with 0%nat by lia. }
  unfold argsort. rewrite argsort_pairs_Permutation.
  unfold cos_sims. by rewrite length_fmap.
Qed.
End top_facts.

Lemma query_semantic_returns_the_best_witness :
  ∃ ri rj,
    sample_array !! 1%nat = Some ri ∧ sample_array !! 0%nat = Some rj ∧
    (Qcmult rj sample_query ≤ Qcmult ri sample_query)%Qc.
Proof.
  apply (query_semantic_returns_the_best Qcmult sample_query sample_array 2 1 0).
  - apply (bool_decide_unpack _). vm_compute. exact I.
  - simpl. lia.
  - apply (bool_decide_unpack _). vm_compute. exact I.
Defined.

Lemma query_semantic_length_nonpositive_witness :
  length (query_semantic Qc Qcmult sample_query sample_array (-1))
    = (length sample_array - Z.to_nat (- (-1)))%nat.
Proof.
  apply (query_semantic_length_nonpositive Qcmult sample_query sample_array (-1)).
  lia.
Defined.

Lemma query_semantic_all_rows_witness :
  query_semantic Qc Qcmult sample_query sample_array 10
    ≡ₚ seq 0 (length sample_array).
Proof.
  apply (query_semantic_all_rows Qcmult sample_query sample_array 10).
  right. simpl. lia.
Defined.

(** ** [src/prep/build_vault_dict.py]: files, chunks and records *)



Lemma chunk_step_skipped min_chunk_lines st line :
  skipped line = true → chunk_step min_chunk_lines st line = st.
Proof.
  unfold skipped, chunk_step. destruct st as [chunks cur idx hdr].
  destruct (startswith line LF); [done|].
  destruct (startswith line "- tag"); [done|].
  destruct (startswith line "- source"); [done|].
  destruct (str_contains "![](assets" line); [done|]. done.
Qed.

Lemma chunk_step_append min_chunk_lines chunks cur idx hdr line :
  skipped line = false → startswith line "- " = false ∨ cur = [] →
  chunk_step min_chunk_lines (Chunker.mk chunks cur idx hdr) line =
    Chunker.mk chunks (cur ++ [line]) idx (header_after hdr line).
Proof.
  unfold skipped. rewrite !orb_false_iff. intros [[[Hlf Htag] Hsrc] Himg] Hcase.
  unfold chunk_step, header_after. rewrite Hlf, Htag, Hsrc, Himg.
  destruct (startswith line "- ") eqn:Hbullet; [|done].
  destruct Hcase as [?| ->]; done.
Qed.

Lemma chunk_step_restart min_chunk_lines chunks cur idx hdr line :
  skipped line = false → startswith line "- " = true → cur ≠ [] →
  chunk_step min_chunk_lines (Chunker.mk chunks cur idx hdr) line =
    if decide (Z.of_nat (length cur) >= min_chunk_lines)%Z
    then Chunker.mk (dict_set chunks idx cur)
           (restart (header_after hdr line) ++ [line]) (S idx) (header_after hdr line)
    else Chunker.mk chunks
           (restart (header_after hdr line) ++ [line]) idx (header_after hdr line).
Proof.
  unfold skipped. rewrite !orb_false_iff. intros [[[Hlf Htag] Hsrc] Himg] Hbullet Hcur.
  unfold chunk_step, header_after, restart. rewrite Hlf, Htag, Hsrc, Himg, Hbullet.
  destruct cur as [|l0 cur]; [done|].
  destruct (decide (Z.of_nat (length (l0 :: cur)) >= min_chunk_lines)%Z);
    destruct (if startswith line "#" then Some line else hdr) as [h|];
    try destruct (truthy_str h); done.
Qed.

Section chunk_invariant.
Variable min_chunk_lines : Z.
Variable lines : list string.
(** A property [C] of the chunk being accumulated and of the header, and a
    property [Q] of the chunks that are stored. *)
Variable C : list string → option string → Prop.
Variable Q : list string → Prop.

Hypothesis C_init : C [] None.
Hypothesis C_append : ∀ cur hdr line,
  line ∈ lines → skipped line = false → C cur hdr →
  startswith line "- " = false ∨ cur = [] →
  C (cur ++ [line]) (header_after hdr line).
Hypothesis C_restart : ∀ cur hdr line,
  line ∈ lines → skipped line = false → C cur hdr →
  startswith line "- " = true → cur ≠ [] →
  C (restart (header_after hdr line) ++ [line]) (header_after hdr line).
Hypothesis Q_stored : ∀ cur hdr,
  C cur hdr → cur ≠ [] → (Z.of_nat (length cur) >= min_chunk_lines)%Z → Q cur.

Lemma dict_set_next {A} (chunks : dict nat A) idx x :
  chunks.*1 = seq 0 idx → dict_set chunks idx x = chunks ++ [(idx, x)].
Proof.
  intros Hkeys. apply dict_set_fresh. rewrite Hkeys, elem_of_seq. lia.
Qed.

Lemma chunker_inv_step st line :
  line ∈ lines → chunker_inv C Q st →
  chunker_inv C Q (chunk_step min_chunk_lines st line).
Proof.
  intros Hline (Hkeys & Hstored & Hcur).
  destruct (skipped line) eqn:Hskip; [by rewrite chunk_step_skipped|].
  destruct st as [chunks cur idx hdr]. simpl in Hkeys, Hstored, Hcur.
  unfold chunker_inv.
  destruct (startswith line "- ") eqn:Hbullet; [destruct (decide (cur = [])) as [Hc|Hne]|].
  - rewrite chunk_step_append by auto. split_and!; [done..|].
    by apply C_append; auto.
  - rewrite chunk_step_restart by done.
    case_decide.
    + rewrite dict_set_next by done. split_and!; simpl.
      * rewrite fmap_app, Hkeys. symmetry. apply (seq_S idx 0).
      * rewrite fmap_app. apply Forall_app. split; [done|].
        constructor; [|done]. by eapply Q_stored.
      * by apply (C_restart cur).
    + split_and!; [done..|]. by apply (C_restart cur).
  - rewrite chunk_step_append by auto. split_and!; [done..|].
    by apply C_append; auto.
Qed.

Lemma chunker_inv_fold st ls :
  ls ⊆ lines → chunker_inv C Q st →
  chunker_inv C Q (foldl (chunk_step min_chunk_lines) st ls).
Proof.
  revert st. induction ls as [|line ls IH]; intros st Hsub Hst; [done|].
  simpl. apply IH.
  - intros l Hl. apply Hsub. by right.
  - apply chunker_inv_step; [|done]. apply Hsub. left.
Qed.

(** The chunks come numbered 0, 1, ... and each of them has the property
    [Q]. *)
Lemma chunk_doc_to_dict_invariant :
  (chunk_doc_to_dict lines min_chunk_lines).*1
    = seq 0 (length (chunk_doc_to_dict lines min_chunk_lines)) ∧
  Forall Q (chunk_doc_to_dict lines min_chunk_lines).*2.
Proof.
  unfold chunk_doc_to_dict.
  destruct (chunker_inv_fold (Chunker.mk [] [] 0 None) lines)
    as (Hkeys & Hstored & Hcur); [done|by split_and!|].
  destruct (foldl _ _ lines) as [chunks cur idx hdr]. simpl in *.
  assert (length chunks = idx) as Hidx.
  { by rewrite <-(length_fmap fst), Hkeys, length_seq. }
  unfold chunk_last. destruct (decide (cur = [])) as [->|Hne]; [by rewrite Hidx|].
  destruct cur as [|l0 cur']; [done|]. set (cur := l0 :: cur') in *.
  case_decide; [|by rewrite Hidx].
  rewrite dict_set_next by done. rewrite length_app, !fmap_app, Hidx. simpl. split.
  - by rewrite Hkeys, Nat.add_1_r, seq_S.
  - apply Forall_app. split; [done|]. constructor; [|done].
    eapply Q_stored; [done..|lia].
Qed.
End chunk_invariant.

(** The chunks of a document are numbered 0, 1, 2, ... without a gap, in the
    order they were completed, whatever the minimum chunk size. *)
Theorem chunk_doc_to_dict_numbered (lines : list string) (min_chunk_lines : Z) :
  (chunk_doc_to_dict lines min_chunk_lines).*1
    = seq 0 (length (chunk_doc_to_dict lines min_chunk_lines)).
Proof.
  by apply (chunk_doc_to_dict_invariant min_chunk_lines lines
              (λ _ _, True) (λ _, True)).
Qed.

(** Every chunk that is kept is non-empty and has at least [min_chunk_lines]
    lines. *)
Theorem chunk_doc_to_dict_sizes (lines : list string) (min_chunk_lines : Z)
    (k : nat) (chunk : list string) :
  (k, chunk) ∈ chunk_doc_to_dict lines min_chunk_lines →
  chunk ≠ [] ∧ (Z.of_nat (length chunk) >= min_chunk_lines)%Z.
Proof.
  intros Hin.
  destruct (chunk_doc_to_dict_invariant min_chunk_lines lines (λ _ _, True)
              (λ c, c ≠ [] ∧ (Z.of_nat (length c) >= min_chunk_lines)%Z))
    as [_ Hall]; [done..|].
  rewrite Forall_forall in Hall. apply Hall.
  apply list_elem_of_fmap. by exists (k, chunk).
Qed.

Lemma chunk_doc_to_dict_sizes_witness :
  (0, three_lines ++ ["delta" +:+ LF]) ∈
    chunk_doc_to_dict (three_lines ++ ["delta" +:+ LF]) 3 ∧
  three_lines ++ ["delta" +:+ LF] ≠ [] ∧
  (Z.of_nat (length (three_lines ++ ["delta" +:+ LF])) >= 3)%Z.
Proof.
  assert ((0, three_lines ++ ["delta" +:+ LF]) ∈
            chunk_doc_to_dict (three_lines ++ ["delta" +:+ LF]) 3) as Hin.
  { vm_compute. left. }
  split; [done|]. exact (chunk_doc_to_dict_sizes _ _ _ _ Hin).
Defined.

(** Every line of every chunk is a line of the document that the loop did not
    skip: no chunk holds a line that starts with a line feed, with [- tag] or
    with [- source], or that contains an image link; a header repeated at the
    start of a chunk is such a line too. *)
Theorem chunk_doc_to_dict_lines (lines : list string) (min_chunk_lines : Z)
    (k : nat) (chunk : list string) (line : string) :
  (k, chunk) ∈ chunk_doc_to_dict lines min_chunk_lines → line ∈ chunk →
  line ∈ lines ∧ skipped line = false.
Proof.
  intros Hin Hline.
  set (good := λ l : string, l ∈ lines ∧ skipped l = false).
  destruct (chunk_doc_to_dict_invariant min_chunk_lines lines
              (λ cur hdr, Forall good cur ∧ ∀ h, hdr = Some h → good h)
              (Forall good)) as [_ Hall].
  - split; [constructor|done].
  - intros cur hdr l Hl Hskip [Hcur Hhdr] _. split.
    + apply Forall_app. split; [done|]. by repeat constructor.
    + unfold header_after. intros h. destruct (startswith l "#"); [|by apply Hhdr].
      by intros [= <-].
  - intros cur hdr l Hl Hskip [Hcur Hhdr] _ _.
    assert (∀ h, header_after hdr l = Some h → good h) as Hhdr'.
    { unfold header_after. intros h. destruct (startswith l "#"); [|by apply Hhdr].
      by intros [= <-]. }
    split; [|done]. apply Forall_app. split; [|by repeat constructor].
    unfold restart. destruct (header_after hdr l) as [h|]; [|constructor].
    destruct (truthy_str h); [|constructor]. constructor; [by apply Hhdr'|constructor].
  - by intros cur hdr [Hcur _] _ _.
  - rewrite Forall_forall in Hall.
    assert (Forall good chunk) as Hchunk.
    { apply Hall, list_elem_of_fmap. by exists (k, chunk). }
    rewrite Forall_forall in Hchunk. by apply Hchunk.
Qed.

Lemma chunk_doc_to_dict_lines_witness :
  (0, ["# Notes" +:+ LF; "first" +:+ LF; "second" +:+ LF]) ∈
    chunk_doc_to_dict two_sections 3 ∧
  ("first" +:+ LF) ∈ two_sections ∧ skipped ("first" +:+ LF) = false.
Proof.
  assert ((0, ["# Notes" +:+ LF; "first" +:+ LF; "second" +:+ LF]) ∈
            chunk_doc_to_dict two_sections 3) as Hin.
  { vm_compute. left. }
  split; [done|].
  apply (chunk_doc_to_dict_lines _ _ _ _ _ Hin). right. left.
Defined.

Lemma header_not_bullet line :
  startswith line "#" = true → startswith line "- " = false.
Proof.
  unfold startswith. destruct line as [|c line]; [done|]. cbn [String.prefix].
  destruct (ascii_dec "#" c) as [<-|]; [done|]. by destruct line.
Qed.

Lemma bullets_app chunk1 chunk2 :
  bullets (chunk1 ++ chunk2) = bullets chunk1 + bullets chunk2.
Proof. unfold bullets. by rewrite filter_app, length_app. Qed.

Lemma bullets_singleton line :
  bullets [line] = if startswith line "- " then 1 else 0.
Proof.
  unfold bullets. rewrite filter_cons.
  destruct (startswith line "- ") eqn:Hb.
  - by rewrite decide_True.
  - by rewrite decide_False by done.
Qed.

(** A chunk holds at most one top-level bullet: a line that starts with a
    dash and a space closes the chunk before it. *)
Theorem chunk_doc_to_dict_one_bullet (lines : list string) (min_chunk_lines : Z)
    (k : nat) (chunk : list string) :
  (k, chunk) ∈ chunk_doc_to_dict lines min_chunk_lines → (bullets chunk ≤ 1)%nat.
Proof.
  intros Hin.
  destruct (chunk_doc_to_dict_invariant min_chunk_lines lines
              (λ cur hdr, (bullets cur ≤ 1)%nat ∧
                          ∀ h, hdr = Some h → startswith h "- " = false)
              (λ c, (bullets c ≤ 1)%nat)) as [_ Hall].
  - split; [unfold bullets; simpl; lia|done].
  - intros cur hdr l _ _ [Hcur Hhdr] Hcase. split.
    + rewrite bullets_app, bullets_singleton.
      destruct Hcase as [-> | ->]; [lia|]. destruct (startswith l "- "); simpl; lia.
    + unfold header_after. intros h. destruct (startswith l "#") eqn:Hh; [|by apply Hhdr].
      intros [= <-]. by apply header_not_bullet.
  - intros cur hdr l _ _ [Hcur Hhdr] Hb _.
    assert (header_after hdr l = hdr) as ->.
    { unfold header_after. destruct (startswith l "#") eqn:Hh; [|done].
      apply header_not_bullet in Hh. congruence. }
    split; [|done]. rewrite bullets_app, bullets_singleton, Hb.
    unfold restart. destruct hdr as [h|]; [|done].
    destruct (truthy_str h); [|done].
    rewrite bullets_singleton, (Hhdr h); [lia|done].
  - by intros cur hdr [Hcur _] _ _.
  - rewrite Forall_forall in Hall. apply Hall, list_elem_of_fmap. by exists (k, chunk).
Qed.

Lemma chunk_doc_to_dict_one_bullet_witness :
  (1, ["# Notes" +:+ LF; "- item" +:+ LF; "  more" +:+ LF; "  even more" +:+ LF]) ∈
    chunk_doc_to_dict two_sections 3 ∧
  (bullets ["# Notes" +:+ LF; "- item" +:+ LF; "  more" +:+ LF;
            "  even more" +:+ LF] ≤ 1)%nat.
Proof.
  assert ((1, ["# Notes" +:+ LF; "- item" +:+ LF; "  more" +:+ LF;
               "  even more" +:+ LF]) ∈ chunk_doc_to_dict two_sections 3) as Hin.
  { vm_compute. right. left. }
  split; [done|]. exact (chunk_doc_to_dict_one_bullet _ _ _ _ Hin).
Defined.

(** ** [src/prep/build_opensearch_index.py]: [index_vault] *)

Lemma os_doc_nonempty index_name item :
  Doc.chunk item.2 ≠ "" → is_Some (os_doc index_name item).
Proof.
  unfold os_doc. destruct (Doc.chunk item.2); [done|]. by eexists.
Qed.

(** The loop over entries that all have a text: it counts every entry, a call
    of [bulk] is made for every 2000 entries, and what was appended is kept in
    order. *)
Lemma index_vault_go_texts index_name items chunks_indexed docs sent :
  Forall (λ item, Doc.chunk item.2 ≠ "") items →
  (0 ≤ chunks_indexed)%Z →
  Z.of_nat (length docs) = (chunks_indexed `mod` 2000)%Z →
  Forall (λ batch, length batch = 2000%nat) sent →
  ∃ docs' sent',
    index_vault_go index_name items chunks_indexed docs sent
      = ((chunks_indexed + Z.of_nat (length items))%Z, docs', sent', Returned) ∧
    concat sent' ++ docs' = concat sent ++ docs ++ omap (os_doc index_name) items ∧
    Z.of_nat (length docs')
      = ((chunks_indexed + Z.of_nat (length items)) `mod` 2000)%Z ∧
    Forall (λ batch, length batch = 2000%nat) sent'.
Proof.
  intros Hitems. revert chunks_indexed docs sent.
  induction Hitems as [|[chunk_id doc] items Htext _ IH];
    intros n docs sent Hn Hdocs Hsent.
  { exists docs, sent. simpl. rewrite Z.add_0_r, app_nil_r. done. }
  cbn [index_vault_go]. simpl in Htext.
  destruct (first_char (Doc.chunk doc)) as [chunk_header|] eqn:Hfirst;
    [|by destruct (Doc.chunk doc)].
  cbn zeta. set (d := OsDoc.mk _ _ _ _ _ _ _).
  assert (omap (os_doc index_name) ((chunk_id, doc) :: items)
          = d :: omap (os_doc index_name) items) as ->.
  { change (omap (os_doc index_name) ((chunk_id, doc) :: items))
      with (match os_doc index_name (chunk_id, doc) with
            | Some d => d :: omap (os_doc index_name) items
            | None => omap (os_doc index_name) items
            end).
    unfold os_doc at 1. simpl. by rewrite Hfirst. }
  assert (0 ≤ n `mod` 2000 < 2000)%Z as Hmod by (apply Z.mod_pos_bound; lia).
  assert (0 ≤ (n + 1) `mod` 2000 < 2000)%Z as Hmod' by (apply Z.mod_pos_bound; lia).
  assert (n + Z.of_nat (length ((chunk_id, doc) :: items))
          = n + 1 + Z.of_nat (length items))%Z as -> by (simpl length; lia).
  case_decide as Hflush.
  - assert (n `mod` 2000 = 1999)%Z as Hfull.
    { revert Hflush Hmod. Z.div_mod_to_equations. lia. }
    destruct (IH (n + 1)%Z [] (sent ++ [docs ++ [d]])) as (docs' & sent' & -> & Hcat & Hlen & Hall).
    + lia.
    + by rewrite Hflush.
    + apply Forall_app. split; [done|]. constructor; [|done].
      rewrite length_app. simpl. lia.
    + exists docs', sent'. split_and!; [done| |done..].
      rewrite Hcat, concat_app. simpl. by rewrite !app_nil_r, <-!app_assoc.
  - assert ((n + 1) `mod` 2000 = n `mod` 2000 + 1)%Z as Hnext.
    { revert Hflush Hmod Hmod'. Z.div_mod_to_equations. lia. }
    destruct (IH (n + 1)%Z (docs ++ [d]) sent) as (docs' & sent' & -> & Hcat & Hlen & Hall).
    + lia.
    + rewrite length_app. simpl. lia.
    + done.
    + exists docs', sent'. split_and!; [done| |done..].
      rewrite Hcat. by rewrite <-!app_assoc.
Qed.

Lemma index_vault_go_app index_name items1 items2 chunks_indexed docs sent
    chunks_indexed' docs' sent' :
  index_vault_go index_name items1 chunks_indexed docs sent
    = (chunks_indexed', docs', sent', Returned) →
  index_vault_go index_name (items1 ++ items2) chunks_indexed docs sent
    = index_vault_go index_name items2 chunks_indexed' docs' sent'.
Proof.
  revert chunks_indexed docs sent.
  induction items1 as [|[chunk_id doc] items1 IH]; intros n docs sent.
  { simpl. by intros [= -> -> ->]. }
  rewrite <-app_comm_cons. cbn [index_vault_go].
  destruct (first_char (Doc.chunk doc)); [|done]. cbn zeta.
  case_decide; apply IH.
Qed.

Lemma os_docs_length index_name items :
  Forall (λ item, Doc.chunk item.2 ≠ "") items →
  length (omap (os_doc index_name) items) = length items.
Proof.
  induction 1 as [|item items Htext _ IH]; [done|].
  change (omap (os_doc index_name) (item :: items))
    with (match os_doc index_name item with
          | Some d => d :: omap (os_doc index_name) items
          | None => omap (os_doc index_name) items
          end).
  destruct (os_doc_nonempty index_name item Htext) as [d ->]. simpl. by rewrite IH.
Qed.

(** The loop started afresh on entries that all have a text. *)
Lemma index_vault_go_fresh index_name items :
  Forall (λ item, Doc.chunk item.2 ≠ "") items →
  ∃ docs sent,
    index_vault_go index_name items 0 [] []
      = (Z.of_nat (length items), docs, sent, Returned) ∧
    concat sent ++ docs = omap (os_doc index_name) items ∧
    length docs = (length items `mod` 2000)%nat ∧
    Forall (λ batch, length batch = 2000%nat) sent.
Proof.
  intros Hitems.
  destruct (index_vault_go_texts index_name items 0 [] [] Hitems)
    as (docs & sent & Hgo & Hcat & Hlen & Hall); [done..|].
  exists docs, sent. rewrite Z.add_0_l in *. split_and!; [done..| |done].
  apply Nat2Z.inj. by rewrite Hlen, Nat2Z.inj_mod.
Qed.

Lemma mod_200_2000 (n : nat) : (n `mod` 2000 = 0 → n `mod` 200 = 0)%nat.
Proof.
  intros H. pose proof (Nat.div_mod_eq n 2000) as H1.
  pose proof (Nat.div_mod_eq n 200) as H2.
  pose proof (Nat.mod_upper_bound n 200). lia.
Qed.

(** When every entry of the vault has a text, [index_vault] returns, its
    calls of [bulk] never carry an empty list, every call but the last carries
    exactly 2000 documents and the last at most 2000, and the documents are
    sent in the order of the vault. *)
Theorem index_vault_batches (vault : dict string Doc.t) (index_name : string) :
  Forall (λ item, Doc.chunk item.2 ≠ "") vault →
  ∃ calls, index_vault vault index_name = (calls, Returned) ∧
    concat calls `prefix_of` omap (os_doc index_name) vault ∧
    ∀ (i : nat) batch, calls !! i = Some batch →
      (1 ≤ length batch ≤ 2000)%nat ∧
      (S i < length calls → length batch = 2000)%nat.
Proof.
  intros Hvault. unfold index_vault.
  destruct (index_vault_go_fresh index_name vault Hvault)
    as (docs & sent & -> & Hcat & Hlen & Hall).
  rewrite Forall_lookup in Hall.
  pose proof (Nat.mod_upper_bound (length vault) 2000) as Hbound.
  case_decide as Hlast.
  - exists (sent ++ [docs]). split_and!; [done| |].
    + rewrite concat_app. simpl. by rewrite app_nil_r, Hcat.
    + intros i batch Hi. rewrite length_app. simpl.
      apply lookup_app_Some in Hi as [Hi|[Hge Hi]].
      * rewrite (Hall _ _ Hi). lia.
      * apply list_lookup_singleton_Some in Hi as [Hi <-].
        assert (length vault `mod` 2000 ≠ 0)%nat.
        { intros H0%mod_200_2000. apply Nat2Z.inj_iff in H0.
          rewrite Nat2Z.inj_mod in H0. simpl in H0. lia. }
        lia.
  - exists sent. split_and!; [done| |].
    + rewrite <-Hcat. by apply prefix_app_r.
    + intros i batch Hi. rewrite (Hall _ _ Hi). lia.
Qed.

Lemma index_vault_batches_witness :
  Forall (λ item : string * Doc.t, Doc.chunk item.2 ≠ "") sample_vault ∧
  ∃ calls, index_vault sample_vault "obsidian-vault" = (calls, Returned) ∧
    concat calls `prefix_of` omap (os_doc "obsidian-vault") sample_vault ∧
    ∀ (i : nat) batch, calls !! i = Some batch →
      (1 ≤ length batch ≤ 2000)%nat ∧
      (S i < length calls → length batch = 2000)%nat.
Proof.
  assert (Forall (λ item : string * Doc.t, Doc.chunk item.2 ≠ "") sample_vault)
    as Htexts by (repeat constructor; done).
  split; [done|]. exact (index_vault_batches sample_vault "obsidian-vault" Htexts).
Defined.

(** When every entry of the vault has a text, the documents [index_vault]
    sends are those of all entries if the number of entries is not a multiple
    of 200; if it is, only the documents of the full groups of 2000 entries
    are sent: the loop sends on multiples of 2000 and the check after the loop
    tests the remainder by 200, so the entries after the last multiple of 2000
    are then not sent. *)
Theorem index_vault_sent (vault : dict string Doc.t) (index_name : string) :
  Forall (λ item, Doc.chunk item.2 ≠ "") vault →
  concat (index_vault vault index_name).1 =
    if decide (length vault `mod` 200 = 0)%nat
    then take (length vault - length vault `mod` 2000)
              (omap (os_doc index_name) vault)
    else omap (os_doc index_name) vault.
Proof.
  intros Hvault. unfold index_vault.
  pose proof (os_docs_length index_name vault Hvault) as Hall_len.
  destruct (index_vault_go_fresh index_name vault Hvault)
    as (docs & sent & -> & Hcat & Hlen & Hall).
  assert ((Z.of_nat (length vault) `mod` 200 > 0)%Z ↔ (length vault `mod` 200 ≠ 0)%nat)
    as Hiff.
  { rewrite <-(Nat2Z.inj_mod _ 200). lia. }
  case_decide as Hlast; cbn [fst].
  - rewrite decide_False by (by apply Hiff).
    rewrite concat_app. simpl. by rewrite app_nil_r.
  - rewrite decide_True by (destruct (decide (length vault `mod` 200 = 0)%nat);
                             [done|by destruct Hlast; apply Hiff]).
    rewrite <-Hcat, <-Hlen. rewrite <-Hall_len, <-Hcat, length_app.
    replace (length (concat sent) + length docs - length docs)%nat
      with (length (concat sent)) by lia.
    by rewrite take_app_length.
Qed.

Lemma index_vault_sent_witness :
  Forall (λ item : string * Doc.t, Doc.chunk item.2 ≠ "") two_hundred_entries ∧
  concat (index_vault two_hundred_entries "obsidian-vault").1 = [].
Proof.
  assert (Forall (λ item : string * Doc.t, Doc.chunk item.2 ≠ "")
            two_hundred_entries) as Htexts.
  { unfold two_hundred_entries. apply Forall_fmap, Forall_forall. by intros i _. }
  split; [done|].
  rewrite (index_vault_sent two_hundred_entries "obsidian-vault" Htexts).
  by vm_compute.
Defined.

(** [index_vault] fails with an [IndexError] at the first entry whose text is
    empty ([chunk[0]]); the calls of [bulk] made before are the full groups of
    2000 of the entries in front of it, and nothing else is sent. *)
Theorem index_vault_empty_text (vault1 vault2 : dict string Doc.t)
    (chunk_id : string) (doc : Doc.t) (index_name : string) :
  Forall (λ item, Doc.chunk item.2 ≠ "") vault1 →
  Doc.chunk doc = "" →
  ∃ calls,
    index_vault (vault1 ++ (chunk_id, doc) :: vault2) index_name
      = (calls, IndexError chunk_id) ∧
    Forall (λ batch, length batch = 2000%nat) calls ∧
    concat calls = take (length vault1 - length vault1 `mod` 2000)
                        (omap (os_doc index_name) vault1).
Proof.
  intros Hvault Hempty. unfold index_vault.
  pose proof (os_docs_length index_name vault1 Hvault) as Hall_len.
  destruct (index_vault_go_fresh index_name vault1 Hvault)
    as (docs & sent & Hgo & Hcat & Hlen & Hall).
  rewrite (index_vault_go_app _ _ _ _ _ _ _ _ _ Hgo).
  cbn [index_vault_go]. rewrite Hempty. cbn [first_char].
  exists sent. split_and!; [done..|].
  rewrite <-Hlen. rewrite <-Hall_len, <-Hcat, length_app.
  replace (length (concat sent) + length docs - length docs)%nat
    with (length (concat sent)) by lia.
  by rewrite take_app_length.
Qed.

Lemma index_vault_empty_text_witness :
  ∃ calls,
    index_vault vault_with_empty_text "obsidian-vault"
      = (calls, IndexError "n.md-1") ∧
    Forall (λ batch, length batch = 2000%nat) calls ∧
    concat calls = [].
Proof.
  apply (index_vault_empty_text
           [("n.md-0", Doc.mk "n.md" "chunk" "n.md" "one")]
           [("n.md-2", Doc.mk "n.md" "chunk" "n.md" "three")]
           "n.md-1" (Doc.mk "n.md" "chunk" "n.md" "") "obsidian-vault").
  - by repeat constructor.
  - done.
Defined.

(** ** [src/prep/build_vault_dict.py]: the vault as a whole *)

(** The two ways the loop over the paths ends: every path can be opened and
    the vault holds the records of the paths, assigned in order; or a path of
    the list cannot be opened, and the error of the first such path is
    raised. *)
Lemma create_vault_dict_go_outcome vault_path paths vault :
  (Forall (λ p, ∃ lines, readlines vault_path p = Ok lines) paths ∧
   create_vault_dict_go vault_path paths vault
     = Ok (assign_all vault (concat (records_of vault_path <$> paths)))) ∨
  (∃ paths1 p paths2 e, paths = paths1 ++ p :: paths2 ∧
     Forall (λ p, ∃ lines, readlines vault_path p = Ok lines) paths1 ∧
     readlines vault_path p = Raise e ∧
     create_vault_dict_go vault_path paths vault = Raise e).
Proof.
  revert vault. induction paths as [|filename paths IH]; intros vault.
  { left. by split. }
  destruct (readlines vault_path filename) as [lines|e] eqn:Hlines.
  - cbn [create_vault_dict_go]. rewrite Hlines. cbn zeta.
    rewrite fmap_cons, concat_cons, assign_all_app.
    unfold records_of at 1. rewrite Hlines. cbn zeta.
    destruct (decide (0 < length (chunk_doc_to_dict lines 3))%nat).
    + rewrite add_chunks_assign.
      set (vault' := assign_all (dict_set vault filename _) _).
      destruct (IH vault') as [[Hall Hgo]|(p1 & p & p2 & e & -> & Hall & Hp & Hgo)].
      * left. split; [constructor; eauto|]. by rewrite Hgo.
      * right. exists (filename :: p1), p, p2, e.
        split_and!; [done|constructor; eauto|done..].
    + destruct (IH vault) as [[Hall Hgo]|(p1 & p & p2 & e & -> & Hall & Hp & Hgo)].
      * left. split; [constructor; eauto|]. by rewrite Hgo.
      * right. exists (filename :: p1), p, p2, e.
        split_and!; [done|constructor; eauto|done..].
  - right. exists [], filename, paths, e. split_and!; [done..|].
    cbn [create_vault_dict_go]. by rewrite Hlines.
Qed.


(** The vault built from the paths [get_file_paths] lists: when the listing
    succeeds, so does [create_vault_dict] on the listed paths; no two records
    share a key, every record carries a listed path (ending in [.md]) as its
    title and path, it is stored under that path or under the path followed by
    a dash and a chunk number, and it is a whole-document record exactly when
    it is stored under the path itself. *)
Theorem vault_of_listed_files (vault_path : filesystem) (min_lines : Z)
    (paths : list string) :
  get_file_paths vault_path min_lines = Ok paths →
  ∃ vault,
    create_vault_dict vault_path paths = Ok vault ∧
    NoDup vault.*1 ∧
    ∀ key d, (key, d) ∈ vault →
      Doc.title d = Doc.path d ∧
      Doc.path d ∈ paths ∧
      (key = Doc.path d ∨ ∃ k : nat, key = chunk_key (Doc.path d) k) ∧
      (Doc.type d = "doc" ↔ key = Doc.path d) ∧
      (Doc.type d = "chunk" ↔ key ≠ Doc.path d).
Proof.
  intros Hlisting.
  assert (Forall (λ p, ∃ lines, readlines vault_path p = Ok lines) paths) as Hpaths.
  { apply Forall_forall. intros p Hp. by eapply listed_path_readable. }
  eexists. split; [by apply create_vault_dict_go_assign|]. split.
  { apply assign_all_NoDup. constructor. }
  intros key d [?%elem_of_nil|Hin]%elem_of_assign_all; [done|].
  apply elem_of_all_records in Hin as (g & Hg & Hin).
  pose proof (elem_of_get_file_paths _ _ _ _ Hlisting Hg) as (Hmd & _).
  apply elem_of_records_of in Hin
    as (lines & _ & <- & _ & [[-> ->]|(k & c & _ & -> & ->)]).
  - simpl. split_and!; [done..|by left|done|]. split; [done|]. by intros [].
  - simpl in *. split_and!; [done..|right; by exists k| |].
    + split; [done|]. intros Heq. symmetry in Heq. by apply chunk_key_not_md in Heq.
    + split; [|done]. intros _ Heq. symmetry in Heq. by apply chunk_key_not_md in Heq.
Qed.

Lemma vault_of_listed_files_witness :
  ∃ vault,
    create_vault_dict sample_files ["bullets.md"; "notes.md"] = Ok vault ∧
    NoDup vault.*1 ∧
    ∀ key d, (key, d) ∈ vault →
      Doc.title d = Doc.path d ∧
      Doc.path d ∈ ["bullets.md"; "notes.md"] ∧
      (key = Doc.path d ∨ ∃ k : nat, key = chunk_key (Doc.path d) k) ∧
      (Doc.type d = "doc" ↔ key = Doc.path d) ∧
      (Doc.type d = "chunk" ↔ key ≠ Doc.path d).
Proof.
  apply (vault_of_listed_files sample_files 5). reflexivity.
Defined.

(** Chunk ids do not collide: the id made of a path, a dash and a chunk
    number determines both, and it is never the path of a markdown file, so a
    chunk record overwrites neither another chunk's record nor a
    whole-document record. *)
Theorem chunk_ids_do_not_collide (filename1 filename2 path : string) (k1 k2 : nat) :
  (chunk_key filename1 k1 = chunk_key filename2 k2 ↔ filename1 = filename2 ∧ k1 = k2) ∧
  (endswith path ".md" = true → chunk_key filename1 k1 ≠ path).
Proof.
  split; [split|].
  - apply chunk_key_inj.
  - by intros [-> ->].
  - intros Hmd Heq. symmetry in Heq. by apply chunk_key_not_md in Heq.
Qed.

(** ** From the files to the search index and to the route *)

Lemma str_join_nonempty (l : list string) :
  l ≠ [] → Forall (λ line, line ≠ "") l → str_join l ≠ "".
Proof.
  intros Hne Hall. destruct Hall as [|line l Hline _]; [done|].
  unfold str_join. destruct line as [|c line]; [done|].
  cbn [String.concat]. by destruct l.
Qed.

(** A chunk is not empty and is made of lines of the document. *)
Lemma chunk_of_document lines min_chunk_lines k chunk :
  (k, chunk) ∈ chunk_doc_to_dict lines min_chunk_lines →
  chunk ≠ [] ∧ Forall (λ line, line ∈ lines) chunk.
Proof.
  intros Hin.
  destruct (chunk_doc_to_dict_invariant min_chunk_lines lines
              (λ cur hdr, Forall (λ line, line ∈ lines) cur ∧
                          ∀ h, hdr = Some h → h ∈ lines)
              (λ c, c ≠ [] ∧ Forall (λ line, line ∈ lines) c)) as [_ Hall].
  - split; [constructor|done].
  - intros cur hdr l Hl _ [Hcur Hhdr] _. split.
    + apply Forall_app. split; [done|]. by repeat constructor.
    + unfold header_after. intros h. destruct (startswith l "#"); [|by apply Hhdr].
      by intros [= <-].
  - intros cur hdr l Hl _ [Hcur Hhdr] _ _.
    assert (∀ h, header_after hdr l = Some h → h ∈ lines) as Hhdr'.
    { unfold header_after. intros h. destruct (startswith l "#"); [|by apply Hhdr].
      by intros [= <-]. }
    split; [|done]. apply Forall_app. split; [|by repeat constructor].
    unfold restart. destruct (header_after hdr l) as [h|]; [|constructor].
    destruct (truthy_str h); [|constructor]. constructor; [by apply Hhdr'|constructor].
  - by intros cur hdr [Hcur _] Hne _.
  - rewrite Forall_forall in Hall. apply Hall, list_elem_of_fmap. by exists (k, chunk).
Qed.

(** When no line of any file is the empty string (as with [readlines]), every
    record of the vault [create_vault_dict] returns has a non-empty text, and
    [index_vault] run on that vault does not fail on [chunk[0]]. *)
Theorem index_vault_of_created_vault (vault_path : filesystem)
    (paths : list string) (vault : dict string Doc.t) (index_name : string) :
  Forall (λ file, ∀ lines, file.2 = File lines → Forall (λ line, line ≠ "") lines)
    vault_path →
  create_vault_dict vault_path paths = Ok vault →
  Forall (λ item, Doc.chunk item.2 ≠ "") vault ∧
  (index_vault vault index_name).2 = Returned.
Proof.
  intros Hfiles Hvault.
  assert (Forall (λ item, Doc.chunk item.2 ≠ "") vault) as Htexts.
  { unfold create_vault_dict in Hvault.
    destruct (create_vault_dict_go_outcome vault_path paths [])
      as [[_ Hgo]|(p1 & p & p2 & e & _ & _ & _ & Hgo)]; rewrite Hgo in Hvault; [|done].
    injection Hvault as <-. apply Forall_forall. intros [key d] Hin. simpl.
    apply elem_of_assign_all in Hin as [?%elem_of_nil|Hin]; [done|].
    apply elem_of_all_records in Hin as (g & _ & Hin).
    apply elem_of_records_of in Hin as (lines & Hlines & _ & Hne & Hrec).
    assert (Forall (λ line, line ≠ "") lines) as Hnonempty.
    { rewrite Forall_forall in Hfiles. apply readlines_Ok in Hlines.
      by apply (Hfiles (g, File lines)); [apply dict_get_Some_elem_of|]. }
    destruct Hrec as [[_ ->]|(k & c & Hc & _ & ->)]; simpl.
    - apply str_join_nonempty; [|done]. by intros ->.
    - apply chunk_of_document in Hc as [Hcne Hc].
      apply str_join_nonempty; [done|].
      rewrite Forall_forall in Hc, Hnonempty. apply Forall_forall.
      intros line Hline. by apply Hnonempty, Hc. }
  split; [done|]. unfold index_vault.
  destruct (index_vault_go_fresh index_name vault Htexts)
    as (docs & sent & -> & _). by case_decide.
Qed.

Lemma index_vault_of_created_vault_witness :
  ∃ vault, create_vault_dict sample_files ["notes.md"] = Ok vault ∧
    Forall (λ item : string * Doc.t, Doc.chunk item.2 ≠ "") vault ∧
    (index_vault vault "obsidian-vault").2 = Returned.
Proof.
  eexists. split; [by vm_compute|].
  apply (index_vault_of_created_vault sample_files ["notes.md"]).
  - repeat constructor; intros lines [= <-]; repeat constructor; done.
  - by vm_compute.
Defined.

Section route_success.
Variable num_tokens_from_string : string → nat.
Variable vault : dict string Doc.t.
Context {vec : Type} (dot : vec → vec → Qc).

(** With the mapping built from the vault that the route uses, an embedding
    array that has a row and as many rows as the mapping has entries, and
    opensearch ids that are keys of the vault, the route returns a context:
    neither the parse of the semantic hits nor the lookup of a ranked id
    fails. *)
Theorem get_chunks_route_succeeds (os_response_hits : list string)
    (query_embedding : vec) (doc_embeddings_array : list vec) :
  doc_embeddings_array ≠ [] →
  length doc_embeddings_array = length (build_embedding_index vault) →
  (∀ cid, cid ∈ os_response_hits → cid ∈ vault.*1) →
  ∃ context,
    get_chunks num_tokens_from_string vault vec dot os_response_hits
      query_embedding doc_embeddings_array (build_embedding_index vault)
      = Ok context.
Proof.
  intros Harr Hrows Hos.
  set (embedding_index := build_embedding_index vault).
  set (indices := query_semantic vec dot query_embedding doc_embeddings_array 10).
  assert (Forall (λ row : Z * nat, is_Some (dict_get embedding_index row.2))
            (enumerate indices)) as Hknown.
  { apply Forall_forall. intros [rank idx] Hrow. simpl.
    apply (list_elem_of_fmap_2 snd) in Hrow. unfold enumerate in Hrow.
    rewrite enumerate_from_snd in Hrow. simpl in Hrow.
    apply (query_semantic_bound dot query_embedding _ 10) in Hrow.
    unfold embedding_index. rewrite dict_get_build_embedding_index.
    apply lookup_lt_is_Some.
    by rewrite length_fmap, <-build_embedding_index_length, <-Hrows. }
  destruct (parse_semantic_go_known embedding_index _ [] Hknown) as [hits Hhits].
  pose proof Hhits as (new & Hnew & Hparsed)%parse_semantic_go_Ok.
  simpl in Hnew. subst new.
  assert (hits ≠ []) as Hne.
  { intros ->. apply Forall2_length in Hparsed. unfold enumerate in Hparsed.
    rewrite enumerate_from_length in Hparsed. unfold indices in Hparsed.
    rewrite query_semantic_length in Hparsed by lia.
    destruct doc_embeddings_array; [done|]. simpl in Hparsed. lia. }
  assert (∀ cid, cid ∈ Hit.id <$> hits → cid ∈ vault.*1) as Hsem.
  { intros cid (h & -> & Hh)%list_elem_of_fmap.
    apply list_elem_of_lookup in Hh as [i Hi].
    destruct (Forall2_lookup_r _ _ _ _ _ Hparsed Hi) as ([rank idx] & _ & Hidx & _).
    simpl in Hidx. unfold embedding_index in Hidx.
    rewrite dict_get_build_embedding_index in Hidx.
    apply list_elem_of_lookup_2 in Hidx.
    apply list_elem_of_fmap in Hidx as (item & -> & Hitem).
    apply list_elem_of_filter in Hitem as [_ Hitem].
    by apply list_elem_of_fmap_2. }
  unfold get_chunks, fusion_input, parse_semantic_response.
  fold indices. fold embedding_index. rewrite Hhits. simpl.
  destruct (get_chunks_from_hits _ _ _ _) as [context|e] eqn:Hcall; [by eexists|].
  exfalso. unfold get_chunks_from_hits in Hcall.
  rewrite ranked_ids_nonempty in Hcall
    by (intros Heq; apply app_eq_nil in Heq as [_ ?]; done).
  simpl in Hcall. apply assemble_Raise in Hcall as (l1 & x & l2 & Hsplit & _ & Hx & _).
  assert (x ∈ Hit.id <$> (parse_os_response os_response_hits ++ hits)) as Hin.
  { apply ranked_ids_elem_of. rewrite Hsplit. apply elem_of_app. right. left. }
  rewrite fmap_app, parse_os_response_ids, elem_of_app in Hin.
  apply dict_get_None in Hx. destruct Hin as [Hin|Hin]; [by apply Hx, Hos|by apply Hx, Hsem].
Qed.
End route_success.

Lemma get_chunks_route_succeeds_witness :
  ∃ context,
    get_chunks char_tokens sample_vault Qc Qcmult sample_os_hits (Qc_of_Z 1)
      sample_rows (build_embedding_index sample_vault) = Ok context.
Proof.
  apply (get_chunks_route_succeeds char_tokens sample_vault Qcmult).
  - done.
  - by vm_compute.
  - intros cid Hcid. unfold sample_os_hits in Hcid.
    apply elem_of_cons in Hcid as [->|Hcid]; [vm_compute; do 2 right; left|].
    apply elem_of_cons in Hcid as [->|Hcid]; [vm_compute; do 4 right; left|].
    by apply elem_of_nil in Hcid.
Defined.

(** ** Instances of the failure and key properties *)

Lemma build_embedding_array_failures_witness :
  build_embedding_array nat (fmap sample_embed)
    [("n.md", Doc.mk "n.md" "doc" "n.md" "one two")] 4
    = Raise (ValueError "need at least one array to concatenate") ∧
  build_embedding_array nat (fmap sample_embed) sample_vault 0
    = Raise ZeroDivisionError.
Proof.
  split.
  - by apply (build_embedding_array_failures (fmap sample_embed)
                [("n.md", Doc.mk "n.md" "doc" "n.md" "one two")] 4).
  - by apply (build_embedding_array_failures (fmap sample_embed) sample_vault 4).
Defined.

Lemma chunk_ids_do_not_collide_witness :
  chunk_key "a.md" 1 ≠ chunk_key "a.md" 10 ∧ chunk_key "a.md" 1 ≠ "a.md-1.md".
Proof.
  split.
  - intros Heq. apply (chunk_ids_do_not_collide "a.md" "a.md" "a.md" 1 10) in Heq.
    destruct Heq as [_ Heq]. discriminate Heq.
  - by apply (chunk_ids_do_not_collide "a.md" "a.md" "a.md-1.md" 1 1).
Defined.

(** A directory named like a note stops the listing, and a path that names a
    directory or nothing stops the construction of the vault. *)
Example md_directory_is_opened :
  get_file_paths files_with_md_directory 5 = Raise (IsADirectoryError "archive.md") ∧
  create_vault_dict files_with_md_directory ["notes.md"; "archive.md"]
    = Raise (IsADirectoryError "archive.md") ∧
  create_vault_dict files_with_md_directory ["missing.md"; "notes.md"]
    = Raise (FileNotFoundError "missing.md").
Proof. split_and!; reflexivity. Qed.
